(** * dix: a build-time dependency-injection compiler

    A shallow embedding of the scheduler ([BuildOrder]), the code emitter
    ([GenerateCode], [generateDepExpr]), the graph builder (the two passes of
    [ScanProjectAndGenerateDI]), the directive parsers
    ([parseFactoryAnnotation], [parseWireAnnotation]) and the scanner of
    comments and directories ([parseFileComments], [scanDir]) of the Go
    package [dix], with the properties of each of them proved over it; the
    scheduler and the emitter of the revision before the Final and Disable
    flags are embedded beside the current ones ([Previous]).  The
    pretty-printer of [go/format] and the path functions of [path/filepath]
    are outside the repository and are taken as parameters ([Library]), as
    are the parser of Go sources and the file system ([Files.FileSystem]).

    Go maps are [gmap]s.  Go leaves the order of [range] over a map
    unspecified, so every such loop takes its enumeration from an explicit
    oracle that returns the entries of the map in some order.  Go [int]s are
    [Z] (the counters here are bounded by the number of factories and
    dependencies, far from 64-bit wrap-around). *)

From Stdlib Require Import ZArith Ascii.
From stdpp Require Import gmap strings list fin_maps pretty.

Local Open Scope string_scope.
Local Open Scope Z_scope.
Local Open Scope list_scope.

(** ** Results of a Go function that can fail *)

(** [Ok] is a normal return with a nil error, [Err] a returned error,
    [Panic] a run-time panic (nil dereference, index out of range), and
    [OutOfFuel] is the recursion bound of the embedding being reached. *)
Inductive outcome (A : Type) : Type :=
| Ok (a : A)
| Err (msg : string)
| Panic
| OutOfFuel.

Arguments Ok {A} a.
Arguments Err {A} msg.
Arguments Panic {A}.
Arguments OutOfFuel {A}.

(** Sequencing stops at the first error or panic ([x ← m; k] below). *)
#[global] Instance outcome_bind : MBind outcome := λ A B k m,
  match m with
  | Ok a => k a
  | Err msg => Err msg
  | Panic => Panic
  | OutOfFuel => OutOfFuel
  end.

(** A loop body that may return early, folded left to right over a slice. *)
Fixpoint foldM {A S} (body : S → A → outcome S) (l : list A) (s : S)
  : outcome S :=
  match l with
  | [] => Ok s
  | x :: l' => s' ← body s x ; foldM body l' s'
  end.

(** ** Data model (di.go) *)

Module di.

Record Dependency := {
  Name : string;
  Standalone : bool
}.

Record Factory := {
  Alias : string;
  Function : string;
  Deps : list Dependency;
  Module : string;
  Final : bool;
  Disable : bool;
  File : string;
  Pos : string
}.

Record DIConfig := { Container : gmap string Factory }.

End di.
Import di.

Definition depnames (f : Factory) : list string := Name <$> Deps f.

(** ** Scheduler: [BuildOrder] *)

Module Scheduler.

(** The two maps built by the first loop of [BuildOrder]. *)
Record edges := {
  indegree : gmap string Z;
  graph : gmap string (list string)
}.

(** Reading a missing key of a Go map gives the zero value. *)
Definition indegree_at (m : gmap string Z) (k : string) : Z :=
  default 0 (m !! k).

Definition graph_at (g : gmap string (list string)) (k : string)
  : list string :=
  default [] (g !! k).

(** Body of the inner loop over [f.Deps].  [container[dep.Name]] is a nil
    pointer when the name is no key, and reading [.Final] from it panics. *)
Definition add_edge (container : gmap string Factory) (alias : string)
    (st : edges) (dep : Dependency) : outcome edges :=
  match container !! Name dep with
  | None => Panic
  | Some d =>
      if Final d then
        Err ("final item " +:+ Name dep +:+ " cannot be a dependency of "
               +:+ alias)
      else if Disable d then
        Err ("disable item " +:+ Name dep +:+ " cannot be a dependency of "
               +:+ alias)
      else
        Ok {| indegree :=
                <[alias := indegree_at (indegree st) alias + 1]> (indegree st);
              graph :=
                <[Name dep := graph_at (graph st) (Name dep) ++ [alias]]>
                  (graph st) |}
  end.

(** Body of the outer loop over the entries of [container]. *)
Definition visit (container : gmap string Factory) (st : edges)
    (entry : string * Factory) : outcome edges :=
  let st0 :=
    match indegree st !! entry.1 with
    | Some _ => st
    | None => {| indegree := <[entry.1 := 0]> (indegree st);
                 graph := graph st |}
    end in
  foldM (add_edge container entry.1) (Deps entry.2) st0.

Definition build_edges (container : gmap string Factory)
    (entries : list (string * Factory)) : outcome edges :=
  foldM (visit container) entries {| indegree := ∅; graph := ∅ |}.

(** Seeding of the queue from the entries of [indegree]. *)
Definition seed (entries : list (string * Z)) : list string :=
  (filter (λ e : string * Z, e.2 = 0) entries).*1.

(** Body of the loop over [graph[node]]: decrement, enqueue on zero. *)
Definition relax_step (st : gmap string Z * list string) (next : string)
  : gmap string Z * list string :=
  let d := indegree_at st.1 next - 1 in
  (<[next := d]> st.1, if decide (d = 0) then st.2 ++ [next] else st.2).

Definition relax (succs : list string) (st : gmap string Z * list string)
  : gmap string Z * list string :=
  foldl relax_step st succs.

(** The queue-draining loop.  Every iteration pops one node; [None] is the
    embedding's recursion bound. *)
Fixpoint drain (fuel : nat) (g : gmap string (list string))
    (queue : list string) (indeg : gmap string Z) (order : list string)
  : option (list string) :=
  match queue with
  | [] => Some order
  | node :: queue' =>
      match fuel with
      | O => None
      | S fuel' =>
          let st := relax (graph_at g node) (indeg, queue') in
          drain fuel' g st.2 st.1 (order ++ [node])
      end
  end.

(** Body of the final loop: a two-bucket split on the [Final] flag. *)
Definition split_step (container : gmap string Factory)
    (st : list string * list string) (alias : string)
  : outcome (list string * list string) :=
  match container !! alias with
  | None => Panic
  | Some f =>
      if Final f then Ok (st.1, st.2 ++ [alias])
      else Ok (st.1 ++ [alias], st.2)
  end.

Definition split_finals (container : gmap string Factory)
    (order : list string) : outcome (list string) :=
  st ← foldM (split_step container) order ([], []) ;
  Ok (st.1 ++ st.2).

(** The order left by the queue-draining loop, before the length check and
    the split (lines 18 to 60 of [BuildOrder]). *)
Definition kahn_order (range_container : list (string * Factory))
    (range_indegree : gmap string Z → list (string * Z))
    (container : gmap string Factory) : outcome (list string) :=
  e ← build_edges container range_container ;
  let queue := seed (range_indegree (indegree e)) in
  match drain (length queue + size (indegree e)) (graph e) queue
          (indegree e) [] with
  | None => OutOfFuel
  | Some order => Ok order
  end.

Definition BuildOrder (range_container : list (string * Factory))
    (range_indegree : gmap string Z → list (string * Z))
    (container : gmap string Factory) : outcome (list string) :=
  order ← kahn_order range_container range_indegree container ;
  if decide (length order ≠ size container) then
    Err "circular dependency detected"
  else split_finals container order.

End Scheduler.

(** ** Go library functions used by the emitter and the scanner *)

Module strings.

(** [strings.HasPrefix]. *)
Definition HasPrefix (s pre : string) : bool := String.prefix pre s.

(** [strings.TrimPrefix]. *)
Definition TrimPrefix (s pre : string) : string :=
  if HasPrefix s pre
  then String.substring (String.length pre)
         (String.length s - String.length pre) s
  else s.

(** The ASCII white space of [unicode.IsSpace]: tab, line feed, vertical
    tab, form feed, carriage return and space.  Text is modelled as bytes, so
    the white space that UTF-8 writes in several bytes is not trimmed. *)
Definition is_space (ch : ascii) : bool :=
  let n := nat_of_ascii ch in
  ((9 <=? n)%nat && (n <=? 13)%nat) || (n =? 32)%nat.

Fixpoint trim_left (s : string) : string :=
  match s with
  | String ch s' => if is_space ch then trim_left s' else s
  | EmptyString => EmptyString
  end.

(** [strings.TrimSpace]. *)
Definition TrimSpace (s : string) : string :=
  String.rev (trim_left (String.rev (trim_left s))).

(** [split_from sep s skip cur]: [cur] holds the bytes of the current piece
    in reverse, [skip] counts the bytes of a separator still to pass over. *)
Fixpoint split_from (sep s : string) (skip : nat) (cur : string)
  : list string :=
  match s with
  | EmptyString => [String.rev cur]
  | String ch s' =>
      match skip with
      | S k => split_from sep s' k cur
      | O =>
          if String.prefix sep s
          then String.rev cur
                 :: split_from sep s' (String.length sep - 1) EmptyString
          else split_from sep s' O (String ch cur)
      end
  end.

(** [strings.Split] for a separator that is not empty. *)
Definition Split (s sep : string) : list string :=
  split_from sep s O EmptyString.

(** [strings.Join]. *)
Fixpoint Join (elems : list string) (sep : string) : string :=
  match elems with
  | [] => ""
  | [x] => x
  | x :: rest => x +:+ sep +:+ Join rest sep
  end.

End strings.

(** ** Syntax trees of the generated file (the part of [go/ast] in use) *)

Module ast.

(** Expressions: an identifier, or a call [x.sel(args)]. *)
Inductive Expr :=
| Ident (name : string)
| CallExpr (x sel : string) (args : list Expr).

(** Statements of the body of [Root]: [var name = value] under a comment
    group [doc], or an expression statement. *)
Inductive Stmt :=
| DeclStmt (doc : string) (name : string) (value : Expr)
| ExprStmt (x : Expr).

(** An import spec: binding name and quoted path. *)
Record ImportSpec := { ImportName : string; ImportPath : string }.

Inductive Decl :=
| ImportDecl (specs : list ImportSpec)
| FuncDecl (name : string) (body : list Stmt).

Record File := { PackageName : string; Decls : list Decl }.

End ast.

(** Library functions whose code is outside the repository.  [filepath_Rel]
    gives [None] for its error return. *)
Class Library := {
  filepath_ToSlash : string → string;
  filepath_Rel : string → string → option string;
  filepath_Join : string → string → string;
  strconv_Quote : string → string;
  format_Node : ast.File → outcome string
}.

(** ** Code emitter: [GenerateCode] *)

Module Emitter.
Import ast.

Record GenContext := {
  ImportID : gmap string string;
  Container : gmap string string;
  Counter : Z
}.

(** [GenUID]: the new name and the context after the increment. *)
Definition GenUID (c : GenContext) : string * GenContext :=
  let n := Counter c + 1 in
  ("id_" +:+ pretty n,
   {| ImportID := ImportID c; Container := Container c; Counter := n |}).

Definition ResolveImport (c : GenContext) (module : string)
  : string * GenContext :=
  match ImportID c !! module with
  | Some alias => (alias, c)
  | None =>
      let '(id, c1) := GenUID c in
      (id, {| ImportID := <[module := id]> (ImportID c1);
              Container := Container c1; Counter := Counter c1 |})
  end.

(** [generateDepExpr].  The context is mutated through a pointer in the
    source and is threaded here.  [fuel] bounds the depth of the recursion
    into standalone dependencies; a nil [factory] panics at
    [factory.Module]. *)
Fixpoint generateDepExpr (fuel : nat) (ctx : GenContext) (dep : Dependency)
    (config : DIConfig) : outcome (Expr * GenContext) :=
  if Standalone dep then
    match fuel with
    | O => OutOfFuel
    | S fuel' =>
        match di.Container config !! Name dep with
        | None => Panic
        | Some factory =>
            let r := ResolveImport ctx (Module factory) in
            st ← foldM (λ (st : list Expr * GenContext) sub,
                          r' ← generateDepExpr fuel' st.2 sub config;
                          Ok (st.1 ++ [r'.1], r'.2))
                   (Deps factory) ([], r.2);
            Ok (CallExpr r.1 (Function factory) st.1, st.2)
        end
    end
  else Ok (Ident (default "" (Container ctx !! Name dep)), ctx).

Section with_library.
Context `{Library}.

Definition sanitizeModulePath (absPath root moduleName : string) : string :=
  let absPath := filepath_ToSlash absPath in
  let root := filepath_ToSlash root in
  match filepath_Rel root absPath with
  | None => moduleName
  | Some rel =>
      let rel := strings.TrimPrefix (filepath_ToSlash rel) "./" in
      if decide (rel = ".") then moduleName else moduleName +:+ "/" +:+ rel
  end.

(** The loop that rewrites [f.Module] of every factory in place. *)
Definition normalize (root moduleName : string) (config : DIConfig)
  : DIConfig :=
  {| di.Container :=
       (λ f, {| Alias := Alias f; Function := Function f; Deps := Deps f;
                Module := sanitizeModulePath (Module f) root moduleName;
                Final := Final f; Disable := Disable f;
                di.File := di.File f; Pos := Pos f |})
       <$> di.Container config |}.

(** State of the loop over [order]. *)
Record emitted := {
  ctx : GenContext;
  stmts : list Stmt;
  depIdents : list Expr
}.

(** Body of the loop over [order]. *)
Definition emit_item (fuel : nat) (config : DIConfig) (st : emitted)
    (item : string) : outcome emitted :=
  match di.Container config !! item with
  | None => Panic
  | Some factory =>
      let id := Alias factory in
      let ctx1 := {| ImportID := ImportID (ctx st);
                     Container := <[item := id]> (Container (ctx st));
                     Counter := Counter (ctx st) |} in
      a ← foldM (λ (a : list Expr * GenContext) dep,
                   r ← generateDepExpr fuel a.2 dep config;
                   Ok (a.1 ++ [r.1], r.2))
            (Deps factory) ([], ctx1);
      let r := ResolveImport a.2 (Module factory) in
      let stmt :=
        DeclStmt (String "010"%char ("//line " +:+ di.File factory +:+ " "
                                  +:+ Pos factory))
          id (CallExpr r.1 (Function factory) a.1) in
      Ok {| ctx := r.2; stmts := stmts st ++ [stmt];
            depIdents := depIdents st ++ [Ident id] |}
  end.

(** The syntax tree that [GenerateCode] hands to [ASTToString].  The three
    oracles enumerate [container], [indegree] and [ctx.ImportID]. *)
Definition GenerateFile
    (range_container : list (string * Factory))
    (range_indegree : gmap string Z → list (string * Z))
    (range_imports : gmap string string → list (string * string))
    (root moduleName : string) (config : DIConfig) : outcome File :=
  let ctx0 := {| ImportID := ∅; Container := ∅; Counter := 0 |} in
  order ← Scheduler.BuildOrder range_container range_indegree
            (di.Container config);
  let config := normalize root moduleName config in
  st ← foldM (emit_item (length order) config) order
         {| ctx := ctx0; stmts := []; depIdents := [] |};
  let stmts :=
    if decide (0 < length (depIdents st))%nat
    then stmts st ++ [ExprStmt (CallExpr "dix" "Mark" (depIdents st))]
    else stmts st in
  let rootFn := FuncDecl "Root" stmts in
  let decls :=
    if decide (0 < size (ImportID (ctx st)))%nat
    then
      [ImportDecl
         ({| ImportName := "dix";
             ImportPath := strconv_Quote "github.com/smtdfc/dix" |}
          :: ((λ e : string * string,
                 {| ImportName := e.2; ImportPath := strconv_Quote e.1 |})
              <$> range_imports (ImportID (ctx st))));
       rootFn]
    else [rootFn] in
  Ok {| PackageName := "dix"; Decls := decls |}.

Definition ASTToString (file : File) : outcome string := format_Node file.

Definition GenerateCode
    (range_container : list (string * Factory))
    (range_indegree : gmap string Z → list (string * Z))
    (range_imports : gmap string string → list (string * string))
    (root moduleName : string) (config : DIConfig) : outcome string :=
  file ← GenerateFile range_container range_indegree range_imports
           root moduleName config;
  ASTToString file.

End with_library.
End Emitter.

(** ** Annotations, directive parsers and graph builder *)

Module AnnotationMetadata.
Record t := {
  Key : string; Value : string; File : string; Line : Z;
  Path : string; Pos : string
}.
End AnnotationMetadata.

Module WireAnnotation.
Record t := {
  Path : string; Target : string; Deps : list string;
  File : string; Pos : string
}.
End WireAnnotation.

Module FactoryAnnotation.
Record t := {
  Path : string; Function : string; Alias : string;
  File : string; Pos : string
}.
End FactoryAnnotation.

Module FinalAnnotation.
Record t := { Path : string; Target : string; File : string; Pos : string }.
End FinalAnnotation.

Module DisableAnnotation.
Record t := { Path : string; Target : string; File : string; Pos : string }.
End DisableAnnotation.

Module Scan.

(** The implementations of the interface [Annotation]. *)
Inductive Annotation :=
| IsFactory (a : FactoryAnnotation.t)
| IsWire (a : WireAnnotation.t)
| IsFinal (a : FinalAnnotation.t)
| IsDisable (a : DisableAnnotation.t).

(** The method [Type()]. *)
Definition TypeOf (a : Annotation) : string :=
  match a with
  | IsFactory _ => "Factory"
  | IsWire _ => "Wire"
  | IsFinal _ => "Final"
  | IsDisable _ => "Disable"
  end.

(** [splitted[0]] and [splitted[1]] are read unchecked: a value without
    ["->"] panics with an index out of range. *)
Definition parseFactoryAnnotation (ann : AnnotationMetadata.t)
  : outcome FactoryAnnotation.t :=
  let value := strings.TrimSpace (AnnotationMetadata.Value ann) in
  let splitted := strings.Split value "->" in
  match splitted !! 0%nat, splitted !! 1%nat with
  | Some s0, Some s1 =>
      Ok {| FactoryAnnotation.Path := AnnotationMetadata.Path ann;
            FactoryAnnotation.Function := strings.TrimSpace s0;
            FactoryAnnotation.Alias := strings.TrimSpace s1;
            FactoryAnnotation.File := "";
            FactoryAnnotation.Pos := "" |}
  | _, _ => Panic
  end.

(** The longest prefix of bytes that satisfy [p], and the rest. *)
Fixpoint span (p : ascii → bool) (s : string) : string * string :=
  match s with
  | String ch s' =>
      if p ch then let r := span p s' in (String ch r.1, r.2)
      else (EmptyString, s)
  | EmptyString => (EmptyString, EmptyString)
  end.

(** The class [[A-Za-z0-9_]]. *)
Definition is_word (ch : ascii) : bool :=
  let n := nat_of_ascii ch in
  ((65 <=? n) && (n <=? 90) || (97 <=? n) && (n <=? 122)
   || (48 <=? n) && (n <=? 57) || (n =? 95))%nat.

Definition not_rparen (ch : ascii) : bool :=
  negb (nat_of_ascii ch =? 41)%nat.

(** [wireRe.FindStringSubmatch]: the expression asks for one or more word
    bytes, an opening parenthesis, any bytes but a closing parenthesis, a
    closing parenthesis and the end of the text.  The result holds the two
    groups (the word and the bytes between the parentheses), or [None] for a
    nil match. *)
Definition wireRe (s : string) : option (string * string) :=
  let name := span is_word s in
  match name.1, name.2 with
  | String _ _, String "("%char rest =>
      let inner := span not_rparen rest in
      match inner.2 with
      | String ")"%char EmptyString => Some (name.1, inner.1)
      | _ => None
      end
  | _, _ => None
  end.

(** [m[1]] is read unchecked: a value that does not match panics. *)
Definition parseWireAnnotation (ann : AnnotationMetadata.t)
  : outcome WireAnnotation.t :=
  match wireRe (strings.TrimSpace (AnnotationMetadata.Value ann)) with
  | None => Panic
  | Some m =>
      let depsOut :=
        if decide (strings.TrimSpace m.2 ≠ "")
        then strings.TrimSpace <$> strings.Split m.2 ","
        else [] in
      Ok {| WireAnnotation.Path := AnnotationMetadata.Path ann;
            WireAnnotation.Target := m.1;
            WireAnnotation.Deps := depsOut;
            WireAnnotation.File := "";
            WireAnnotation.Pos := "" |}
  end.

Section with_library.
Context `{Library}.

Definition modName (modPath : string) (factory : FactoryAnnotation.t)
  : string :=
  filepath_ToSlash (filepath_Join modPath (FactoryAnnotation.Path factory)).

(** Body of the first loop of [ScanProjectAndGenerateDI]. *)
Definition add_factory (modPath : string) (container : gmap string Factory)
    (a : Annotation) : outcome (gmap string Factory) :=
  match a with
  | IsFactory factory =>
      let alias := FactoryAnnotation.Alias factory in
      match container !! alias with
      | Some existing =>
          if decide (Module existing = FactoryAnnotation.Path factory)
          then Err ("Duplicate Alias " +:+ alias +:+ " in "
                      +:+ Module existing)
          else Err ("Alias " +:+ alias +:+ " used by " +:+ Module existing)
      | None =>
          Ok (<[alias :=
                  {| Alias := ""; Function := FactoryAnnotation.Function factory;
                     Deps := []; Module := modName modPath factory;
                     Final := false; Disable := false;
                     di.File := ""; Pos := "" |}]> container)
      end
  | _ => Ok container
  end.

(** Body of the loop over [wire.Deps]. *)
Definition resolve_dep (container : gmap string Factory)
    (target : string) (targetModule : string)
    (deps : list Dependency) (d : string) : outcome (list Dependency) :=
  let depName := strings.TrimSpace d in
  r ← (if strings.HasPrefix depName "^"
       then match strings.Split depName "^" !! 1%nat with
            | Some n => Ok (n, true)
            | None => Panic
            end
       else Ok (depName, false));
  match container !! r.1 with
  | Some _ => Ok (deps ++ [{| Name := r.1; Standalone := r.2 |}])
  | None =>
      Err ("Can't resolve dependency " +:+ r.1 +:+ " of " +:+ target
             +:+ " in " +:+ targetModule)
  end.

(** Body of the second loop. *)
Definition add_wire (container : gmap string Factory) (a : Annotation)
  : outcome (gmap string Factory) :=
  match a with
  | IsWire wire =>
      let target := WireAnnotation.Target wire in
      match container !! target with
      | Some f =>
          deps ← foldM (resolve_dep container target (Module f))
                   (WireAnnotation.Deps wire) [];
          Ok (<[target :=
                  {| Alias := Alias f; Function := Function f; Deps := deps;
                     Module := Module f; Final := Final f;
                     Disable := Disable f; di.File := di.File f;
                     Pos := Pos f |}]> container)
      | None => Ok container
      end
  | _ => Ok container
  end.

(** The graph-building phase: both loops, from the scanned annotations to
    the configuration handed to [GenerateCode]. *)
Definition build_graph (modPath : string) (anns : list Annotation)
  : outcome DIConfig :=
  c1 ← foldM (add_factory modPath) anns ∅;
  c2 ← foldM add_wire anns c1;
  Ok {| Container := c2 |}.

(** [ScanProjectAndGenerateDI] from the module path read from go.mod and
    the annotations returned by [scanDir].  [generate] is the [GenerateCode]
    of the caller's revision, which takes the module path and the
    configuration. *)
Definition ScanProjectAndGenerateDI
    (generate : string → DIConfig → outcome string)
    (modPath : string) (anns : list Annotation) : outcome string :=
  diConfig ← build_graph modPath anns;
  generate modPath diConfig.

End with_library.
End Scan.

(** ** Properties of a dependency graph *)

(** Every dependency name is a key of the container. *)
Definition resolved (c : gmap string Factory) : Prop :=
  map_Forall (λ _ f, Forall (λ d, is_Some (c !! d)) (depnames f)) c.

(** No dependency names a factory flagged Final or Disable. *)
Definition unflagged (f : Factory) : Prop :=
  Final f = false ∧ Disable f = false.

Definition usable (c : gmap string Factory) : Prop :=
  map_Forall
    (λ _ f, Forall (λ d, from_option unflagged True (c !! d)) (depnames f)) c.

(** [dep_edge c a d]: the factory of alias [a] lists [d] in its [Deps]. *)
Definition dep_edge (c : gmap string Factory) (a d : string) : Prop :=
  ∃ f, c !! a = Some f ∧ d ∈ depnames f.

Definition cyclic (c : gmap string Factory) : Prop :=
  ∃ a, tc (dep_edge c) a a.

Definition acyclic (c : gmap string Factory) : Prop :=
  ∀ a, ¬ tc (dep_edge c) a a.

(** Every dependency stands at an earlier position than its dependent. *)
Definition topological (c : gmap string Factory) (order : list string)
  : Prop :=
  ∀ (i j : nat) a f d,
    order !! i = Some a → c !! a = Some f → d ∈ depnames f →
    order !! j = Some d → (j < i)%nat.

(** The order holds each alias of the container exactly once. *)
Definition lists_each_alias_once (c : gmap string Factory)
    (order : list string) : Prop :=
  NoDup order ∧ ∀ a, a ∈ order ↔ is_Some (c !! a).

(** An enumeration of a map: its entries, in some order. *)
Definition enumerates {V} (entries : list (string * V)) (m : gmap string V)
  : Prop :=
  entries ≡ₚ map_to_list m.

Definition is_final (c : gmap string Factory) (a : string) : bool :=
  from_option Final false (c !! a).

(** Number of occurrences of a name in a list of names. *)
Definition count (x : string) (l : list string) : nat :=
  length (filter (λ y, y = x) l).

(** ** Invariants of [BuildOrder] *)

Import Scheduler.

Definition dep_ok (c : gmap string Factory) (d : Dependency) : Prop :=
  ∃ fd, c !! Name d = Some fd ∧ unflagged fd.

(** The adjacency list that the visit of [entries] appends for key [d]. *)
Definition successors_of (entries : list (string * Factory)) (d : string)
  : list string :=
  concat ((λ en, replicate (count d (depnames en.2)) en.1) <$> entries).

(** What a successful first loop has established. *)
Record edges_for (c : gmap string Factory) (e : edges) : Prop := {
  ef_indegree a f :
    c !! a = Some f → indegree e !! a = Some (Z.of_nat (length (Deps f)));
  ef_indegree_none a : c !! a = None → indegree e !! a = None;
  ef_graph_dom d F : F ∈ graph_at (graph e) d → is_Some (c !! F);
  ef_graph_count F f d :
    c !! F = Some f → count F (graph_at (graph e) d) = count d (depnames f)
}.

(** Dependencies of [f], with repetition, not yet in [order]. *)
Definition pending (order : list string) (f : Factory) : nat :=
  length (filter (λ d, d ∉ order) (depnames f)).

(** Invariant of the loop, between two iterations. *)
Record inv (c : gmap string Factory) (queue : list string)
    (indeg : gmap string Z) (order : list string) : Prop := {
  inv_nodup : NoDup (order ++ queue);
  inv_dom a : a ∈ order ++ queue → is_Some (c !! a);
  inv_indeg a f :
    c !! a = Some f → indegree_at indeg a = Z.of_nat (pending order f);
  inv_ready a f :
    c !! a = Some f → a ∈ order ++ queue ↔ pending order f = 0%nat;
  inv_topo (i : nat) a f d :
    order !! i = Some a → c !! a = Some f → d ∈ depnames f →
    ∃ j : nat, (j < i)%nat ∧ order !! j = Some d
}.

(** What the loop has established when the queue runs empty. *)
Record drained (c : gmap string Factory) (order : list string) : Prop := {
  dr_nodup : NoDup order;
  dr_dom a : a ∈ order → is_Some (c !! a);
  dr_ready a f :
    c !! a = Some f → a ∈ order ↔ Forall (λ d, d ∈ order) (depnames f);
  dr_topo : topological c order
}.

(** [x] stands before [y] in [l]. *)
Definition before (l : list string) (x y : string) : Prop :=
  ∃ i j : nat, l !! i = Some x ∧ l !! j = Some y ∧ (i < j)%nat.

#[global] Instance unflagged_dec f : Decision (unflagged f).
Proof. unfold unflagged. apply _. Defined.

#[global] Instance from_option_dec {A} (P : A → Prop) (Q : Prop)
  `{!∀ x, Decision (P x)} `{!Decision Q} (o : option A) :
  Decision (from_option P Q o).
Proof. destruct o; simpl; apply _. Defined.

#[global] Instance resolved_dec c : Decision (resolved c).
Proof. unfold resolved. apply _. Defined.

#[global] Instance usable_dec c : Decision (usable c).
Proof. unfold usable. apply _. Defined.

Definition final_dependency_error (d a : string) : string :=
  "final item " +:+ d +:+ " cannot be a dependency of " +:+ a.

Definition disable_dependency_error (d a : string) : string :=
  "disable item " +:+ d +:+ " cannot be a dependency of " +:+ a.

(** ** Rendering of dependencies by the emitter *)

(** [renders c order i dep e]: [e] is the argument expression for [dep] in
    the declaration at position [i] of [order].  A dependency that is not
    standalone is the identifier declared for its alias, at an earlier
    position; a standalone one is an inline call of its factory's
    constructor, its own dependencies rendered the same way. *)
Inductive renders (c : gmap string Factory) (order : list string) (i : nat)
  : Dependency → ast.Expr → Prop :=
| renders_shared dep f (j : nat) :
    Standalone dep = false → c !! Name dep = Some f →
    order !! j = Some (Name dep) → (j < i)%nat →
    renders c order i dep (ast.Ident (Alias f))
| renders_inline dep f m args :
    Standalone dep = true → c !! Name dep = Some f →
    Forall2 (renders c order i) (Deps f) args →
    renders c order i dep (ast.CallExpr m (Function f) args).

(** The identifiers of the first [p] aliases of [order] are recorded. *)
Definition ctx_ok (c : gmap string Factory) (order : list string) (p : nat)
    (ctx : Emitter.GenContext) : Prop :=
  ∀ (k : nat) a f, (k < p)%nat → order !! k = Some a → c !! a = Some f →
    Emitter.Container ctx !! a = Some (Alias f).

(** The declaration emitted for the factory [f] of an alias at position
    [i]: its name is the alias's identifier, its value a call of the
    constructor on the rendered dependencies. *)
Definition declares (c : gmap string Factory) (order : list string)
    (i : nat) (f : Factory) (s : ast.Stmt) : Prop :=
  ∃ doc m args,
    s = ast.DeclStmt doc (Alias f) (ast.CallExpr m (Function f) args) ∧
    Forall2 (renders c order i) (Deps f) args.

(** Statements of the function [Root] of a generated file, and its
    top-level declarations (all statements but the closing [dix.Mark]). *)
Definition root_body (file : ast.File) : list ast.Stmt :=
  concat ((λ d, match d with
                | ast.FuncDecl _ body => body
                | ast.ImportDecl _ => []
                end) <$> ast.Decls file).

Definition is_decl (s : ast.Stmt) : bool :=
  match s with
  | ast.DeclStmt _ _ _ => true
  | ast.ExprStmt _ => false
  end.

Definition declarations (file : ast.File) : list ast.Stmt :=
  filter is_decl (root_body file).

(** ** Errors and invariant of the graph builder *)

(** The error of the first loop for a factory annotation [later] whose
    alias was entered by [earlier]. *)
Definition duplicate_error `{Library} (modPath : string)
    (earlier later : FactoryAnnotation.t) : string :=
  if decide (Scan.modName modPath earlier = FactoryAnnotation.Path later)
  then "Duplicate Alias " +:+ FactoryAnnotation.Alias later +:+ " in "
         +:+ Scan.modName modPath earlier
  else "Alias " +:+ FactoryAnnotation.Alias later +:+ " used by "
         +:+ Scan.modName modPath earlier.

(** The container holds the factories of the annotations passed so far. *)
Definition collected `{Library} (modPath : string)
    (pre : list Scan.Annotation)
    (container : gmap string Factory) : Prop :=
  (∀ alias fac, container !! alias = Some fac →
     ∃ (i : nat) f, pre !! i = Some (Scan.IsFactory f) ∧
                    FactoryAnnotation.Alias f = alias ∧
                    Module fac = Scan.modName modPath f) ∧
  (∀ (i : nat) f, pre !! i = Some (Scan.IsFactory f) →
     is_Some (container !! FactoryAnnotation.Alias f)).

(** ** Example data *)

Module Examples.

Definition factory (alias function module : string)
    (deps : list Dependency) (final disable : bool) : Factory :=
  {| Alias := alias; Function := function; Deps := deps; Module := module;
     Final := final; Disable := disable;
     di.File := "/proj/" +:+ alias +:+ ".go"; Pos := "3" |}.

Definition shared (name : string) : Dependency :=
  {| Name := name; Standalone := false |}.

Definition standalone (name : string) : Dependency :=
  {| Name := name; Standalone := true |}.

(** [@factory: NewDB -> db], [@factory: NewCache -> cache],
    [@wire: cache(db)], [@factory: NewServer -> server],
    [@wire: server(db, ^cache)]. *)
Definition server_config : DIConfig :=
  {| Container :=
       <["db" := factory "db" "NewDB" "/proj/store" [] false false]>
       (<["cache" := factory "cache" "NewCache" "/proj/store"
                       [shared "db"] false false]>
       (<["server" := factory "server" "NewServer" "/proj/web"
                        [shared "db"; standalone "cache"] false false]> ∅))
  |}.

(** As [server_config], with [server] flagged Final and a further factory
    [metrics] that depends on [db]. *)
Definition final_server_config : DIConfig :=
  {| Container :=
       <["db" := factory "db" "NewDB" "/proj/store" [] false false]>
       (<["server" := factory "server" "NewServer" "/proj/web"
                        [shared "db"] true false]>
       (<["metrics" := factory "metrics" "NewMetrics" "/proj/web"
                         [shared "db"] false false]> ∅))
  |}.

(** [cache] depends on [db], and [db] is flagged Final. *)
Definition final_dependency_config : DIConfig :=
  {| Container :=
       <["db" := factory "db" "NewDB" "/proj/store" [] true false]>
       (<["cache" := factory "cache" "NewCache" "/proj/store"
                       [shared "db"] false false]> ∅)
  |}.

(** [a] and [b] depend on each other. *)
Definition cyclic_config : DIConfig :=
  {| Container :=
       <["a" := factory "a" "NewA" "/proj/x" [shared "b"] false false]>
       (<["b" := factory "b" "NewB" "/proj/x" [shared "a"] false false]> ∅)
  |}.

(** As [cyclic_config], and [b] also lists [ghost], the alias of no
    factory. *)
Definition dangling_cyclic_config : DIConfig :=
  {| Container :=
       <["a" := factory "a" "NewA" "/proj/x" [shared "b"] false false]>
       (<["b" := factory "b" "NewB" "/proj/x"
                   [shared "a"; shared "ghost"] false false]> ∅)
  |}.

(** [cache] lists [ghost], the alias of no factory, before [db], which is
    flagged Final. *)
Definition dangling_final_config : DIConfig :=
  {| Container :=
       <["db" := factory "db" "NewDB" "/proj/store" [] true false]>
       (<["cache" := factory "cache" "NewCache" "/proj/store"
                       [shared "ghost"; shared "db"] false false]> ∅)
  |}.

(** Two factories without dependencies. *)
Definition independent_config : DIConfig :=
  {| Container :=
       <["a" := factory "a" "NewA" "/proj/x" [] false false]>
       (<["b" := factory "b" "NewB" "/proj/y" [] false false]> ∅)
  |}.

(** The canonical enumeration of a map, and the reverse one. *)
Definition forwards {V} (m : gmap string V) : list (string * V) :=
  map_to_list m.

Definition backwards {V} (m : gmap string V) : list (string * V) :=
  reverse (map_to_list m).

(** Position of an alias in a list of aliases. *)
Definition rank_in (order : list string) (a : string) : nat :=
  from_option fst 0%nat (list_find (λ x, x = a) order).

(** A plain printer of generated files, standing in for [go/format]. *)
Fixpoint print_expr (e : ast.Expr) : string :=
  match e with
  | ast.Ident name => name
  | ast.CallExpr x sel args =>
      x +:+ "." +:+ sel +:+ "("
        +:+ strings.Join (map print_expr args) ", " +:+ ")"
  end.

Definition print_stmt (s : ast.Stmt) : string :=
  match s with
  | ast.DeclStmt doc name value =>
      doc +:+ String "010"%char ("var " +:+ name +:+ " = "
        +:+ print_expr value +:+ String "010"%char "")
  | ast.ExprStmt x => print_expr x +:+ String "010"%char ""
  end.

Definition print_decl (d : ast.Decl) : string :=
  match d with
  | ast.ImportDecl specs =>
      "import (" +:+ String "010"%char
        (strings.Join
           ((λ s, ast.ImportName s +:+ " " +:+ ast.ImportPath s) <$> specs)
           (String "010"%char "")
         +:+ String "010"%char (")" +:+ String "010"%char ""))
  | ast.FuncDecl name body =>
      "func " +:+ name +:+ "() {" +:+ String "010"%char
        (strings.Join (print_stmt <$> body) "" +:+ "}"
           +:+ String "010"%char "")
  end.

Definition print_file (file : ast.File) : string :=
  "package " +:+ ast.PackageName file +:+ String "010"%char
    (strings.Join (print_decl <$> ast.Decls file) "").

Definition quote : ascii := ascii_of_nat 34.

(** Library functions for the examples: clean slash-separated paths, a
    path made relative to a root that is its prefix, joining two clean
    elements, quoting a string without special characters. *)
#[export] Instance posix : Library := {|
  filepath_ToSlash := id;
  filepath_Rel := λ root p,
    if strings.HasPrefix p root
    then
      let rel := strings.TrimPrefix (strings.TrimPrefix p root) "/" in
      Some (if decide (rel = "") then "." else rel)
    else None;
  filepath_Join := λ a b, a +:+ "/" +:+ b;
  strconv_Quote := λ s, String quote (s +:+ String quote "");
  format_Node := λ file, Ok (print_file file)
|}.

Definition metadata (value : string) : AnnotationMetadata.t :=
  {| AnnotationMetadata.Key := "";
     AnnotationMetadata.Value := value;
     AnnotationMetadata.File := "/proj/store/db.go";
     AnnotationMetadata.Line := 3;
     AnnotationMetadata.Path := "/proj/store";
     AnnotationMetadata.Pos := "" |}.

Definition factory_annotation (path function alias : string)
  : Scan.Annotation :=
  Scan.IsFactory {| FactoryAnnotation.Path := path;
                    FactoryAnnotation.Function := function;
                    FactoryAnnotation.Alias := alias;
                    FactoryAnnotation.File := "";
                    FactoryAnnotation.Pos := "" |}.

Definition wire_annotation (path target : string) (deps : list string)
  : WireAnnotation.t :=
  {| WireAnnotation.Path := path; WireAnnotation.Target := target;
     WireAnnotation.Deps := deps; WireAnnotation.File := "";
     WireAnnotation.Pos := "" |}.

(** The generator of the caller's revision is not part of the examples. *)
Definition no_generate (modPath : string) (config : DIConfig)
  : outcome string := Ok "".

End Examples.

(** ** Further notions for the emitter *)

(** The identifier that a statement declares. *)
Definition decl_name (s : ast.Stmt) : string :=
  match s with
  | ast.DeclStmt _ name _ => name
  | ast.ExprStmt _ => ""
  end.

(** The binding names of the import declarations of a file. *)
Definition import_names (file : ast.File) : list string :=
  concat ((λ d, match d with
                | ast.ImportDecl specs => ast.ImportName <$> specs
                | ast.FuncDecl _ _ => []
                end) <$> ast.Decls file).

(** Every import alias was made by [GenUID] from a counter value passed
    so far, and no two module paths share an alias. *)
Definition imports_ok (ctx : Emitter.GenContext) : Prop :=
  0 ≤ Emitter.Counter ctx ∧
  (∀ m a, Emitter.ImportID ctx !! m = Some a →
     ∃ k, 0 < k ≤ Emitter.Counter ctx ∧ a = "id_" +:+ pretty k) ∧
  (∀ m1 m2 a, Emitter.ImportID ctx !! m1 = Some a →
     Emitter.ImportID ctx !! m2 = Some a → m1 = m2).

(** ** Further notions for the graph builder *)

(** The name and the standalone flag that the second loop reads from one
    entry of [wire.Deps] (the first lines of the body of its inner loop). *)
Definition parse_dep (d : string) : outcome (string * bool) :=
  let depName := strings.TrimSpace d in
  if strings.HasPrefix depName "^"
  then match strings.Split depName "^" !! 1%nat with
       | Some n => Ok (n, true)
       | None => Panic
       end
  else Ok (depName, false).

Definition not_caret (ch : ascii) : bool := negb (nat_of_ascii ch =? 94)%nat.

(** The dependency that the second loop makes of one entry. *)
Definition dep_ref (d : string) : Dependency :=
  match parse_dep d with
  | Ok r => {| Name := r.1; Standalone := r.2 |}
  | _ => {| Name := ""; Standalone := false |}
  end.

Definition unresolved_error (depName target module : string) : string :=
  "Can't resolve dependency " +:+ depName +:+ " of " +:+ target
    +:+ " in " +:+ module.

(** [f] with its [Deps] replaced. *)
Definition set_deps (f : Factory) (deps : list Dependency) : Factory :=
  {| Alias := Alias f; Function := Function f; Deps := deps;
     Module := Module f; Final := Final f; Disable := Disable f;
     di.File := di.File f; Pos := Pos f |}.

(** What both loops of the graph builder keep: no factory is flagged, and
    every dependency names a key. *)
Definition built (c : gmap string Factory) : Prop :=
  ∀ a f, c !! a = Some f →
    Final f = false ∧ Disable f = false ∧
    Forall (λ d, is_Some (c !! Name d)) (Deps f).

Definition is_factory (a : Scan.Annotation) : bool :=
  match a with Scan.IsFactory _ => true | _ => false end.

Definition is_wire (a : Scan.Annotation) : bool :=
  match a with Scan.IsWire _ => true | _ => false end.

(** ** Comments, files and the directory walk *)

Module Files.

(** [strings.TrimSuffix]. *)
Definition TrimSuffix (s suf : string) : string :=
  String.rev (strings.TrimPrefix (String.rev s) (String.rev suf)).


(** Every byte of [s] satisfies [p]. *)
Fixpoint all_bytes (p : ascii → bool) (s : string) : bool :=
  match s with
  | EmptyString => true
  | String ch s' => p ch && all_bytes p s'
  end.

Fixpoint last_byte (s : string) : option ascii :=
  match s with
  | EmptyString => None
  | String ch EmptyString => Some ch
  | String _ s' => last_byte s'
  end.

(** The class [\s] of the regular expressions of Go: tab, line feed, form
    feed, carriage return and space. *)
Definition is_regexp_space (ch : ascii) : bool :=
  let n := nat_of_ascii ch in
  ((n =? 9) || (n =? 10) || (n =? 12) || (n =? 13) || (n =? 32))%nat.

(** What [.] matches: any byte but the line feed. *)
Definition not_newline (ch : ascii) : bool :=
  negb (nat_of_ascii ch =? 10)%nat.

(** [annRe.FindStringSubmatch]: the expression asks for an at sign, one or
    more word bytes, a colon, any white space and then one or more bytes
    without a line feed up to the end of the text.  The result holds the two
    groups.  The white space is matched greedily; when nothing but white
    space follows the colon, the last group is left with its last byte. *)
Definition annRe (s : string) : option (string * string) :=
  match s with
  | String "@"%char s1 =>
      let key := Scan.span Scan.is_word s1 in
      match key.1, key.2 with
      | String _ _, String ":"%char rest =>
          let ws := Scan.span is_regexp_space rest in
          match ws.2 with
          | String _ _ =>
              if all_bytes not_newline ws.2 then Some (key.1, ws.2) else None
          | EmptyString =>
              match last_byte rest with
              | Some ch =>
                  if not_newline ch then Some (key.1, String ch EmptyString)
                  else None
              | None => None
              end
          end
      | _, _ => None
      end
  | _ => None
  end.

(** A comment of a parsed file: its text, markers included, and the line
    of its position. *)
Record Comment := { Text : string; Line : Z }.

(** The file system and the parser of Go sources, which are outside the
    repository.  [parser_ParseFile] gives the error of a file that does not
    parse, or its comment groups; [filepath_WalkDir] gives the visits that the walk of a root makes
    as long as its callback returns nil: the path, whether it is a directory,
    and the error passed to the callback, if any; [read_module] gives the
    module path of the go.mod of a root, or [None] when it cannot be read or
    parsed or names no module. *)
Record Visit := { VisitPath : string; IsDir : bool; WalkErr : option string }.

Class FileSystem := {
  parser_ParseFile : string → string + list (list Comment);
  filepath_Dir : string → string;
  filepath_Ext : string → string;
  filepath_WalkDir : string → list Visit;
  read_module : string → option string
}.

(** The text of a comment without its markers and surrounding space. *)
Definition directive_text (c : Comment) : string :=
  let txt := strings.TrimSpace (Text c) in
  let txt := strings.TrimPrefix txt "//" in
  let txt := strings.TrimPrefix txt "/*" in
  let txt := TrimSuffix txt "*/" in
  strings.TrimSpace txt.

(** Body of the inner loop of [parseFileComments]. *)
Definition scan_comment (path dir : string) (out : list Scan.Annotation)
    (c : Comment) : outcome (list Scan.Annotation) :=
  let txt := directive_text c in
  if strings.HasPrefix txt "@" then
    match annRe txt with
    | Some m =>
        let metadata :=
          {| AnnotationMetadata.Key := m.1;
             AnnotationMetadata.Value := strings.TrimSpace m.2;
             AnnotationMetadata.File := path;
             AnnotationMetadata.Line := Line c;
             AnnotationMetadata.Path := dir;
             AnnotationMetadata.Pos := "" |} in
        out1 ← (if decide (m.1 = "factory")
                then a ← Scan.parseFactoryAnnotation metadata;
                     Ok (out ++ [Scan.IsFactory a])
                else Ok out);
        if decide (m.1 = "wire")
        then a ← Scan.parseWireAnnotation metadata;
             Ok (out1 ++ [Scan.IsWire a])
        else Ok out1
    | None => Ok out
    end
  else Ok out.

Section with_files.
Context `{Library} `{FileSystem}.

Definition parseFileComments (path : string) : outcome (list Scan.Annotation) :=
  match parser_ParseFile path with
  | inl err => Err err
  | inr groups =>
      let dir := filepath_ToSlash (filepath_Dir path) in
      foldM (scan_comment path dir) (concat groups) []
  end.

(** The callback of [scanDir] over the visits of the walk: the annotations
    gathered, and the error that stopped the walk, if any.  The lines that
    the callback prints are left out. *)
Fixpoint scan_visits (visits : list Visit) (res : list Scan.Annotation)
  : outcome (list Scan.Annotation * option string) :=
  match visits with
  | [] => Ok (res, None)
  | v :: rest =>
      match WalkErr v with
      | Some err => Ok (res, Some err)
      | None =>
          if IsDir v then scan_visits rest res
          else if decide (filepath_Ext (VisitPath v) = ".go") then
            match parseFileComments (VisitPath v) with
            | Ok anns => scan_visits rest (res ++ anns)
            | Err _ => scan_visits rest res
            | Panic => Panic
            | OutOfFuel => OutOfFuel
            end
          else scan_visits rest res
      end
  end.

Definition scanDir (root : string)
  : outcome (list Scan.Annotation * option string) :=
  scan_visits (filepath_WalkDir root) [].

(** [ScanProjectAndGenerateDI] from the root: a go.mod that cannot be read
    or parsed panics, as does the read of the path of a missing module
    directive; an error of the walk is returned as a scan error. *)
Definition ScanProjectAndGenerateDI
    (generate : string → DIConfig → outcome string) (root : string)
  : outcome string :=
  match read_module root with
  | None => Panic
  | Some modPath =>
      r ← scanDir root;
      match r.2 with
      | Some err => Err ("scan error: " +:+ err)
      | None => Scan.ScanProjectAndGenerateDI generate modPath r.1
      end
  end.

End with_files.












End Files.


(** The factory of [alias] was entered for the Factory annotation [fa]. *)
Definition entered_for `{Library} (modPath : string)
    (anns : list Scan.Annotation) (alias : string) (f : Factory) : Prop :=
  ∃ fa, Scan.IsFactory fa ∈ anns ∧ FactoryAnnotation.Alias fa = alias ∧
        Function f = FactoryAnnotation.Function fa ∧
        Module f = Scan.modName modPath fa ∧ Alias f = "" ∧
        Final f = false ∧ Disable f = false.


(** ** The revision before the Final and Disable flags *)

(** [BuildOrder] and [GenerateCode] as they stood before factories could be
    flagged.  The factories of that revision have no [Final] and [Disable]
    fields; on the record of the current revision these functions do not read
    them. *)
Module Previous.
Import Scheduler.

(** Body of the inner loop over [f.Deps]: nothing is looked up in the
    container, so a name that is no key is entered as any other. *)
Definition add_edge (alias : string) (st : edges) (dep : Dependency)
  : edges :=
  {| indegree :=
       <[alias := indegree_at (indegree st) alias + 1]> (indegree st);
     graph :=
       <[Name dep := graph_at (graph st) (Name dep) ++ [alias]]> (graph st) |}.

Definition visit (st : edges) (entry : string * Factory) : edges :=
  let st0 :=
    match indegree st !! entry.1 with
    | Some _ => st
    | None => {| indegree := <[entry.1 := 0]> (indegree st);
                 graph := graph st |}
    end in
  foldl (add_edge entry.1) st0 (Deps entry.2).

Definition build_edges (entries : list (string * Factory)) : edges :=
  foldl visit {| indegree := ∅; graph := ∅ |} entries.

Definition BuildOrder (range_container : list (string * Factory))
    (range_indegree : gmap string Z → list (string * Z))
    (container : gmap string Factory) : outcome (list string) :=
  let e := build_edges range_container in
  let queue := seed (range_indegree (indegree e)) in
  match drain (length queue + size (indegree e)) (graph e) queue
          (indegree e) [] with
  | None => OutOfFuel
  | Some order =>
      if decide (length order ≠ size container) then
        Err "circular dependency detected"
      else Ok order
  end.

(** Statements of the body of [Root] in this revision: [lhs := rhs], or an
    expression statement. *)
Inductive Stmt :=
| AssignStmt (lhs : string) (rhs : ast.Expr)
| ExprStmt (x : ast.Expr).

Inductive Decl :=
| ImportDecl (specs : list ast.ImportSpec)
| FuncDecl (name : string) (body : list Stmt).

Record File := { PackageName : string; Decls : list Decl }.

(** State of the loop over [order]. *)
Record emitted := {
  ctx : Emitter.GenContext;
  stmts : list Stmt;
  depIdents : list ast.Expr
}.

(** Body of the loop over [order]: the variable is named by [GenUID], and a
    nil [factory] panics at [factory.Deps]. *)
Definition emit_item (fuel : nat) (config : DIConfig) (st : emitted)
    (item : string) : outcome emitted :=
  match di.Container config !! item with
  | None => Panic
  | Some factory =>
      let u := Emitter.GenUID (ctx st) in
      let ctx1 :=
        {| Emitter.ImportID := Emitter.ImportID u.2;
           Emitter.Container := <[item := u.1]> (Emitter.Container u.2);
           Emitter.Counter := Emitter.Counter u.2 |} in
      a ← foldM (λ (a : list ast.Expr * Emitter.GenContext) dep,
                   r ← Emitter.generateDepExpr fuel a.2 dep config;
                   Ok (a.1 ++ [r.1], r.2))
            (Deps factory) ([], ctx1);
      let r := Emitter.ResolveImport a.2 (Module factory) in
      let assign :=
        AssignStmt u.1 (ast.CallExpr r.1 (Function factory) a.1) in
      Ok {| ctx := r.2; stmts := stmts st ++ [assign];
            depIdents := depIdents st ++ [ast.Ident u.1] |}
  end.

(** The syntax tree that [GenerateCode] hands to [ASTToString].  The path of
    the import of dix is written without quotes, the path of every other
    import between two double quotes.  The parameter [pkg] of the source is
    not read. *)
Definition GenerateFile
    (range_container : list (string * Factory))
    (range_indegree : gmap string Z → list (string * Z))
    (range_imports : gmap string string → list (string * string))
    (config : DIConfig) : outcome File :=
  let ctx0 := {| Emitter.ImportID := ∅; Emitter.Container := ∅;
                 Emitter.Counter := 0 |} in
  order ← BuildOrder range_container range_indegree (di.Container config);
  st ← foldM (emit_item (length order) config) order
         {| ctx := ctx0; stmts := []; depIdents := [] |};
  let stmts :=
    if decide (0 < length (depIdents st))%nat
    then stmts st ++ [ExprStmt (ast.CallExpr "dix" "Mark" (depIdents st))]
    else stmts st in
  let rootFn := FuncDecl "Root" stmts in
  let decls :=
    if decide (0 < size (Emitter.ImportID (ctx st)))%nat
    then
      [ImportDecl
         ({| ast.ImportName := "dix";
             ast.ImportPath := "github.com/smtdfc/dix" |}
          :: ((λ e : string * string,
                 {| ast.ImportName := e.2;
                    ast.ImportPath :=
                      String (ascii_of_nat 34)
                        (e.1 +:+ String (ascii_of_nat 34) "") |})
              <$> range_imports (Emitter.ImportID (ctx st))));
       rootFn]
    else [rootFn] in
  Ok {| PackageName := "dix"; Decls := decls |}.

(** [GenerateCode]; [format_Node] is the printer of [go/format] on the
    syntax trees of this revision. *)
Definition GenerateCode (format_Node : File → outcome string)
    (range_container : list (string * Factory))
    (range_indegree : gmap string Z → list (string * Z))
    (range_imports : gmap string string → list (string * string))
    (pkg : string) (config : DIConfig) : outcome string :=
  file ← GenerateFile range_container range_indegree range_imports config;
  format_Node file.

(** The names that a declaration binds: the names of its import specs, or
    the variables assigned in its body. *)
Definition assigned (s : Stmt) : list string :=
  match s with AssignStmt lhs _ => [lhs] | ExprStmt _ => [] end.

Definition bound_names (d : Decl) : list string :=
  match d with
  | ImportDecl specs => ast.ImportName <$> specs
  | FuncDecl _ body => body ≫= assigned
  end.

(** The names handed out so far: the variables in [declared] and the import
    names of [ctx] are pairwise distinct, and each was made by [GenUID] from
    a counter value passed so far. *)
Definition names_ok (ctx : Emitter.GenContext) (declared : list string)
  : Prop :=
  0 ≤ Emitter.Counter ctx ∧
  NoDup (declared ++ (map_to_list (Emitter.ImportID ctx)).*2) ∧
  Forall (λ a, ∃ k, 0 < k ≤ Emitter.Counter ctx ∧ a = "id_" +:+ pretty k)
    (declared ++ (map_to_list (Emitter.ImportID ctx)).*2).

End Previous.


(** ** Example project on disk *)

Module FileExamples.
Import Examples.

Definition not_slash (ch : ascii) : bool := negb (nat_of_ascii ch =? 47)%nat.

Definition not_dot_or_slash (ch : ascii) : bool :=
  negb (nat_of_ascii ch =? 46)%nat && not_slash ch.

(** Stand-ins for [filepath.Dir] and [filepath.Ext] on clean paths: the
    text before the last slash, and the text from the last dot of the last
    element. *)
Definition dir_of (p : string) : string :=
  match (Scan.span not_slash (String.rev p)).2 with
  | String _ rest => String.rev rest
  | EmptyString => "."
  end.

Definition ext_of (p : string) : string :=
  let r := Scan.span not_dot_or_slash (String.rev p) in
  match r.2 with
  | String "."%char _ => String "."%char (String.rev r.1)
  | _ => ""
  end.

Definition comment (text : string) (line : Z) : Files.Comment :=
  {| Files.Text := text; Files.Line := line |}.

Definition entry (path : string) (dir : bool) : Files.Visit :=
  {| Files.VisitPath := path; Files.IsDir := dir; Files.WalkErr := None |}.

(** The comments of [/proj/store/db.go]: two factories, one wire, a comment
    without a directive and a directive with another key. *)
Definition db_comments : list (list Files.Comment) :=
  [[comment "// @factory: NewDB -> db" 3];
   [comment "// NewCache builds the cache." 9;
    comment "// @factory: NewCache -> cache" 10;
    comment "// @wire: cache(db)" 11;
    comment "/* @final: cache */" 12]].

(** The project [/proj]: [store/db.go] as above, [web/bad.go] that does
    not parse, a text file, and a directory that cannot be read.  The project
    [/draft] holds one file, whose factory directive has no arrow. *)
#[export] Instance disk : Files.FileSystem := {|
  Files.parser_ParseFile := λ path,
    if decide (path = "/proj/store/db.go") then inr db_comments
    else if decide (path = "/proj/web/bad.go")
    then inl "bad.go:1:1: expected 'package'"
    else if decide (path = "/draft/main.go")
    then inr [[comment "// @factory: NewServer" 3]]
    else inr [];
  Files.filepath_Dir := dir_of;
  Files.filepath_Ext := ext_of;
  Files.filepath_WalkDir := λ root,
    if decide (root = "/proj") then
      [entry "/proj" true; entry "/proj/go.mod" false;
       entry "/proj/store" true; entry "/proj/store/db.go" false;
       entry "/proj/web" true; entry "/proj/web/bad.go" false;
       entry "/proj/web/notes.txt" false;
       {| Files.VisitPath := "/proj/secret"; Files.IsDir := true;
          Files.WalkErr := Some "open /proj/secret: permission denied" |};
       entry "/proj/zone.go" false]
    else if decide (root = "/draft") then
      [entry "/draft" true; entry "/draft/main.go" false]
    else [];
  Files.read_module := λ root,
    if decide (root = "/proj") then Some "example.com/proj"
    else if decide (root = "/draft") then Some "example.com/draft"
    else None
|}.

(** A printer for the syntax trees of the previous revision that prints
    the names bound, standing in for [go/format]. *)
Definition print_names (file : Previous.File) : outcome string :=
  Ok (strings.Join (Previous.Decls file ≫= Previous.bound_names) " ").

End FileExamples.


(** * Proofs *)

(** ** Generic lemmas *)

Lemma foldM_app {A S} (body : S → A → outcome S) l1 l2 s :
  foldM body (l1 ++ l2) s = (s' ← foldM body l1 s; foldM body l2 s').
Proof.
  revert s. induction l1 as [|x l1 IH]; intros s; simpl.
  - done.
  - destruct (body s x); simpl; auto.
Qed.

(** A fold that does not return normally stopped in some iteration. *)
Lemma foldM_inv {A S} (body : S → A → outcome S) l s r :
  foldM body l s = r →
  (∃ s', r = Ok s') ∨
  (∃ l1 x l2 s', l = l1 ++ x :: l2 ∧ foldM body l1 s = Ok s' ∧
                 body s' x = r ∧ ∀ s'', r ≠ Ok s'').
Proof.
  revert s. induction l as [|x l IH]; intros s; simpl.
  - intros <-. left. eauto.
  - destruct (body s x) as [s1| | |] eqn:Hb; simpl.
    + intros Hr. destruct (IH _ Hr) as [?|(l1 & y & l2 & s' & -> & H1 & H2 & H3)].
      * by left.
      * right. exists (x :: l1), y, l2, s'. simpl. rewrite Hb. simpl. done.
    + intros <-. right. exists [], x, l, s. done.
    + intros <-. right. exists [], x, l, s. done.
    + intros <-. right. exists [], x, l, s. done.
Qed.

Lemma count_nil x : count x [] = 0%nat.
Proof. done. Qed.

Lemma count_cons x y l :
  count x (y :: l) = ((if decide (y = x) then 1 else 0) + count x l)%nat.
Proof. unfold count. rewrite filter_cons. by case_decide. Qed.

Lemma count_app x l1 l2 : count x (l1 ++ l2) = (count x l1 + count x l2)%nat.
Proof. unfold count. by rewrite filter_app, length_app. Qed.

Lemma count_replicate x y n :
  count x (replicate n y) = if decide (y = x) then n else 0%nat.
Proof.
  induction n as [|n IH]; simpl.
  - by case_decide.
  - rewrite count_cons, IH. by case_decide.
Qed.

Lemma count_pos x l : (0 < count x l)%nat ↔ x ∈ l.
Proof.
  induction l as [|y l IH].
  - rewrite count_nil. split; [lia|]. by intros ?%elem_of_nil.
  - rewrite count_cons, elem_of_cons. case_decide; subst.
    + split; [auto|lia].
    + rewrite Nat.add_0_l, IH. naive_solver.
Qed.

Lemma count_zero x l : count x l = 0%nat ↔ x ∉ l.
Proof. rewrite <-count_pos. lia. Qed.

(** ** The first loop of [BuildOrder]: indegrees and adjacency lists *)

Lemma indegree_at_insert m k v k' :
  indegree_at (<[k := v]> m) k' = if decide (k = k') then v else indegree_at m k'.
Proof.
  unfold indegree_at. rewrite lookup_insert. by case_decide.
Qed.

Lemma graph_at_insert g k v k' :
  graph_at (<[k := v]> g) k' = if decide (k = k') then v else graph_at g k'.
Proof.
  unfold graph_at. rewrite lookup_insert. by case_decide.
Qed.

Lemma add_edge_ok c a st dep st' :
  add_edge c a st dep = Ok st' →
  dep_ok c dep ∧
  indegree st' = <[a := indegree_at (indegree st) a + 1]> (indegree st) ∧
  graph st' = <[Name dep := graph_at (graph st) (Name dep) ++ [a]]> (graph st).
Proof.
  unfold add_edge, dep_ok, unflagged.
  destruct (c !! Name dep) as [fd|]; [|done].
  destruct (Final fd) eqn:?; [done|]. destruct (Disable fd) eqn:?; [done|].
  intros [= <-]. simpl. split_and!; eauto.
Qed.

Lemma add_edges_ok c a deps st st' :
  foldM (add_edge c a) deps st = Ok st' →
  Forall (dep_ok c) deps ∧
  indegree_at (indegree st') a
    = indegree_at (indegree st) a + Z.of_nat (length deps) ∧
  (∀ b, b ≠ a → indegree st' !! b = indegree st !! b) ∧
  (is_Some (indegree st !! a) → is_Some (indegree st' !! a)) ∧
  (∀ d, graph_at (graph st') d
        = graph_at (graph st) d ++ replicate (count d (Name <$> deps)) a).
Proof.
  revert st. induction deps as [|dep deps IH]; intros st; simpl.
  - intros [= <-]. split_and!; auto.
    + lia.
    + intros d. simpl. by rewrite app_nil_r.
  - destruct (add_edge c a st dep) as [st1| | |] eqn:H1; try done. simpl.
    intros H2. apply add_edge_ok in H1 as (Hok & Hi & Hg).
    destruct (IH _ H2) as (IH1 & IH2 & IH3 & IH4 & IH5).
    split_and!.
    + by constructor.
    + rewrite IH2, Hi, indegree_at_insert, decide_True by done. lia.
    + intros b Hb. rewrite IH3, Hi, lookup_insert_ne by done. done.
    + intros _. apply IH4. rewrite Hi, lookup_insert_eq. eauto.
    + intros d. rewrite IH5, Hg, graph_at_insert, count_cons.
      case_decide; subst; simpl.
      * by rewrite <-app_assoc.
      * done.
Qed.

Lemma add_edges_run c a deps st :
  Forall (dep_ok c) deps → ∃ st', foldM (add_edge c a) deps st = Ok st'.
Proof.
  intros H. revert st. induction H as [|dep deps (fd & Hfd & Hf & Hd) _ IH];
    intros st; simpl.
  - eauto.
  - assert (∃ st1, add_edge c a st dep = Ok st1) as [st1 ->].
    { unfold add_edge. rewrite Hfd, Hf, Hd. eauto. }
    simpl. apply IH.
Qed.

Lemma visit_ok c st a f st' :
  visit c st (a, f) = Ok st' →
  indegree st !! a = None →
  Forall (dep_ok c) (Deps f) ∧
  indegree st' !! a = Some (Z.of_nat (length (Deps f))) ∧
  (∀ b, b ≠ a → indegree st' !! b = indegree st !! b) ∧
  (∀ d, graph_at (graph st') d
        = graph_at (graph st) d ++ replicate (count d (depnames f)) a).
Proof.
  unfold visit. simpl. intros H Hnone. rewrite Hnone in H.
  apply add_edges_ok in H as (H1 & H2 & H3 & H4 & H5). simpl in *.
  split_and!; auto.
  - rewrite indegree_at_insert, decide_True in H2 by done.
    destruct H4 as [v Hv]; [rewrite lookup_insert_eq; eauto|].
    unfold indegree_at in H2. rewrite Hv in *. simpl in H2. f_equal. lia.
  - intros b Hb. rewrite H3, lookup_insert_ne by done. done.
Qed.

Lemma visits_ok c l st e :
  foldM (visit c) l st = Ok e →
  NoDup l.*1 →
  (∀ a, a ∈ l.*1 → indegree st !! a = None) →
  Forall (λ en, Forall (dep_ok c) (Deps en.2)) l ∧
  (∀ b, b ∉ l.*1 → indegree e !! b = indegree st !! b) ∧
  (∀ a f, (a, f) ∈ l → indegree e !! a = Some (Z.of_nat (length (Deps f)))) ∧
  (∀ d, graph_at (graph e) d = graph_at (graph st) d ++ successors_of l d).
Proof.
  revert st. induction l as [|[a f] l IH]; intros st; simpl.
  - intros [= <-] _ _. split_and!; auto.
    + intros ?? ?%elem_of_nil. done.
    + intros d. unfold successors_of. simpl. by rewrite app_nil_r.
  - destruct (visit c st (a, f)) as [st1| | |] eqn:H1; try done. simpl.
    intros H2 [Hnotin Hnd]%NoDup_cons Hnone.
    apply visit_ok in H1 as (V1 & V2 & V3 & V4);
      [|apply Hnone; set_solver].
    destruct (IH _ H2 Hnd) as (I1 & I2 & I3 & I4).
    { intros b Hb. rewrite V3; [apply Hnone; set_solver|].
      intros ->. done. }
    split_and!.
    + by constructor.
    + intros b Hb. rewrite I2 by set_solver. apply V3. set_solver.
    + intros b fb [[= -> ->]|Hin]%elem_of_cons.
      * by rewrite I2.
      * by apply I3.
    + intros d. rewrite I4, V4. unfold successors_of. simpl.
      by rewrite <-app_assoc.
Qed.

Lemma visits_run c l st :
  Forall (λ en, Forall (dep_ok c) (Deps en.2)) l →
  ∃ e, foldM (visit c) l st = Ok e.
Proof.
  intros H. revert st. induction H as [|[a f] l H _ IH]; intros st; simpl.
  - eauto.
  - assert (∃ st1, visit c st (a, f) = Ok st1) as [st1 ->].
    { unfold visit. apply add_edges_run, H. }
    simpl. apply IH.
Qed.

Lemma successors_of_cons a f l d :
  successors_of ((a, f) :: l) d
  = replicate (count d (depnames f)) a ++ successors_of l d.
Proof. done. Qed.

Lemma successors_of_elem l d F :
  F ∈ successors_of l d → F ∈ l.*1.
Proof.
  induction l as [|[a f] l IH].
  - by intros ?%elem_of_nil.
  - rewrite successors_of_cons, elem_of_app, fmap_cons, elem_of_cons.
    intros [[-> _]%elem_of_replicate|?]; auto.
Qed.

Lemma successors_of_count l d F f :
  NoDup l.*1 → (F, f) ∈ l →
  count F (successors_of l d) = count d (depnames f).
Proof.
  induction l as [|[a fa] l IH].
  - by intros _ ?%elem_of_nil.
  - rewrite fmap_cons, successors_of_cons, count_app, count_replicate.
    intros [Hnotin Hnd]%NoDup_cons [Heq|Hin]%elem_of_cons.
    + injection Heq as <- <-. rewrite decide_True by done.
      assert (count F (successors_of l d) = 0%nat) as ->; [|lia].
      apply count_zero. intros H. by apply Hnotin, (successors_of_elem l d).
    + rewrite decide_False, IH; [done..|].
      intros ->. apply Hnotin, list_elem_of_fmap. by exists (F, f).
Qed.

Lemma enumerates_elem {V} (entries : list (string * V)) m a v :
  enumerates entries m → (a, v) ∈ entries ↔ m !! a = Some v.
Proof.
  unfold enumerates. intros ->. apply elem_of_map_to_list.
Qed.

Lemma enumerates_NoDup {V} (entries : list (string * V)) m :
  enumerates entries m → NoDup entries.*1.
Proof.
  unfold enumerates. intros ->. apply NoDup_fst_map_to_list.
Qed.

Lemma enumerates_keys {V} (entries : list (string * V)) m a :
  enumerates entries m → a ∈ entries.*1 ↔ is_Some (m !! a).
Proof.
  intros He. rewrite list_elem_of_fmap. split.
  - intros ([a' v] & -> & Hin). simpl.
    apply (enumerates_elem _ _ _ _ He) in Hin. eauto.
  - intros [v Hv]. exists (a, v). split; [done|].
    by apply (enumerates_elem _ _ _ _ He).
Qed.

Lemma dep_ok_all c :
  (∀ a f, c !! a = Some f → Forall (dep_ok c) (Deps f)) ↔
  resolved c ∧ usable c.
Proof.
  unfold resolved, usable, depnames, map_Forall. split.
  - intros H. split; intros a f Hf; apply Forall_fmap, Forall_forall;
      intros d Hd; specialize (H a f Hf);
      rewrite Forall_forall in H; destruct (H d Hd) as (fd & Hfd & Hu);
      simpl; rewrite Hfd; eauto.
  - intros [Hr Hu] a f Hf. specialize (Hr a f Hf). specialize (Hu a f Hf).
    rewrite Forall_fmap in Hr, Hu. rewrite Forall_forall in *.
    intros d Hd. destruct (Hr d Hd) as [fd Hfd]. exists fd. split; [done|].
    specialize (Hu d Hd). simpl in Hu. by rewrite Hfd in Hu.
Qed.

Lemma build_edges_ok c rc e :
  enumerates rc c → build_edges c rc = Ok e →
  resolved c ∧ usable c ∧ edges_for c e.
Proof.
  intros He H. apply visits_ok in H as (H1 & H2 & H3 & H4);
    [|by eapply enumerates_NoDup|done].
  simpl in *. rewrite Forall_forall in H1.
  assert (resolved c ∧ usable c) as [??].
  { apply dep_ok_all. intros a f Hf.
    apply (H1 (a, f)). by apply (enumerates_elem _ _ _ _ He). }
  split_and!; try done. split.
  - intros a f Hf. apply H3. by apply (enumerates_elem _ _ _ _ He).
  - intros a Ha. rewrite H2; [done|].
    rewrite (enumerates_keys _ _ _ He), Ha. by intros [??].
  - intros d F. rewrite H4. unfold graph_at at 1. simpl.
    intros ?%successors_of_elem. by apply (enumerates_keys _ _ _ He).
  - intros F f d Hf. rewrite H4. unfold graph_at at 1. simpl.
    apply successors_of_count; [by eapply enumerates_NoDup|].
    by apply (enumerates_elem _ _ _ _ He).
Qed.

Lemma build_edges_run c rc :
  enumerates rc c → resolved c → usable c → ∃ e, build_edges c rc = Ok e.
Proof.
  intros He Hr Hu. apply visits_run, Forall_forall. intros [a f] Hin.
  simpl. apply (enumerates_elem _ _ _ _ He) in Hin.
  revert a f Hin. apply dep_ok_all. done.
Qed.

(** ** The queue-draining loop *)

Lemma relax_cons x l st : relax (x :: l) st = relax l (relax_step st x).
Proof. done. Qed.

(** One pass over [graph[node]]: every listed successor loses one indegree
    per listing, and those that reach zero join the queue, once each. *)
Lemma relax_spec l indeg q :
  (∀ F, F ∈ l → Z.of_nat (count F l) ≤ indegree_at indeg F) →
  ∃ added,
    (relax l (indeg, q)).2 = q ++ added ∧
    NoDup added ∧
    (∀ F, indegree_at (relax l (indeg, q)).1 F
          = indegree_at indeg F - Z.of_nat (count F l)) ∧
    (∀ F, F ∈ added ↔ F ∈ l ∧ indegree_at (relax l (indeg, q)).1 F = 0).
Proof.
  revert indeg q. induction l as [|x l IH]; intros indeg q Hle.
  - exists []. simpl. rewrite app_nil_r. split_and!; auto.
    + constructor.
    + intros F. rewrite count_nil. lia.
    + intros F. rewrite elem_of_nil. naive_solver.
  - rewrite relax_cons. unfold relax_step. simpl.
    set (d := indegree_at indeg x - 1).
    set (indeg1 := <[x := d]> indeg).
    assert (Hx : Z.of_nat (count x l) ≤ d).
    { assert (x ∈ x :: l) as Hxin by left. specialize (Hle x Hxin).
      rewrite count_cons, decide_True in Hle by done. unfold d. lia. }
    assert (Hle1 : ∀ F, F ∈ l → Z.of_nat (count F l) ≤ indegree_at indeg1 F).
    { intros F HF. unfold indeg1. rewrite indegree_at_insert.
      case_decide; subst; [done|].
      specialize (Hle F). rewrite count_cons, decide_False in Hle by done.
      apply Hle. by right. }
    assert (Hfinal : ∀ q1 F, indegree_at (relax l (indeg1, q1)).1 F
               = indegree_at indeg F - Z.of_nat (count F (x :: l))).
    { intros q1 F. destruct (IH indeg1 q1 Hle1) as (? & _ & _ & -> & _).
      unfold indeg1. rewrite indegree_at_insert, count_cons.
      case_decide; subst; unfold d; lia. }
    case_decide as Hd.
    + destruct (IH indeg1 (q ++ [x]) Hle1) as (added & Hq & Hnd & Hv & Hin).
      assert (Hxl : x ∉ l).
      { apply count_zero. rewrite Hd in Hx. lia. }
      exists (x :: added). split_and!.
      * by rewrite Hq, <-app_assoc.
      * constructor; [|done]. rewrite Hin. naive_solver.
      * apply Hfinal.
      * intros F. rewrite !elem_of_cons, Hin. split.
        -- intros [->|[??]]; [|by auto]. split; [by left|].
           rewrite Hv. unfold indeg1. rewrite indegree_at_insert,
             decide_True by done.
           apply count_zero in Hxl. lia.
        -- intros [[->|?] ?]; auto.
    + destruct (IH indeg1 q Hle1) as (added & Hq & Hnd & Hv & Hin).
      exists added. split_and!; [done|done|apply Hfinal|].
      intros F. rewrite elem_of_cons, Hin. split; [naive_solver|].
        intros [[->|?] H0]; [|done]. split; [|done].
        apply count_pos. rewrite Hv in H0. unfold indeg1 in H0.
        rewrite indegree_at_insert, decide_True in H0 by done. lia.
Qed.

Lemma pending_zero order f :
  pending order f = 0%nat ↔ Forall (λ d, d ∈ order) (depnames f).
Proof.
  unfold pending. generalize (depnames f). intros l.
  induction l as [|d l IH]; simpl.
  - split; [constructor|done].
  - rewrite filter_cons, Forall_cons. case_decide; simpl.
    + split; [lia|]. intros [??]. done.
    + rewrite IH. split; [|naive_solver]. intros ?. split; [|done].
      destruct (decide (d ∈ order)); [done|exfalso; auto].
Qed.

Lemma pending_nil f : pending [] f = length (Deps f).
Proof.
  unfold pending, depnames. rewrite <-(length_fmap Name). f_equal.
  induction (Name <$> Deps f) as [|d l IH]; [done|].
  rewrite filter_cons, decide_True; [by f_equal|]. by intros ?%elem_of_nil.
Qed.

Lemma pending_snoc order node f :
  node ∉ order →
  (pending (order ++ [node]) f + count node (depnames f))%nat
  = pending order f.
Proof.
  intros Hn. unfold pending. generalize (depnames f). intros l.
  induction l as [|d l IH]; [done|].
  rewrite count_cons, !filter_cons.
  destruct (decide (d = node)) as [->|Hne].
  - rewrite decide_False by set_solver. rewrite decide_True by done.
    simpl. lia.
  - destruct (decide (d ∈ order)).
    + rewrite !decide_False by set_solver. lia.
    + rewrite !decide_True by set_solver. simpl. lia.
Qed.

Section drain.
Variable c : gmap string Factory.
Variable g : gmap string (list string).
Hypothesis g_dom : ∀ d F, F ∈ graph_at g d → is_Some (c !! F).
Hypothesis g_count : ∀ F f d,
  c !! F = Some f → count F (graph_at g d) = count d (depnames f).

Lemma inv_step node queue indeg order :
  inv c (node :: queue) indeg order →
  inv c (relax (graph_at g node) (indeg, queue)).2
      (relax (graph_at g node) (indeg, queue)).1 (order ++ [node]).
Proof.
  intros [Hnd Hdom Hindeg Hready Htopo].
  assert (Hnode : node ∉ order).
  { apply NoDup_app in Hnd as (_ & Hd & _). intros Hin.
    apply (Hd _ Hin). by left. }
  assert (Hpre : ∀ F, F ∈ graph_at g node →
            Z.of_nat (count F (graph_at g node)) ≤ indegree_at indeg F).
  { intros F HF. destruct (g_dom _ _ HF) as [f Hf].
    rewrite (g_count _ _ _ Hf), (Hindeg _ _ Hf).
    pose proof (pending_snoc order node f Hnode). lia. }
  destruct (relax_spec _ indeg queue Hpre) as (added & -> & Hnda & Hv & Hin).
  assert (Hadded : ∀ F, F ∈ added → ∃ f, c !! F = Some f ∧
            pending (order ++ [node]) f = 0%nat ∧ pending order f ≠ 0%nat).
  { intros F [HF H0]%Hin. destruct (g_dom _ _ HF) as [f Hf]. exists f.
    apply count_pos in HF. rewrite (g_count _ _ _ Hf) in HF.
    rewrite Hv, (Hindeg _ _ Hf), (g_count _ _ _ Hf) in H0.
    pose proof (pending_snoc order node f Hnode). split; [done|lia]. }
  split.
  - rewrite <-app_assoc. simpl.
    apply NoDup_app in Hnd as (Hnd1 & Hnd2 & Hnd3).
    apply NoDup_app. split_and!; [done|..].
    + intros x Hx [->|[Hq|Ha]%elem_of_app]%elem_of_cons; [done|..].
      * apply (Hnd2 _ Hx). by right.
      * destruct (Hadded _ Ha) as (f & Hf & _ & Hp). apply Hp.
        apply (Hready _ _ Hf). apply elem_of_app. by left.
    + apply NoDup_cons in Hnd3 as [Hn3 Hnd3]. constructor.
      * intros [Hq|Ha]%elem_of_app; [done|].
        destruct (Hadded _ Ha) as (f & Hf & _ & Hp). apply Hp.
        apply (Hready _ _ Hf). apply elem_of_app. right. by left.
      * apply NoDup_app. split_and!; [done| |done].
        intros x Hx Ha.
        destruct (Hadded _ Ha) as (f & Hf & _ & Hp). apply Hp.
        apply (Hready _ _ Hf). apply elem_of_app. right. by right.
  - intros a. rewrite <-app_assoc. simpl.
    rewrite elem_of_app, elem_of_cons, elem_of_app.
    intros [?|[->|[?|Ha]]].
    + apply Hdom. set_solver.
    + apply Hdom. set_solver.
    + apply Hdom. set_solver.
    + destruct (Hadded _ Ha) as (f & Hf & _). eauto.
  - intros a f Hf. rewrite Hv, (Hindeg _ _ Hf), (g_count _ _ _ Hf).
    pose proof (pending_snoc order node f Hnode). lia.
  - intros a f Hf. pose proof (pending_snoc order node f Hnode) as Hp.
    rewrite <-app_assoc. simpl. split.
    + rewrite elem_of_app, elem_of_cons, elem_of_app.
      intros [?|[?|[?|Ha]]].
      * assert (pending order f = 0%nat); [|lia].
        apply (Hready _ _ Hf). set_solver.
      * assert (pending order f = 0%nat); [|lia].
        apply (Hready _ _ Hf). set_solver.
      * assert (pending order f = 0%nat); [|lia].
        apply (Hready _ _ Hf). set_solver.
      * destruct (Hadded _ Ha) as (f' & Hf' & H0 & _). congruence.
    + intros H0. destruct (decide (pending order f = 0%nat)) as [Hz|Hnz].
      * apply (Hready _ _ Hf) in Hz. set_solver.
      * assert (a ∈ added); [|set_solver].
        apply Hin. split.
        -- apply count_pos. rewrite (g_count _ _ _ Hf). lia.
        -- rewrite Hv, (Hindeg _ _ Hf), (g_count _ _ _ Hf). lia.
  - intros i a f d Hi Hf Hd.
    destruct (decide (i < length order)%nat) as [Hlt|Hge].
    + rewrite lookup_app_l in Hi by done.
      destruct (Htopo _ _ _ _ Hi Hf Hd) as (j & Hj & Hjd).
      exists j. split; [done|]. apply lookup_app_l_Some. done.
    + rewrite lookup_app_r in Hi by lia.
      apply list_lookup_singleton_Some in Hi as [Hi <-].
      assert (pending order f = 0%nat) as Hp.
      { apply (Hready _ _ Hf). set_solver. }
      rewrite pending_zero, Forall_forall in Hp.
      apply Hp, list_elem_of_lookup in Hd as [j Hj].
      exists j. split.
      * apply lookup_lt_Some in Hj. lia.
      * by apply lookup_app_l_Some.
Qed.
End drain.

Lemma enumerates_canonical {V} (m : gmap string V) :
  enumerates (map_to_list m) m.
Proof. by unfold enumerates. Qed.

Lemma keys_bound {V} (m : gmap string V) (l : list string) :
  NoDup l → (∀ a, a ∈ l → is_Some (m !! a)) → (length l ≤ size m)%nat.
Proof.
  intros Hnd Hin. rewrite <-length_map_to_list, <-(length_fmap fst).
  apply submseteq_length, NoDup_submseteq; [done|].
  intros a Ha. apply (enumerates_keys _ m), Hin, Ha.
  apply enumerates_canonical.
Qed.

Lemma keys_all {V} (m : gmap string V) (l : list string) :
  NoDup l → (∀ a, a ∈ l → is_Some (m !! a)) →
  length l = size m ↔ ∀ a, is_Some (m !! a) → a ∈ l.
Proof.
  intros Hnd Hin. split.
  - intros Hlen a Ha.
    assert (l ≡ₚ (map_to_list m).*1) as ->.
    { apply submseteq_length_Permutation.
      - apply NoDup_submseteq; [done|]. intros b Hb.
        apply (enumerates_keys _ m), Hin, Hb. apply enumerates_canonical.
      - rewrite length_fmap, length_map_to_list. lia. }
    apply (enumerates_keys _ m), Ha. apply enumerates_canonical.
  - intros Hall. rewrite <-length_map_to_list, <-(length_fmap fst).
    apply Permutation_length, NoDup_Permutation;
      [done|apply NoDup_fst_map_to_list|].
    intros a.
    rewrite (enumerates_keys (map_to_list m) m) by apply enumerates_canonical.
    split; auto.
Qed.

Section drain_run.
Variable c : gmap string Factory.
Variable g : gmap string (list string).
Hypothesis g_dom : ∀ d F, F ∈ graph_at g d → is_Some (c !! F).
Hypothesis g_count : ∀ F f d,
  c !! F = Some f → count F (graph_at g d) = count d (depnames f).

(** The loop ends within [size c] iterations, with the invariant. *)
Lemma drain_inv fuel queue indeg order :
  inv c queue indeg order →
  (size c ≤ fuel + length order)%nat →
  ∃ o indeg', drain fuel g queue indeg order = Some o ∧ inv c [] indeg' o.
Proof.
  revert queue indeg order.
  induction fuel as [|fuel IH]; intros queue indeg order Hinv Hfuel.
  - destruct queue as [|node queue]; simpl.
    + eauto.
    + pose proof (keys_bound c _ (inv_nodup _ _ _ _ Hinv)
                    (inv_dom _ _ _ _ Hinv)) as Hb.
      rewrite length_app in Hb. simpl in *. lia.
  - destruct queue as [|node queue]; simpl.
    + eauto.
    + apply IH.
      * by apply inv_step.
      * rewrite length_app. simpl. lia.
Qed.
End drain_run.

Lemma inv_init c e entries :
  edges_for c e → enumerates entries (indegree e) →
  inv c (seed entries) (indegree e) [].
Proof.
  intros [Hi Hn Hgd Hgc] He.
  assert (Hseed : ∀ a, a ∈ seed entries ↔ indegree e !! a = Some 0).
  { intros a. unfold seed. rewrite list_elem_of_fmap. split.
    - intros ([a' v] & -> & [Hv Hin]%list_elem_of_filter). simpl in *.
      subst v. by apply (enumerates_elem _ _ _ _ He).
    - intros Ha. exists (a, 0). split; [done|].
      apply list_elem_of_filter. split; [done|].
      by apply (enumerates_elem _ _ _ _ He). }
  split; simpl.
  - unfold seed. apply NoDup_fmap_fst.
    + intros a v1 v2 [_ H1]%list_elem_of_filter [_ H2]%list_elem_of_filter.
      apply (enumerates_elem _ _ _ _ He) in H1, H2. congruence.
    + apply NoDup_filter. eapply NoDup_fmap_1, enumerates_NoDup, He.
  - intros a Ha%Hseed. destruct (c !! a) eqn:Hc; [eauto|].
    rewrite (Hn _ Hc) in Ha. done.
  - intros a f Hf. unfold indegree_at. rewrite (Hi _ _ Hf). simpl.
    by rewrite pending_nil.
  - intros a f Hf. rewrite Hseed, (Hi _ _ Hf), pending_nil. split.
    + intros [= ?]. lia.
    + intros ->. done.
  - intros i a f d Hi'. done.
Qed.

Lemma inv_drained c indeg order : inv c [] indeg order → drained c order.
Proof.
  intros [Hnd Hdom _ Hready Htopo]. rewrite app_nil_r in Hnd.
  split.
  - done.
  - intros a Ha. apply Hdom. by rewrite app_nil_r.
  - intros a f Hf. rewrite <-pending_zero, <-(Hready _ _ Hf).
    by rewrite app_nil_r.
  - intros i j a f d Hi Hf Hd Hj.
    destruct (Htopo _ _ _ _ Hi Hf Hd) as (j' & Hlt & Hj').
    by rewrite (NoDup_lookup _ _ _ _ Hnd Hj Hj').
Qed.

Lemma kahn_order_run rc ri c e :
  (∀ m, enumerates (ri m) m) →
  build_edges c rc = Ok e → edges_for c e →
  ∃ order, kahn_order rc ri c = Ok order ∧ drained c order.
Proof.
  intros Hri He Hef. unfold kahn_order. rewrite He. simpl.
  assert (Hsize : size (indegree e) = size c).
  { rewrite <-!size_dom. f_equal. apply set_eq. intros a.
    rewrite !elem_of_dom. destruct (c !! a) as [f|] eqn:Hc.
    - rewrite (ef_indegree _ _ Hef _ _ Hc). split; eauto.
    - rewrite (ef_indegree_none _ _ Hef _ Hc). split; by intros [??]. }
  destruct (drain_inv c (graph e) (ef_graph_dom _ _ Hef)
              (ef_graph_count _ _ Hef)
              (length (seed (ri (indegree e))) + size (indegree e))
              (seed (ri (indegree e))) (indegree e) [])
    as (o & indeg' & -> & Hinv).
  - apply inv_init; auto.
  - simpl. lia.
  - exists o. split; [done|]. by eapply inv_drained.
Qed.

(** ** Cycles in a finite graph *)

(** In a non-empty finite set of nodes that each have a successor inside
    the set, some node reaches itself. *)
Lemma no_sink_cycle (n : nat) :
  ∀ (R : relation string) (U : gset string),
    size U = n → U ≠ ∅ →
    (∀ x, x ∈ U → ∃ y, y ∈ U ∧ R x y) →
    ∃ a, tc R a a.
Proof.
  induction n as [|n IH]; intros R U Hsize Hne Hsucc.
  - apply size_empty_inv in Hsize. apply leibniz_equiv in Hsize. done.
  - destruct (set_choose_L U Hne) as [x Hx].
    destruct (Hsucc x Hx) as (y & Hy & Hxy).
    destruct (decide (y = x)) as [->|Hyx]; [exists x; by apply tc_once|].
    set (R' := λ a b, R a b ∨ (R a x ∧ R x b)).
    destruct (IH R' (U ∖ {[x]})) as [a Ha].
    + assert (size U = size ({[x]} : gset string) + size (U ∖ {[x]}))%nat
        as Hs.
      { rewrite <-size_union by set_solver. f_equal. apply set_eq.
        intros z. rewrite elem_of_union, elem_of_difference,
          elem_of_singleton. destruct (decide (z = x)); naive_solver. }
      rewrite size_singleton in Hs. lia.
    + set_solver.
    + intros z [Hz Hzx]%elem_of_difference.
      destruct (Hsucc z Hz) as (w & Hw & Hzw).
      destruct (decide (w = x)) as [->|Hwx].
      * exists y. split; [set_solver|]. right. done.
      * exists w. split; [set_solver|]. left. done.
    + exists a. revert Ha. generalize a at 2 4. intros b Ha.
      clear IH. induction Ha as [a b [?|[??]]|a b z [?|[??]] _ IH].
      * by apply tc_once.
      * eapply tc_l; [done|]. by apply tc_once.
      * by eapply tc_l.
      * eapply tc_l; [done|]. by eapply tc_l.
Qed.

Lemma before_split l x y :
  before l x y ↔ ∃ l1 l2 l3, l = l1 ++ x :: l2 ++ y :: l3.
Proof.
  split.
  - intros (i & j & Hi & Hj & Hlt).
    pose proof (take_drop_middle _ _ _ Hj) as Hl.
    assert (take j l !! i = Some x) as Hi'.
    { rewrite lookup_take_Some. done. }
    pose proof (take_drop_middle _ _ _ Hi') as Hl'.
    eexists _, _, _. rewrite <-Hl at 1. rewrite <-Hl' at 1.
    rewrite <-app_assoc. simpl. done.
  - intros (l1 & l2 & l3 & ->).
    exists (length l1), (length l1 + S (length l2))%nat. split_and!.
    + by rewrite list_lookup_middle.
    + rewrite lookup_app_r by lia.
      replace (length l1 + S (length l2) - length l1)%nat
        with (S (length l2)) by lia.
      simpl. by rewrite list_lookup_middle.
    + lia.
Qed.

Lemma topological_before c order a f d :
  topological c order → c !! a = Some f → d ∈ depnames f →
  a ∈ order → d ∈ order → before order d a.
Proof.
  intros Ht Hf Hd [i Hi]%list_elem_of_lookup [j Hj]%list_elem_of_lookup.
  exists j, i. split_and!; [done..|]. by eapply Ht.
Qed.

(** An order of all aliases that is topological rules out cycles. *)
Lemma topological_acyclic c order :
  resolved c → NoDup order → (∀ a, is_Some (c !! a) → a ∈ order) →
  topological c order → acyclic c.
Proof.
  intros Hres Hnd Hall Ht.
  assert (Hedge : ∀ a b, dep_edge c a b → before order b a).
  { intros a b (f & Hf & Hb). eapply topological_before; eauto.
    apply Hall. specialize (Hres a f Hf). simpl in Hres.
    rewrite Forall_forall in Hres. by apply Hres. }
  assert (Htrans : ∀ x y z, before order x y → before order y z →
                            before order x z).
  { intros x y z (i & j & Hi & Hj & Hij) (j' & k & Hj' & Hk & Hjk).
    rewrite (NoDup_lookup _ _ _ _ Hnd Hj' Hj) in Hjk.
    exists i, k. split_and!; [done..|lia]. }
  assert (Htc : ∀ a b, tc (dep_edge c) a b → before order b a).
  { intros a b H. induction H as [a b H|a b z H _ IH]; [by apply Hedge|].
    eapply Htrans; [done|]. by apply Hedge. }
  intros a (i & j & Hi & Hj & Hij)%Htc.
  rewrite (NoDup_lookup _ _ _ _ Hnd Hi Hj) in Hij. lia.
Qed.

(** Without cycles, the loop has emitted every alias. *)
Lemma drained_complete c order :
  resolved c → acyclic c → drained c order →
  ∀ a, is_Some (c !! a) → a ∈ order.
Proof.
  intros Hres Hac Hdr a Ha.
  destruct (decide (a ∈ order)) as [|Hnot]; [done|]. exfalso.
  set (U := filter (λ x, x ∉ order) (dom c)).
  destruct (no_sink_cycle (size U) (dep_edge c) U eq_refl) as [b Hb].
  - assert (a ∈ U); [|set_solver].
    apply elem_of_filter. split; [done|]. by apply elem_of_dom.
  - intros x [Hx [f Hf]%elem_of_dom]%elem_of_filter.
    assert (¬ Forall (λ d, d ∈ order) (depnames f)) as Hnf.
    { intros Hall. apply Hx. by apply (dr_ready _ _ Hdr _ _ Hf). }
    apply not_Forall_Exists in Hnf; [|apply _].
    apply Exists_exists in Hnf as (d & Hd & Hdo). simpl in Hdo.
    exists d. split.
    + apply elem_of_filter. split; [done|]. apply elem_of_dom.
      specialize (Hres x f Hf). simpl in Hres.
      rewrite Forall_forall in Hres. by apply Hres.
    + by exists f.
  - by apply (Hac b).
Qed.

(** ** The final split on the [Final] flag *)

Lemma split_step_ok c n fs a :
  is_Some (c !! a) →
  split_step c (n, fs) a
  = Ok (n ++ filter (λ a, ¬ is_final c a) [a], fs ++ filter (is_final c) [a]).
Proof.
  intros [f Hf]. unfold split_step. rewrite Hf, !filter_cons.
  unfold is_final. rewrite Hf. simpl.
  destruct (Final f); simpl; by rewrite filter_nil, app_nil_r.
Qed.

Lemma split_fold c l n fs :
  (∀ a, a ∈ l → is_Some (c !! a)) →
  foldM (split_step c) l (n, fs)
  = Ok (n ++ filter (λ a, ¬ is_final c a) l, fs ++ filter (is_final c) l).
Proof.
  revert n fs. induction l as [|a l IH]; intros n fs Hdom; simpl.
  - by rewrite !app_nil_r.
  - rewrite split_step_ok by (apply Hdom; by left). simpl.
    rewrite IH by (intros; apply Hdom; by right).
    rewrite <-!app_assoc, <-!filter_app. done.
Qed.

Lemma split_fold_dom c l s st :
  foldM (split_step c) l s = Ok st → ∀ a, a ∈ l → is_Some (c !! a).
Proof.
  revert s. induction l as [|x l IH]; intros s; simpl.
  - by intros _ a ?%elem_of_nil.
  - destruct (split_step c s x) as [s1| | |] eqn:Hs; try done. simpl.
    intros H a [->|Ha]%elem_of_cons; [|by eapply IH].
    unfold split_step in Hs. destruct (c !! x); [eauto|done].
Qed.

Lemma split_finals_ok c order :
  (∀ a, a ∈ order → is_Some (c !! a)) →
  split_finals c order
  = Ok (filter (λ a, ¬ is_final c a) order ++ filter (is_final c) order).
Proof.
  intros Hdom. unfold split_finals. by rewrite split_fold.
Qed.

Lemma split_Permutation c order :
  filter (λ a, ¬ is_final c a) order ++ filter (is_final c) order ≡ₚ order.
Proof.
  rewrite Permutation_app_comm. apply filter_app_complement.
Qed.

Lemma filter_before (P : string → Prop) `{!∀ x, Decision (P x)} l x y :
  before l x y → P x → P y → before (filter P l) x y.
Proof.
  rewrite !before_split. intros (l1 & l2 & l3 & ->) Hx Hy.
  exists (filter P l1), (filter P l2), (filter P l3).
  rewrite filter_app, filter_cons, decide_True by done.
  rewrite filter_app, filter_cons, decide_True by done. done.
Qed.

(** Moving the Final aliases to the end keeps the order topological, as no
    dependency is Final. *)
Lemma split_topological c order :
  usable c → NoDup order → (∀ a, is_Some (c !! a) → a ∈ order) →
  (∀ a, a ∈ order → is_Some (c !! a)) →
  topological c order →
  topological c
    (filter (λ a, ¬ is_final c a) order ++ filter (is_final c) order).
Proof.
  intros Hus Hnd Hall Hdom Ht.
  pose proof (split_Permutation c order) as Hperm. revert Hperm.
  set (N := filter (λ a, ¬ is_final c a) order).
  set (Fs := filter (is_final c) order). intros Hperm.
  assert (Hnd' : NoDup (N ++ Fs)) by by rewrite Hperm.
  intros i j a f d Hi Hf Hd Hj.
  assert (Ha : a ∈ order) by (apply Hall; eauto).
  assert (Hdo : d ∈ order).
  { rewrite <-Hperm. by eapply list_elem_of_lookup_2. }
  assert (Hdn : ¬ is_final c d).
  { destruct (Hdom d Hdo) as [fd Hfd]. specialize (Hus a f Hf). simpl in Hus.
    rewrite Forall_forall in Hus. specialize (Hus d Hd).
    rewrite Hfd in Hus. destruct Hus as [Hfin _].
    unfold is_final. rewrite Hfd. simpl. rewrite Hfin. simpl. auto. }
  assert (HdN : d ∈ N) by by apply list_elem_of_filter.
  assert (before (N ++ Fs) d a) as (j' & i' & Hj' & Hi' & Hlt).
  { destruct (decide (is_final c a)) as [Hfa|Hna].
    - assert (a ∈ Fs) as [k Hk]%list_elem_of_lookup
        by by apply list_elem_of_filter.
      apply list_elem_of_lookup in HdN as [k' Hk'].
      exists k', (length N + k)%nat. split_and!.
      + by apply lookup_app_l_Some.
      + rewrite lookup_app_r by lia. rewrite <-Hk. f_equal. lia.
      + apply lookup_lt_Some in Hk'. lia.
    - assert (before N d a) as (j' & i' & Hj' & Hi' & Hlt).
      { apply filter_before; [|done..].
        by eapply topological_before. }
      exists j', i'. split_and!; [by apply lookup_app_l_Some..|done]. }
  rewrite (NoDup_lookup _ _ _ _ Hnd' Hi Hi').
  by rewrite (NoDup_lookup _ _ _ _ Hnd' Hj Hj').
Qed.

(** ** Results on [BuildOrder] *)

(** A run of [BuildOrder] up to the length check. *)
Lemma BuildOrder_run rc ri c :
  enumerates rc c → (∀ m, enumerates (ri m) m) →
  resolved c → usable c →
  ∃ order, kahn_order rc ri c = Ok order ∧ drained c order.
Proof.
  intros Hrc Hri Hres Hus.
  destruct (build_edges_run c rc Hrc Hres Hus) as [e He].
  destruct (build_edges_ok c rc e Hrc He) as (_ & _ & Hef).
  by eapply kahn_order_run.
Qed.

Lemma BuildOrder_Ok_inv rc ri c res :
  enumerates rc c → (∀ m, enumerates (ri m) m) →
  BuildOrder rc ri c = Ok res →
  resolved c ∧ usable c ∧
  ∃ order, kahn_order rc ri c = Ok order ∧ drained c order ∧
           length order = size c ∧
           res = filter (λ a, ¬ is_final c a) order
                 ++ filter (is_final c) order.
Proof.
  intros Hrc Hri H. unfold BuildOrder in H.
  destruct (build_edges c rc) as [e| | |] eqn:He;
    [|unfold kahn_order in H; rewrite He in H; done..].
  destruct (build_edges_ok c rc e Hrc He) as (Hres & Hus & Hef).
  destruct (kahn_order_run rc ri c e Hri He Hef) as (order & Hk & Hdr).
  rewrite Hk in H. simpl in H. case_decide as Hlen; [done|].
  rewrite split_finals_ok in H by apply Hdr. injection H as <-.
  split_and!; [done..|]. exists order. split_and!; [done..| |done].
  destruct (decide (length order = size c)); done.
Qed.

(** A rank that decreases along every dependency rules out cycles. *)
Lemma acyclic_ranked (rank : string → nat) c :
  map_Forall (λ a f, Forall (λ d, (rank d < rank a)%nat) (depnames f)) c →
  acyclic c.
Proof.
  intros Hr.
  assert (∀ a b, tc (dep_edge c) a b → (rank b < rank a)%nat) as Htc.
  { intros a b H. induction H as [a b (f & Hf & Hb)|a b z (f & Hf & Hb) _ IH].
    - specialize (Hr a f Hf). simpl in Hr. rewrite Forall_forall in Hr. auto.
    - specialize (Hr a f Hf). simpl in Hr. rewrite Forall_forall in Hr.
      specialize (Hr b Hb). lia. }
  intros a Ha%Htc. lia.
Qed.

(** On an acyclic graph of resolved, unflagged dependencies the loop emits
    every alias, and BuildOrder returns the split of its order. *)
Lemma BuildOrder_acyclic_run rc ri c :
  enumerates rc c → (∀ m, enumerates (ri m) m) →
  resolved c → acyclic c → usable c →
  ∃ o, kahn_order rc ri c = Ok o ∧ drained c o ∧
       (∀ a, is_Some (c !! a) → a ∈ o) ∧
       BuildOrder rc ri c
       = Ok (filter (λ a, ¬ is_final c a) o ++ filter (is_final c) o).
Proof.
  intros Hrc Hri Hres Hac Hus.
  destruct (BuildOrder_run rc ri c Hrc Hri Hres Hus) as (o & Hk & Hdr).
  pose proof (drained_complete c o Hres Hac Hdr) as Hall.
  assert (length o = size c) as Hlen.
  { apply keys_all; [apply Hdr..|done]. }
  exists o. split_and!; [done..|].
  unfold BuildOrder. rewrite Hk. simpl.
  rewrite decide_False by (intros H; by apply H).
  apply split_finals_ok, Hdr.
Qed.

(** The split of a complete order of the loop lists every alias once,
    dependencies first. *)
Lemma split_ordered c o :
  usable c → drained c o → (∀ a, is_Some (c !! a) → a ∈ o) →
  lists_each_alias_once c
    (filter (λ a, ¬ is_final c a) o ++ filter (is_final c) o) ∧
  topological c (filter (λ a, ¬ is_final c a) o ++ filter (is_final c) o).
Proof.
  intros Hus Hdr Hall. split; [split|].
  - rewrite split_Permutation. apply Hdr.
  - intros a. rewrite split_Permutation. split; [apply Hdr|apply Hall].
  - apply split_topological; try done; apply Hdr.
Qed.

Lemma BuildOrder_sound rc ri c :
  enumerates rc c → (∀ m, enumerates (ri m) m) →
  resolved c → acyclic c → usable c →
  ∃ order, BuildOrder rc ri c = Ok order ∧
           lists_each_alias_once c order ∧ topological c order.
Proof.
  intros Hrc Hri Hres Hac Hus.
  destruct (BuildOrder_acyclic_run rc ri c) as (o & _ & Hdr & Hall & Hbo);
    try done.
  eexists. split; [done|]. by apply split_ordered.
Qed.

(** A successful run certifies its input. *)
Lemma BuildOrder_Ok_acyclic rc ri c res :
  enumerates rc c → (∀ m, enumerates (ri m) m) →
  BuildOrder rc ri c = Ok res →
  resolved c ∧ usable c ∧ acyclic c.
Proof.
  intros Hrc Hri H.
  destruct (BuildOrder_Ok_inv _ _ _ _ Hrc Hri H)
    as (Hres & Hus & o & _ & Hdr & Hlen & _).
  split_and!; [done..|].
  apply (topological_acyclic c o); [done|apply Hdr| |apply Hdr].
  apply keys_all; [apply Hdr..|done].
Qed.

(** C1 (amended).  For every container whose dependency graph is acyclic,
    whose every dependency name keys a factory and in which no dependency
    names a factory flagged Final or Disable, and for every enumeration order
    of the two map ranges, BuildOrder returns an order that contains each
    alias exactly once and in which every dependency of a factory stands at
    an earlier position than the factory itself. *)
Theorem BuildOrder_topological rc ri c :
  enumerates rc c → (∀ m, enumerates (ri m) m) →
  resolved c → acyclic c → usable c →
  ∃ order, BuildOrder rc ri c = Ok order ∧
           lists_each_alias_once c order ∧ topological c order.
Proof.
  intros Hrc Hri Hres Hac Hus.
  destruct (BuildOrder_acyclic_run rc ri c Hrc Hri Hres Hac Hus)
    as (o & Hk & Hdr & Hall & Hbo).
  exists (filter (λ a, ¬ is_final c a) o ++ filter (is_final c) o).
  split; [exact Hbo|].
  destruct (split_ordered c o Hus Hdr Hall) as [Honce Htopo].
  split; [exact Honce|exact Htopo].
Qed.

(** C2.  An order returned by BuildOrder is the order left by the
    queue-draining loop, stably split: first its aliases that are not Final,
    then, as a contiguous suffix, its Final aliases, each group in the
    relative order of the loop. *)
Theorem BuildOrder_finals_last rc ri c res :
  BuildOrder rc ri c = Ok res →
  ∃ order normal finals,
    kahn_order rc ri c = Ok order ∧
    res = normal ++ finals ∧
    normal = filter (λ a, ¬ is_final c a) order ∧
    finals = filter (is_final c) order ∧
    Forall (λ a, ¬ is_final c a) normal ∧
    Forall (λ a, is_final c a) finals.
Proof.
  unfold BuildOrder. destruct (kahn_order rc ri c) as [order| | |]; try done.
  simpl. case_decide; [done|]. unfold split_finals.
  destruct (foldM (split_step c) order ([], [])) as [st| | |] eqn:Hf;
    try done.
  simpl. intros [= <-].
  assert (∀ a, a ∈ order → is_Some (c !! a)) as Hdom.
  { by eapply split_fold_dom. }
  rewrite split_fold in Hf by done. injection Hf as <-. simpl.
  eexists order, _, _. split_and!; try done.
  - apply Forall_forall. by intros a [??]%list_elem_of_filter.
  - apply Forall_forall. by intros a [??]%list_elem_of_filter.
Qed.

(** C3 (amended).  For every container whose dependency graph contains a
    cycle, whose every dependency name keys a factory and in which no
    dependency names a factory flagged Final or Disable, BuildOrder returns
    the error "circular dependency detected" and no order. *)
Theorem BuildOrder_cycle_detected rc ri c :
  enumerates rc c → (∀ m, enumerates (ri m) m) →
  resolved c → usable c → cyclic c →
  BuildOrder rc ri c = Err "circular dependency detected".
Proof.
  intros Hrc Hri Hres Hus [a Ha].
  destruct (BuildOrder_run rc ri c Hrc Hri Hres Hus) as (o & Hk & Hdr).
  unfold BuildOrder. rewrite Hk. simpl. case_decide as Hlen; [done|].
  exfalso.
  apply (topological_acyclic c o Hres) in Ha; try apply Hdr; [done|].
  apply keys_all; [apply Hdr..|done].
Qed.

(** C4 (amended).  For every container whose every dependency name keys a
    factory and in which some factory lists a dependency whose factory is
    flagged Final or Disable, BuildOrder returns an error that names such a
    dependency and its dependent, and no order: the "final item" error for a
    dependency flagged Final, the "disable item" error for one flagged
    Disable only. *)
Theorem BuildOrder_flagged_dependency rc ri c a f d fd :
  enumerates rc c → resolved c →
  c !! a = Some f → d ∈ depnames f → c !! d = Some fd →
  Final fd = true ∨ Disable fd = true →
  ∃ a' f' d' fd',
    c !! a' = Some f' ∧ d' ∈ depnames f' ∧ c !! d' = Some fd' ∧
    ((Final fd' = true ∧
      BuildOrder rc ri c = Err (final_dependency_error d' a')) ∨
     (Final fd' = false ∧ Disable fd' = true ∧
      BuildOrder rc ri c = Err (disable_dependency_error d' a'))).
Proof.
  intros Hrc Hres Hf Hd Hfd Hflag.
  assert (∀ r, build_edges c rc = r → (∀ e, r ≠ Ok e) →
            BuildOrder rc ri c = (e ← r; @Err (list string) "")) as Hbo.
  { intros r <- Hr. unfold BuildOrder, kahn_order.
    destruct (build_edges c rc); simpl; try done. by destruct (Hr a0). }
  destruct (foldM_inv _ _ _ _ (eq_refl (build_edges c rc)))
    as [[e He]|(l1 & [x fx] & l2 & s1 & Hl & _ & Hv & Hne)].
  { exfalso.
    destruct (build_edges_ok c rc e Hrc He) as (_ & Hus & _).
    specialize (Hus a f Hf). simpl in Hus. rewrite Forall_forall in Hus.
    specialize (Hus d Hd). rewrite Hfd in Hus. destruct Hus as [??].
    destruct Hflag; congruence. }
  assert (c !! x = Some fx) as Hx.
  { apply (enumerates_elem _ _ _ _ Hrc). rewrite Hl. set_solver. }
  unfold visit in Hv. simpl in Hv.
  destruct (foldM_inv _ _ _ _ Hv)
    as [[e He]|(d1 & dep & d2 & s2 & Hdeps & _ & Ha & _)];
    [by destruct (Hne e)|].
  assert (Name dep ∈ depnames fx) as Hdep.
  { unfold depnames. rewrite Hdeps. set_solver. }
  pose proof (Hres x fx Hx) as Hr. simpl in Hr. rewrite Forall_forall in Hr.
  destruct (Hr _ Hdep) as [fd' Hfd'].
  exists x, fx, (Name dep), fd'. split_and!; [done..|].
  rewrite (Hbo _ eq_refl Hne), <-Ha. unfold add_edge. rewrite Hfd'.
  rewrite <-Ha in Hne. unfold add_edge in Hne. rewrite Hfd' in Hne.
  destruct (Final fd'); [by left|]. destruct (Disable fd'); [by right|].
  by edestruct Hne.
Qed.

(** C7 (amended).  Under any two enumeration orders of the map ranges,
    BuildOrder succeeds on the same containers, and the two orders returned
    are permutations of one another, each with every dependency before its
    dependent. *)
Theorem BuildOrder_enumeration_independent rc ri rc' ri' c order :
  enumerates rc c → (∀ m, enumerates (ri m) m) →
  enumerates rc' c → (∀ m, enumerates (ri' m) m) →
  BuildOrder rc ri c = Ok order →
  ∃ order', BuildOrder rc' ri' c = Ok order' ∧ order' ≡ₚ order ∧
            topological c order ∧ topological c order'.
Proof.
  intros Hrc Hri Hrc' Hri' H.
  destruct (BuildOrder_Ok_acyclic _ _ _ _ Hrc Hri H) as (Hres & Hus & Hac).
  destruct (BuildOrder_sound rc ri c) as (o & Ho & [Hnd Hin] & Ht); try done.
  destruct (BuildOrder_sound rc' ri' c) as (o' & Ho' & [Hnd' Hin'] & Ht');
    try done.
  rewrite H in Ho. injection Ho as <-.
  exists o'. split_and!; try done.
  apply NoDup_Permutation; try done. intros x. by rewrite Hin, Hin'.
Qed.

(** ** Results on the emitter *)

Lemma ResolveImport_Container ctx m :
  Emitter.Container (Emitter.ResolveImport ctx m).2 = Emitter.Container ctx.
Proof.
  unfold Emitter.ResolveImport. by destruct (Emitter.ImportID ctx !! m).
Qed.

Section rendering.
Variable c c' : gmap string Factory.
Variable order : list string.
Hypothesis Hsame : ∀ a f', c' !! a = Some f' →
  ∃ f, c !! a = Some f ∧ Alias f' = Alias f ∧ Function f' = Function f ∧
       Deps f' = Deps f.
Hypothesis Hkeys : ∀ a, a ∈ order → is_Some (c' !! a).
Hypothesis Hearlier : ∀ (i : nat) a f' d,
  order !! i = Some a → c' !! a = Some f' → d ∈ Deps f' →
  ∃ j : nat, (j < i)%nat ∧ order !! j = Some (Name d).

(** A dependency at position [j] is expanded with any fuel above [j]. *)
Lemma generateDepExpr_ok fuel :
  ∀ ctx dep (j : nat),
    order !! j = Some (Name dep) → (j < fuel)%nat →
    ∃ e ctx',
      Emitter.generateDepExpr fuel ctx dep {| Container := c' |}
        = Ok (e, ctx') ∧
      Emitter.Container ctx' = Emitter.Container ctx ∧
      ∀ p, (j < p)%nat → ctx_ok c order p ctx → renders c order p dep e.
Proof.
  induction fuel as [|fuel IH]; intros ctx dep j Hj Hfuel; [lia|].
  destruct (Hkeys (Name dep)) as [f' Hf']; [by eapply list_elem_of_lookup_2|].
  destruct (Hsame _ _ Hf') as (f & Hf & HA & HF & HD).
  simpl. destruct (Standalone dep) eqn:Hst.
  - rewrite Hf'.
    set (r := Emitter.ResolveImport ctx (Module f')).
    assert (∀ l acc ctx1,
      (∀ d, d ∈ l → d ∈ Deps f') →
      ∃ es ctx2,
        foldM (λ (st : list ast.Expr * Emitter.GenContext) sub,
                 r' ← Emitter.generateDepExpr fuel st.2 sub
                        {| Container := c' |};
                 Ok (st.1 ++ [r'.1], r'.2)) l (acc, ctx1)
          = Ok (acc ++ es, ctx2) ∧
        Emitter.Container ctx2 = Emitter.Container ctx1 ∧
        ∀ p, (j < p)%nat → ctx_ok c order p ctx1 →
             Forall2 (renders c order p) l es) as Hfold.
    { induction l as [|d l IHl]; intros acc ctx1 Hl; simpl.
      - exists [], ctx1. rewrite app_nil_r. split_and!; [done..|].
        intros. constructor.
      - destruct (Hearlier j (Name dep) f' d Hj Hf') as (j' & Hlt & Hj');
          [apply Hl; by left|].
        destruct (IH ctx1 d j' Hj') as (e & ctx1' & -> & Hc1 & Hr1); [lia|].
        simpl.
        destruct (IHl (acc ++ [e]) ctx1') as (es & ctx2 & -> & Hc2 & Hr2).
        { intros d' Hd'. apply Hl. by right. }
        exists (e :: es), ctx2. rewrite <-app_assoc. split_and!; [done|congruence|].
        intros p Hp Hok. constructor.
        + apply Hr1; [lia|done].
        + apply Hr2; [done|]. unfold ctx_ok. rewrite Hc1. apply Hok. }
    destruct (Hfold (Deps f') [] r.2) as (es & ctx2 & -> & Hc2 & Hr2); [done|].
    simpl. eexists _, _. split_and!; [done|..].
    + rewrite Hc2. apply ResolveImport_Container.
    + intros p Hp Hok. rewrite HF. eapply renders_inline; [done..|].
      rewrite <-HD. apply Hr2; [done|].
      unfold ctx_ok, r. rewrite ResolveImport_Container. apply Hok.
  - eexists _, _. split_and!; [done..|].
    intros p Hp Hok. rewrite (Hok j _ f Hp Hj Hf). simpl.
    by eapply renders_shared.
Qed.

Context `{Library}.

Lemma emit_loop l :
  ∀ done st,
    order = done ++ l →
    NoDup order →
    ctx_ok c order (length done) (Emitter.ctx st) →
    ∃ st' new,
      foldM (Emitter.emit_item (length order) {| Container := c' |}) l st
        = Ok st' ∧
      Emitter.stmts st' = Emitter.stmts st ++ new ∧
      length (Emitter.depIdents st')
        = (length (Emitter.depIdents st) + length l)%nat ∧
      Forall2 (λ item s, ∃ (i : nat) f, order !! i = Some item ∧
                  c !! item = Some f ∧ declares c order i f s) l new.
Proof.
  induction l as [|item l IH]; intros done st Horder Hnd Hok; simpl.
  - exists st, []. rewrite app_nil_r. split_and!; [done|done|lia|constructor].
  - assert (Hitem : order !! length done = Some item).
    { rewrite Horder. by apply list_lookup_middle. }
    destruct (Hkeys item) as [f' Hf']; [by eapply list_elem_of_lookup_2|].
    destruct (Hsame _ _ Hf') as (f & Hf & HA & HF & HD).
    set (ctx1 := {| Emitter.ImportID := Emitter.ImportID (Emitter.ctx st);
                    Emitter.Container :=
                      <[item := Alias f']> (Emitter.Container (Emitter.ctx st));
                    Emitter.Counter := Emitter.Counter (Emitter.ctx st) |}).
    assert (Hok1 : ctx_ok c order (S (length done)) ctx1).
    { intros k a fa Hk Hka Hfa. simpl.
      destruct (decide (a = item)) as [->|Hne].
      - rewrite lookup_insert_eq. congruence.
      - rewrite lookup_insert_ne by done.
        apply (Hok k); [|done..].
        destruct (decide (k = length done)) as [->|]; [congruence|lia]. }
    assert (∀ ds acc ctx2,
      (∀ d, d ∈ ds → d ∈ Deps f') →
      Emitter.Container ctx2 = Emitter.Container ctx1 →
      ∃ es ctx3,
        foldM (λ (a : list ast.Expr * Emitter.GenContext) dep,
                 r ← Emitter.generateDepExpr (length order) a.2 dep
                       {| Container := c' |};
                 Ok (a.1 ++ [r.1], r.2)) ds (acc, ctx2)
          = Ok (acc ++ es, ctx3) ∧
        Emitter.Container ctx3 = Emitter.Container ctx1 ∧
        Forall2 (renders c order (length done)) ds es) as Hfold.
    { induction ds as [|d ds IHds]; intros acc ctx2 Hds Hc2; simpl.
      - exists [], ctx2. rewrite app_nil_r. split_and!; [done..|constructor].
      - destruct (Hearlier _ _ f' d Hitem Hf') as (j & Hlt & Hj);
          [apply Hds; by left|].
        destruct (generateDepExpr_ok (length order) ctx2 d j Hj)
          as (e & ctx2' & -> & Hc2' & Hr).
        { apply lookup_lt_Some in Hitem. lia. }
        simpl. destruct (IHds (acc ++ [e]) ctx2') as (es & ctx3 & -> & ? & ?).
        { intros d' Hd'. apply Hds. by right. }
        { congruence. }
        exists (e :: es), ctx3. rewrite <-app_assoc.
        split_and!; [done..|]. constructor; [|done].
        apply Hr; [done|]. intros k a fa Hk. unfold ctx_ok in Hok1.
        rewrite Hc2. apply Hok1. lia. }
    destruct (Hfold (Deps f') [] ctx1) as (es & ctx3 & Hfd & Hc3 & Hr);
      [done..|].
    set (r := Emitter.ResolveImport ctx3 (Module f')).
    set (st1 := {|
      Emitter.ctx := r.2;
      Emitter.stmts := Emitter.stmts st ++
        [ast.DeclStmt (String "010"%char ("//line " +:+ di.File f' +:+ " "
                                            +:+ Pos f'))
           (Alias f') (ast.CallExpr r.1 (Function f') es)];
      Emitter.depIdents := Emitter.depIdents st ++ [ast.Ident (Alias f')] |}).
    assert (Emitter.emit_item (length order) {| Container := c' |} st item
            = Ok st1) as ->.
    { unfold Emitter.emit_item. simpl. rewrite Hf'. fold ctx1.
      rewrite Hfd. done. }
    simpl.
    destruct (IH (done ++ [item]) st1) as (st' & new & -> & Hs & Hd & Hn).
    + by rewrite <-app_assoc.
    + done.
    + rewrite length_app. simpl. rewrite Nat.add_1_r.
      unfold ctx_ok, st1, r. simpl. rewrite ResolveImport_Container, Hc3.
      apply Hok1.
    + eexists st', (_ :: new). split_and!; [done|..].
      * rewrite Hs. unfold st1. simpl. by rewrite <-app_assoc.
      * rewrite Hd. unfold st1. simpl. rewrite length_app. simpl. lia.
      * constructor; [|done].
        exists (length done), f. split_and!; [done..|].
        eexists _, _, es. rewrite HA, HF, <-HD. done.
Qed.
End rendering.

Lemma normalize_same `{Library} root moduleName config a f' :
  Container (Emitter.normalize root moduleName config) !! a = Some f' →
  ∃ f, Container config !! a = Some f ∧ Alias f' = Alias f ∧
       Function f' = Function f ∧ Deps f' = Deps f.
Proof.
  unfold Emitter.normalize. simpl. rewrite lookup_fmap.
  destruct (Container config !! a) as [f|]; [|done].
  simpl. intros [= <-]. eauto.
Qed.

Lemma ordered_earlier c order :
  resolved c → lists_each_alias_once c order → topological c order →
  ∀ (i : nat) a f d,
    order !! i = Some a → c !! a = Some f → d ∈ Deps f →
    ∃ j : nat, (j < i)%nat ∧ order !! j = Some (Name d).
Proof.
  intros Hres [Hnd Hin] Ht i a f d Hi Hf Hd.
  assert (Name d ∈ depnames f) as Hd' by (by apply list_elem_of_fmap_2).
  specialize (Hres a f Hf). simpl in Hres. rewrite Forall_forall in Hres.
  pose proof Hd' as Hj. apply Hres, Hin, list_elem_of_lookup in Hj as [j Hj].
  exists j. split; [|done]. by eapply Ht.
Qed.

(** C6.  In the file emitted by GenerateCode the function Root declares
    one local per alias, in the order of BuildOrder, whatever the standalone
    flags: the declaration for an alias is named by the alias's identifier
    and initialised by a call of its factory's constructor, in which a
    dependency that is not standalone is the identifier declared for its
    alias at an earlier position, and a standalone dependency is an inline
    call of its factory's constructor whose arguments are rendered the same
    way. *)
Theorem GenerateCode_standalone_inline `{Library} rc ri rim root moduleName
    config text :
  enumerates rc (Container config) → (∀ m, enumerates (ri m) m) →
  Emitter.GenerateCode rc ri rim root moduleName config = Ok text →
  ∃ file order,
    Emitter.GenerateFile rc ri rim root moduleName config = Ok file ∧
    format_Node file = Ok text ∧
    BuildOrder rc ri (Container config) = Ok order ∧
    length (declarations file) = length order ∧
    ∀ (i : nat) item,
      order !! i = Some item →
      ∃ f s, Container config !! item = Some f ∧
             declarations file !! i = Some s ∧
             declares (Container config) order i f s.
Proof.
  intros Hrc Hri. unfold Emitter.GenerateCode.
  destruct (Emitter.GenerateFile rc ri rim root moduleName config)
    as [file| | |] eqn:Hfile; try done.
  simpl. unfold Emitter.ASTToString. intros Htext.
  exists file. unfold Emitter.GenerateFile in Hfile.
  destruct (BuildOrder rc ri (Container config)) as [order| | |] eqn:Hbo;
    try done.
  exists order. simpl in Hfile.
  destruct (BuildOrder_Ok_acyclic _ _ _ _ Hrc Hri Hbo) as (Hres & Hus & Hac).
  destruct (BuildOrder_sound rc ri _ Hrc Hri Hres Hac Hus)
    as (o & Ho & Honce & Ht).
  rewrite Hbo in Ho. injection Ho as <-.
  destruct (emit_loop (Container config)
              (Container (Emitter.normalize root moduleName config)) order)
    with (l := order) (done := @nil string)
         (st := {| Emitter.ctx := {| Emitter.ImportID := ∅;
                                     Emitter.Container := ∅;
                                     Emitter.Counter := 0 |};
                   Emitter.stmts := []; Emitter.depIdents := [] |})
    as (st' & new & Hloop & Hstmts & Hids & Hnew).
  - intros a f'. apply normalize_same.
  - intros a Ha. apply Honce in Ha as [f Hf].
    unfold Emitter.normalize. simpl. rewrite lookup_fmap, Hf. eauto.
  - intros i a f' d Hi Hf' Hd.
    apply normalize_same in Hf' as (f & Hf & _ & _ & HD). rewrite HD in Hd.
    by eapply ordered_earlier.
  - done.
  - apply Honce.
  - intros k a f Hk. simpl in Hk. lia.
  - destruct (Emitter.normalize root moduleName config) as [c'] eqn:Hn.
    simpl in Hloop. rewrite Hloop in Hfile. simpl in Hfile.
    simpl in Hstmts, Hids.
    assert (declarations file = new) as Hdecl.
    { assert (Forall (λ s, is_decl s) new) as Hall.
      { clear -Hnew. induction Hnew as [|???? (i & f & _ & _ & doc & m & args & -> & _)];
          constructor; done. }
      assert (filter is_decl new = new) as Hfn.
      { clear -Hall. induction Hall; [done|].
        rewrite filter_cons, decide_True by done. by f_equal. }
      injection Hfile as <-. unfold declarations, root_body.
      repeat case_decide; simpl; rewrite ?app_nil_r, Hstmts;
        rewrite ?filter_app, Hfn; simpl; by rewrite ?app_nil_r. }
    split_and!; [done..| |].
    + rewrite Hdecl. symmetry. by eapply Forall2_length.
    + intros i item Hi. rewrite Hdecl.
      destruct (Forall2_lookup_l _ _ _ _ _ Hnew Hi)
        as (s & Hs & i' & f & Hi' & Hf & Hdec).
      destruct Honce as [Hnd _].
      assert (i' = i) as -> by by eapply NoDup_lookup.
      eauto.
Qed.

(** C10.  On a configuration on which BuildOrder succeeds, generateDepExpr
    returns an expression for every dependency of every factory, from any
    context, once the fuel covers the length of the order: a standalone step
    moves to a dependency at a strictly earlier position of the order, so the
    depth of the recursion is bounded by that length. *)
Theorem generateDepExpr_terminates rc ri config order a f dep ctx fuel :
  enumerates rc (Container config) → (∀ m, enumerates (ri m) m) →
  BuildOrder rc ri (Container config) = Ok order →
  Container config !! a = Some f → dep ∈ Deps f →
  (length order ≤ fuel)%nat →
  ∃ e ctx', Emitter.generateDepExpr fuel ctx dep config = Ok (e, ctx').
Proof.
  intros Hrc Hri Hbo Hf Hd Hfuel.
  destruct (BuildOrder_Ok_acyclic _ _ _ _ Hrc Hri Hbo) as (Hres & Hus & Hac).
  destruct (BuildOrder_sound rc ri _ Hrc Hri Hres Hac Hus)
    as (o & Ho & Honce & Ht).
  rewrite Hbo in Ho. injection Ho as <-.
  assert (a ∈ order) as [i Hi]%list_elem_of_lookup by (apply Honce; eauto).
  destruct (ordered_earlier _ _ Hres Honce Ht i a f dep Hi Hf Hd)
    as (j & Hlt & Hj).
  destruct config as [c]. simpl in *.
  destruct (generateDepExpr_ok c c order) with (fuel := fuel) (ctx := ctx)
    (dep := dep) (j := j) as (e & ctx' & He & _).
  - eauto.
  - intros ? Hin. by apply Honce in Hin.
  - intros. by eapply ordered_earlier.
  - done.
  - apply lookup_lt_Some in Hi. lia.
  - eauto.
Qed.

(** ** Results on the graph builder *)

Section graph_builder.
Context `{Library}.
Variable modPath : string.

Lemma add_factory_other container a :
  (∀ f, a ≠ Scan.IsFactory f) → Scan.add_factory modPath container a = Ok container.
Proof. intros Ha. destruct a; try done. by destruct (Ha a). Qed.

Lemma collected_snoc_other pre container a :
  (∀ f, a ≠ Scan.IsFactory f) →
  collected modPath pre container → collected modPath (pre ++ [a]) container.
Proof.
  intros Ha [H1 H2]. split.
  - intros alias fac Hfac. destruct (H1 _ _ Hfac) as (i & f & Hi & ?).
    exists i, f. split; [by apply lookup_app_l_Some|done].
  - intros i f Hi. apply lookup_snoc_Some in Hi as [[_ Hi]|[_ Hi]]; [eauto|].
    by destruct (Ha f).
Qed.

Lemma collected_snoc_factory pre container f :
  container !! FactoryAnnotation.Alias f = None →
  collected modPath pre container →
  collected modPath (pre ++ [Scan.IsFactory f])
    (<[FactoryAnnotation.Alias f :=
         {| Alias := ""; Function := FactoryAnnotation.Function f;
            Deps := []; Module := Scan.modName modPath f;
            Final := false; Disable := false; di.File := ""; Pos := "" |}]>
       container).
Proof.
  intros Hnone [H1 H2]. split.
  - intros alias fac.
    destruct (decide (FactoryAnnotation.Alias f = alias)) as [<-|Hne].
    + rewrite lookup_insert_eq. intros [= <-].
      exists (length pre), f. split; [|done]. by apply list_lookup_middle.
    + rewrite lookup_insert_ne by done. intros Hfac.
      destruct (H1 _ _ Hfac) as (i & f' & Hi & ?).
      exists i, f'. split; [by apply lookup_app_l_Some|done].
  - intros i f' Hi. apply lookup_snoc_Some in Hi as [[_ Hi]|[_ [= <-]]].
    + rewrite lookup_insert_is_Some. destruct (H2 _ _ Hi).
      destruct (decide (FactoryAnnotation.Alias f
                        = FactoryAnnotation.Alias f')); eauto.
    + rewrite lookup_insert_eq. eauto.
Qed.

(** The first loop stops at the first factory annotation whose alias an
    earlier one has entered. *)
Lemma add_factories_duplicate l :
  ∀ pre container,
    collected modPath pre container →
    (∃ (i j : nat) f1 f2,
        (i < j)%nat ∧ (pre ++ l) !! i = Some (Scan.IsFactory f1) ∧
        (pre ++ l) !! j = Some (Scan.IsFactory f2) ∧
        FactoryAnnotation.Alias f1 = FactoryAnnotation.Alias f2 ∧
        (length pre ≤ j)%nat) →
    ∃ (i j : nat) f1 f2,
        (i < j)%nat ∧ (pre ++ l) !! i = Some (Scan.IsFactory f1) ∧
        (pre ++ l) !! j = Some (Scan.IsFactory f2) ∧
        FactoryAnnotation.Alias f1 = FactoryAnnotation.Alias f2 ∧
        foldM (Scan.add_factory modPath) l container
          = Err (duplicate_error modPath f1 f2).
Proof.
  induction l as [|a l IH]; intros pre container Hcol
    (i & j & f1 & f2 & Hij & Hi & Hj & Heq & Hpre).
  - rewrite app_nil_r in Hj. apply lookup_lt_Some in Hj. lia.
  - assert (Hnext : ∀ container',
      collected modPath (pre ++ [a]) container' →
      (j = length pre → False) →
      ∃ (i j : nat) f1 f2,
        (i < j)%nat ∧ (pre ++ a :: l) !! i = Some (Scan.IsFactory f1) ∧
        (pre ++ a :: l) !! j = Some (Scan.IsFactory f2) ∧
        FactoryAnnotation.Alias f1 = FactoryAnnotation.Alias f2 ∧
        foldM (Scan.add_factory modPath) l container'
          = Err (duplicate_error modPath f1 f2)).
    { intros container' Hcol' Hj'. rewrite (cons_middle a pre l), app_assoc.
      apply IH; [done|]. exists i, j, f1, f2.
      rewrite <-app_assoc, <-cons_middle. split_and!; [done..|].
      rewrite length_app. simpl. lia. }
    destruct a as [f| | |]; simpl.
    + destruct (container !! FactoryAnnotation.Alias f) as [fac|] eqn:Hfac.
      * destruct Hcol as [H1 _].
        destruct (H1 _ _ Hfac) as (i0 & f0 & Hi0 & Ha0 & Hm0).
        exists i0, (length pre), f0, f. split_and!.
        -- by apply lookup_lt_Some in Hi0.
        -- by apply lookup_app_l_Some.
        -- by apply list_lookup_middle.
        -- done.
        -- unfold duplicate_error. rewrite Hm0. by case_decide.
      * simpl. apply Hnext; [by apply collected_snoc_factory|].
        intros ->. rewrite list_lookup_middle in Hj by done.
        injection Hj as ->. rewrite lookup_app_l in Hi by done.
        destruct Hcol as [_ H2]. destruct (H2 _ _ Hi) as [? Hsome].
        rewrite Heq in Hsome. congruence.
    + apply Hnext; [by apply collected_snoc_other|].
      intros ->. by rewrite list_lookup_middle in Hj.
    + apply Hnext; [by apply collected_snoc_other|].
      intros ->. by rewrite list_lookup_middle in Hj.
    + apply Hnext; [by apply collected_snoc_other|].
      intros ->. by rewrite list_lookup_middle in Hj.
Qed.

(** C5 (amended).  For every annotation list with two Factory annotations
    of one alias, ScanProjectAndGenerateDI returns an error from the first
    loop of the graph-building phase and GenerateCode is not reached: the
    error is for a pair of Factory annotations of one alias and names that
    alias and the module of the earlier annotation of the pair, in one of
    the two messages "Duplicate Alias ... in ..." and "Alias ... used by
    ...". *)
Theorem duplicate_alias_rejected generate anns (i j : nat) f1 f2 :
  (i < j)%nat →
  anns !! i = Some (Scan.IsFactory f1) →
  anns !! j = Some (Scan.IsFactory f2) →
  FactoryAnnotation.Alias f1 = FactoryAnnotation.Alias f2 →
  ∃ (i' j' : nat) f1' f2',
    (i' < j')%nat ∧
    anns !! i' = Some (Scan.IsFactory f1') ∧
    anns !! j' = Some (Scan.IsFactory f2') ∧
    FactoryAnnotation.Alias f1' = FactoryAnnotation.Alias f2' ∧
    Scan.build_graph modPath anns = Err (duplicate_error modPath f1' f2') ∧
    Scan.ScanProjectAndGenerateDI generate modPath anns
      = Err (duplicate_error modPath f1' f2') ∧
    (duplicate_error modPath f1' f2'
       = "Duplicate Alias " +:+ FactoryAnnotation.Alias f1' +:+ " in "
           +:+ Scan.modName modPath f1' ∨
     duplicate_error modPath f1' f2'
       = "Alias " +:+ FactoryAnnotation.Alias f1' +:+ " used by "
           +:+ Scan.modName modPath f1').
Proof.
  intros Hij Hi Hj Heq.
  destruct (add_factories_duplicate anns [] ∅) as
    (i' & j' & f1' & f2' & Hij' & Hi' & Hj' & Heq' & Herr).
  - split; [by intros ?? ?%lookup_empty_Some|].
    intros ?? Hnil. by rewrite lookup_nil in Hnil.
  - exists i, j, f1, f2. simpl. split_and!; [done..|lia].
  - simpl in *. exists i', j', f1', f2'.
    unfold Scan.ScanProjectAndGenerateDI, Scan.build_graph. rewrite Herr.
    split_and!; [done..|].
    unfold duplicate_error. rewrite Heq'. case_decide; auto.
Qed.

Lemma add_factories_app l1 l2 container :
  foldM (Scan.add_factory modPath) (l1 ++ l2) container
  = (c ← foldM (Scan.add_factory modPath) l1 container;
     foldM (Scan.add_factory modPath) l2 c).
Proof. apply foldM_app. Qed.

(** Keys of the container after the first loop. *)
Lemma add_factories_keys l :
  ∀ container c k,
    foldM (Scan.add_factory modPath) l container = Ok c →
    is_Some (c !! k) →
    is_Some (container !! k) ∨
    ∃ f, Scan.IsFactory f ∈ l ∧ FactoryAnnotation.Alias f = k.
Proof.
  induction l as [|a l IH]; intros container c k; simpl.
  - intros [= <-]. auto.
  - destruct (Scan.add_factory modPath container a) as [c1| | |] eqn:Ha;
      try done.
    simpl. intros Hl Hk. destruct (IH _ _ _ Hl Hk) as [Hk1|(f & Hf & Hfk)].
    + destruct a as [f| | |]; simpl in Ha;
        try (injection Ha as <-; by left).
      destruct (container !! FactoryAnnotation.Alias f) eqn:Hc.
      * by case_decide.
      * injection Ha as <-. apply lookup_insert_is_Some in Hk1 as [<-|[_ ?]].
        -- right. exists f. split; [by left|done].
        -- by left.
    + right. exists f. split; [by right|done].
Qed.

(** The second loop leaves the keys of the container as they are. *)
Lemma add_wire_keys container a c k :
  Scan.add_wire container a = Ok c → is_Some (c !! k) ↔ is_Some (container !! k).
Proof.
  destruct a as [|w| |]; simpl; try by intros [= <-].
  destruct (container !! WireAnnotation.Target w) as [f|] eqn:Hf;
    [|by intros [= <-]].
  destruct (foldM _ _ _) as [deps| | |]; try done. simpl. intros [= <-].
  rewrite lookup_insert_is_Some. split.
  - intros [<-|[_ ?]]; eauto.
  - intros Hk. destruct (decide (WireAnnotation.Target w = k)); auto.
Qed.

Lemma add_wires_keys l :
  ∀ container c k,
    foldM Scan.add_wire l container = Ok c →
    is_Some (c !! k) ↔ is_Some (container !! k).
Proof.
  induction l as [|a l IH]; intros container c k; simpl.
  - by intros [= <-].
  - destruct (Scan.add_wire container a) as [c1| | |] eqn:Ha; try done.
    simpl. intros Hl. rewrite (IH _ _ _ Hl). by eapply add_wire_keys.
Qed.

(** C9.  A Wire annotation whose target is the alias of no Factory
    annotation of the list changes nothing: the graph-building phase gives
    the same result, configuration or error, as on the list without that
    annotation. *)
Theorem unknown_wire_target_ignored l1 w l2 :
  (∀ f, Scan.IsFactory f ∈ l1 ++ l2 →
        FactoryAnnotation.Alias f ≠ WireAnnotation.Target w) →
  Scan.build_graph modPath (l1 ++ Scan.IsWire w :: l2)
  = Scan.build_graph modPath (l1 ++ l2).
Proof.
  intros Hw. unfold Scan.build_graph.
  assert (foldM (Scan.add_factory modPath) (l1 ++ Scan.IsWire w :: l2) ∅
          = foldM (Scan.add_factory modPath) (l1 ++ l2) ∅) as ->.
  { rewrite !add_factories_app.
    by destruct (foldM (Scan.add_factory modPath) l1 ∅). }
  destruct (foldM (Scan.add_factory modPath) (l1 ++ l2) ∅) as [c1| | |] eqn:Hc1;
    try done.
  simpl. rewrite !foldM_app.
  destruct (foldM Scan.add_wire l1 c1) as [c2| | |] eqn:Hc2; try done.
  simpl.
  assert (c2 !! WireAnnotation.Target w = None) as ->; [|done].
  apply eq_None_not_Some. rewrite (add_wires_keys _ _ _ _ Hc2).
  intros Hk. destruct (add_factories_keys _ _ _ _ Hc1 Hk) as [Hk'|(f & Hf & Hfk)].
  - by apply is_Some_None in Hk'.
  - by apply (Hw f).
Qed.

End graph_builder.

(** ** The directive parsers *)


(** ** Instances of the results *)

Import Examples.

Lemma forwards_enumerates {V} (m : gmap string V) : enumerates (forwards m) m.
Proof. unfold enumerates, forwards. reflexivity. Qed.

Lemma backwards_enumerates {V} (m : gmap string V) :
  enumerates (backwards m) m.
Proof. unfold enumerates, backwards. apply reverse_Permutation. Qed.

Lemma BuildOrder_topological_witness :
  ∃ order,
    BuildOrder (forwards (Container server_config)) forwards
      (Container server_config) = Ok order ∧
    lists_each_alias_once (Container server_config) order ∧
    topological (Container server_config) order.
Proof.
  apply BuildOrder_topological.
  - apply forwards_enumerates.
  - intros m. apply forwards_enumerates.
  - apply (bool_decide_unpack _). vm_compute. exact I.
  - apply (acyclic_ranked (rank_in ["db"; "cache"; "server"])).
    apply (bool_decide_unpack _). vm_compute. exact I.
  - apply (bool_decide_unpack _). vm_compute. exact I.
Defined.

(** C1 fails as stated: the graph of [final_dependency_config] is acyclic
    and all its dependency names are keys, and BuildOrder returns an error,
    as the dependency [db] is flagged Final. *)
Lemma BuildOrder_final_dependency_counterexample :
  enumerates (forwards (Container final_dependency_config))
    (Container final_dependency_config) ∧
  resolved (Container final_dependency_config) ∧
  acyclic (Container final_dependency_config) ∧
  BuildOrder (forwards (Container final_dependency_config)) forwards
    (Container final_dependency_config)
  = Err "final item db cannot be a dependency of cache".
Proof.
  split_and!.
  - apply forwards_enumerates.
  - apply (bool_decide_unpack _). vm_compute. exact I.
  - apply (acyclic_ranked (rank_in ["db"; "cache"])).
    apply (bool_decide_unpack _). vm_compute. exact I.
  - vm_compute. reflexivity.
Qed.

Lemma BuildOrder_finals_last_witness :
  ∃ order normal finals,
    kahn_order (forwards (Container final_server_config)) forwards
      (Container final_server_config) = Ok order ∧
    ["db"; "metrics"; "server"] = normal ++ finals ∧
    normal = filter (λ a, ¬ is_final (Container final_server_config) a)
               order ∧
    finals = filter (is_final (Container final_server_config)) order ∧
    Forall (λ a, ¬ is_final (Container final_server_config) a) normal ∧
    Forall (λ a, is_final (Container final_server_config) a) finals.
Proof.
  apply (BuildOrder_finals_last
           (forwards (Container final_server_config)) forwards).
  vm_compute. reflexivity.
Defined.

Lemma cyclic_config_cyclic : cyclic (Container cyclic_config).
Proof.
  exists "a". apply tc_l with "b"; [|apply tc_once].
  - eexists. split; [reflexivity|]. simpl. by left.
  - eexists. split; [reflexivity|]. simpl. by left.
Qed.

Lemma BuildOrder_cycle_detected_witness :
  BuildOrder (forwards (Container cyclic_config)) forwards
    (Container cyclic_config)
  = Err "circular dependency detected".
Proof.
  apply BuildOrder_cycle_detected.
  - apply forwards_enumerates.
  - intros m. apply forwards_enumerates.
  - apply (bool_decide_unpack _). vm_compute. exact I.
  - apply (bool_decide_unpack _). vm_compute. exact I.
  - apply cyclic_config_cyclic.
Defined.

(** C3 fails as stated: the graph of [dangling_cyclic_config] has the cycle
    of [a] and [b] and no dependency flagged Final or Disable, and BuildOrder
    panics on the nil factory of [ghost] instead of returning the error. *)
Lemma BuildOrder_cycle_dangling_counterexample :
  enumerates (forwards (Container dangling_cyclic_config))
    (Container dangling_cyclic_config) ∧
  cyclic (Container dangling_cyclic_config) ∧
  usable (Container dangling_cyclic_config) ∧
  BuildOrder (forwards (Container dangling_cyclic_config)) forwards
    (Container dangling_cyclic_config) = Panic ∧
  BuildOrder (backwards (Container dangling_cyclic_config)) backwards
    (Container dangling_cyclic_config) = Panic.
Proof.
  split_and!.
  - apply forwards_enumerates.
  - exists "a". apply tc_l with "b"; [|apply tc_once].
    + eexists. split; [reflexivity|]. simpl. by left.
    + eexists. split; [reflexivity|]. simpl. by left.
  - apply (bool_decide_unpack _). vm_compute. exact I.
  - vm_compute. reflexivity.
  - vm_compute. reflexivity.
Qed.

Lemma BuildOrder_flagged_dependency_witness :
  ∃ a' f' d' fd',
    Container final_dependency_config !! a' = Some f' ∧
    d' ∈ depnames f' ∧
    Container final_dependency_config !! d' = Some fd' ∧
    ((Final fd' = true ∧
      BuildOrder (forwards (Container final_dependency_config)) forwards
        (Container final_dependency_config)
      = Err (final_dependency_error d' a')) ∨
     (Final fd' = false ∧ Disable fd' = true ∧
      BuildOrder (forwards (Container final_dependency_config)) forwards
        (Container final_dependency_config)
      = Err (disable_dependency_error d' a'))).
Proof.
  apply (BuildOrder_flagged_dependency _ _ _ "cache"
           (factory "cache" "NewCache" "/proj/store" [shared "db"]
              false false)
           "db" (factory "db" "NewDB" "/proj/store" [] true false)).
  - apply forwards_enumerates.
  - apply (bool_decide_unpack _). vm_compute. exact I.
  - reflexivity.
  - simpl. by left.
  - reflexivity.
  - left. reflexivity.
Defined.

(** C4 fails as stated: in [dangling_final_config] the factory [cache]
    lists the Final [db], and BuildOrder panics on the nil factory of
    [ghost], listed before it, instead of returning the error. *)
Lemma BuildOrder_flagged_dangling_counterexample :
  enumerates (forwards (Container dangling_final_config))
    (Container dangling_final_config) ∧
  Container dangling_final_config !! "cache"
    = Some (factory "cache" "NewCache" "/proj/store"
              [shared "ghost"; shared "db"] false false) ∧
  Container dangling_final_config !! "db"
    = Some (factory "db" "NewDB" "/proj/store" [] true false) ∧
  BuildOrder (forwards (Container dangling_final_config)) forwards
    (Container dangling_final_config) = Panic ∧
  BuildOrder (backwards (Container dangling_final_config)) backwards
    (Container dangling_final_config) = Panic.
Proof.
  split_and!.
  - apply forwards_enumerates.
  - reflexivity.
  - reflexivity.
  - vm_compute. reflexivity.
  - vm_compute. reflexivity.
Qed.

Lemma duplicate_alias_rejected_witness :
  ∃ (i' j' : nat) f1' f2',
    (i' < j')%nat ∧
    [factory_annotation "store" "NewDB" "db";
     factory_annotation "store" "NewReplica" "db"] !! i'
      = Some (Scan.IsFactory f1') ∧
    [factory_annotation "store" "NewDB" "db";
     factory_annotation "store" "NewReplica" "db"] !! j'
      = Some (Scan.IsFactory f2') ∧
    FactoryAnnotation.Alias f1' = FactoryAnnotation.Alias f2' ∧
    Scan.build_graph "example.com/m"
      [factory_annotation "store" "NewDB" "db";
       factory_annotation "store" "NewReplica" "db"]
      = Err (duplicate_error "example.com/m" f1' f2') ∧
    Scan.ScanProjectAndGenerateDI no_generate "example.com/m"
      [factory_annotation "store" "NewDB" "db";
       factory_annotation "store" "NewReplica" "db"]
      = Err (duplicate_error "example.com/m" f1' f2') ∧
    (duplicate_error "example.com/m" f1' f2'
       = "Duplicate Alias " +:+ FactoryAnnotation.Alias f1' +:+ " in "
           +:+ Scan.modName "example.com/m" f1' ∨
     duplicate_error "example.com/m" f1' f2'
       = "Alias " +:+ FactoryAnnotation.Alias f1' +:+ " used by "
           +:+ Scan.modName "example.com/m" f1').
Proof.
  eapply (duplicate_alias_rejected "example.com/m" no_generate _ 0 1).
  - lia.
  - reflexivity.
  - reflexivity.
  - reflexivity.
Defined.

(** C5 fails as stated: for two Factory annotations of the alias [db], in
    the packages [store] and [replica], the error names the module of the
    first one only, and the location of the second one is not in it; and two
    Factory annotations of one package get the same message as two of
    different packages. *)
Lemma duplicate_alias_counterexample :
  Scan.build_graph "example.com/m"
    [factory_annotation "store" "NewDB" "db";
     factory_annotation "replica" "NewReplica" "db"]
  = Err "Alias db used by example.com/m/store" ∧
  String.index 0 "replica" "Alias db used by example.com/m/store" = None ∧
  Scan.build_graph "example.com/m"
    [factory_annotation "store" "NewDB" "db";
     factory_annotation "store" "NewReplica" "db"]
  = Err "Alias db used by example.com/m/store".
Proof. vm_compute. auto. Qed.

Lemma GenerateCode_standalone_inline_witness :
  ∃ file order,
    Emitter.GenerateFile (forwards (Container server_config)) forwards
      forwards "/proj" "example.com/m" server_config = Ok file ∧
    format_Node file
      = Emitter.GenerateCode (forwards (Container server_config)) forwards
          forwards "/proj" "example.com/m" server_config ∧
    BuildOrder (forwards (Container server_config)) forwards
      (Container server_config) = Ok order ∧
    length (declarations file) = length order ∧
    ∀ (i : nat) item,
      order !! i = Some item →
      ∃ f s, Container server_config !! item = Some f ∧
             declarations file !! i = Some s ∧
             declares (Container server_config) order i f s.
Proof.
  destruct (Emitter.GenerateCode (forwards (Container server_config))
              forwards forwards "/proj" "example.com/m" server_config)
    as [text| | |] eqn:Htext; [|by vm_compute in Htext..].
  apply (GenerateCode_standalone_inline _ _ _ _ _ _ _
           (forwards_enumerates _) forwards_enumerates Htext).
Defined.

(** The declaration of [server] in the file generated for
    [server_config]: the shared [db] is the identifier [db], the standalone
    [cache] an inline call of [NewCache] on [db]; [cache] is declared once,
    for its own alias. *)
Example server_config_file :
  (λ r, match r with Ok file => declarations file | _ => [] end)
    (Emitter.GenerateFile (forwards (Container server_config)) forwards
       forwards "/proj" "example.com/m" server_config)
  = [ast.DeclStmt (String "010"%char "//line /proj/db.go 3") "db"
       (ast.CallExpr "id_1" "NewDB" []);
     ast.DeclStmt (String "010"%char "//line /proj/cache.go 3") "cache"
       (ast.CallExpr "id_1" "NewCache" [ast.Ident "db"]);
     ast.DeclStmt (String "010"%char "//line /proj/server.go 3") "server"
       (ast.CallExpr "id_2" "NewServer"
          [ast.Ident "db";
           ast.CallExpr "id_1" "NewCache" [ast.Ident "db"]])].
Proof. vm_compute. reflexivity. Qed.

Lemma BuildOrder_enumeration_independent_witness :
  ∃ order',
    BuildOrder (backwards (Container independent_config)) backwards
      (Container independent_config) = Ok order' ∧
    order' ≡ₚ ["a"; "b"] ∧
    topological (Container independent_config) ["a"; "b"] ∧
    topological (Container independent_config) order'.
Proof.
  apply (BuildOrder_enumeration_independent
           (forwards (Container independent_config)) forwards).
  - apply forwards_enumerates.
  - intros m. apply forwards_enumerates.
  - apply backwards_enumerates.
  - intros m. apply backwards_enumerates.
  - vm_compute. reflexivity.
Defined.

(** C7 fails as stated: on [independent_config], two enumeration orders of
    the map ranges give different orders, different files and different
    texts. *)
Lemma GenerateCode_enumeration_counterexample :
  enumerates (forwards (Container independent_config))
    (Container independent_config) ∧
  enumerates (backwards (Container independent_config))
    (Container independent_config) ∧
  BuildOrder (forwards (Container independent_config)) forwards
    (Container independent_config) = Ok ["a"; "b"] ∧
  BuildOrder (backwards (Container independent_config)) backwards
    (Container independent_config) = Ok ["b"; "a"] ∧
  Emitter.GenerateFile (forwards (Container independent_config)) forwards
    forwards "/proj" "example.com/m" independent_config
  ≠ Emitter.GenerateFile (backwards (Container independent_config)) backwards
      backwards "/proj" "example.com/m" independent_config ∧
  Emitter.GenerateCode (forwards (Container independent_config)) forwards
    forwards "/proj" "example.com/m" independent_config
  ≠ Emitter.GenerateCode (backwards (Container independent_config)) backwards
      backwards "/proj" "example.com/m" independent_config.
Proof.
  split_and!.
  - apply forwards_enumerates.
  - apply backwards_enumerates.
  - vm_compute. reflexivity.
  - vm_compute. reflexivity.
  - vm_compute. discriminate.
  - vm_compute. discriminate.
Qed.



Lemma unknown_wire_target_ignored_witness :
  Scan.build_graph "example.com/m"
    ([factory_annotation "store" "NewDB" "db"]
     ++ Scan.IsWire (wire_annotation "store" "cache" ["db"])
     :: [factory_annotation "web" "NewServer" "server";
         Scan.IsWire (wire_annotation "web" "server" ["db"])])
  = Scan.build_graph "example.com/m"
      ([factory_annotation "store" "NewDB" "db"]
       ++ [factory_annotation "web" "NewServer" "server";
           Scan.IsWire (wire_annotation "web" "server" ["db"])]).
Proof.
  apply unknown_wire_target_ignored.
  intros f Hf. simpl in Hf.
  apply elem_of_cons in Hf as [Hf|Hf]; [inversion Hf; discriminate|].
  apply elem_of_cons in Hf as [Hf|Hf]; [inversion Hf; discriminate|].
  apply elem_of_cons in Hf as [Hf|Hf]; [discriminate|].
  by apply elem_of_nil in Hf.
Defined.

Lemma generateDepExpr_terminates_witness :
  ∃ e ctx',
    Emitter.generateDepExpr 3
      {| Emitter.ImportID := ∅; Emitter.Container := ∅;
         Emitter.Counter := 0 |}
      (standalone "cache") server_config = Ok (e, ctx').
Proof.
  apply (generateDepExpr_terminates
           (forwards (Container server_config)) forwards server_config
           ["db"; "cache"; "server"] "server"
           (factory "server" "NewServer" "/proj/web"
              [shared "db"; standalone "cache"] false false)).
  - apply forwards_enumerates.
  - intros m. apply forwards_enumerates.
  - vm_compute. reflexivity.
  - reflexivity.
  - simpl. right. by left.
  - simpl. lia.
Defined.

(** * Further results *)

(** ** The scheduler on every input *)

(** Why the first loop of [BuildOrder] stops early on resolved names. *)
Lemma build_edges_stops rc c :
  enumerates rc c → resolved c →
  (∃ e, build_edges c rc = Ok e) ∨
  ∃ a f d fd,
    c !! a = Some f ∧ d ∈ depnames f ∧ c !! d = Some fd ∧
    ((Final fd = true ∧
      build_edges c rc = Err (final_dependency_error d a)) ∨
     (Final fd = false ∧ Disable fd = true ∧
      build_edges c rc = Err (disable_dependency_error d a))).
Proof.
  intros Hrc Hres.
  destruct (foldM_inv _ _ _ _ (eq_refl (build_edges c rc)))
    as [[e He]|(l1 & [x fx] & l2 & s1 & Hl & _ & Hv & Hne)]; [eauto|].
  right.
  assert (c !! x = Some fx) as Hx.
  { apply (enumerates_elem _ _ _ _ Hrc). rewrite Hl. set_solver. }
  unfold visit in Hv. simpl in Hv.
  destruct (foldM_inv _ _ _ _ Hv)
    as [[e He]|(d1 & dep & d2 & s2 & Hdeps & _ & Ha & _)];
    [by destruct (Hne e)|].
  assert (Name dep ∈ depnames fx) as Hdep.
  { unfold depnames. rewrite Hdeps. set_solver. }
  pose proof (Hres x fx Hx) as Hr. simpl in Hr. rewrite Forall_forall in Hr.
  destruct (Hr _ Hdep) as [fd' Hfd'].
  exists x, fx, (Name dep), fd'. split_and!; [done..|].
  rewrite <-Ha. unfold add_edge. rewrite Hfd'.
  rewrite <-Ha in Hne. unfold add_edge in Hne. rewrite Hfd' in Hne.
  destruct (Final fd'); [by left|]. destruct (Disable fd'); [by right|].
  by edestruct Hne.
Qed.

(** X1.  With every dependency name a key of the container, BuildOrder
    neither panics nor runs on: it returns an order, or one of its three
    errors, the "final item" and "disable item" ones naming a dependency
    with that flag and its dependent. *)
Theorem BuildOrder_outcomes rc ri c :
  enumerates rc c → (∀ m, enumerates (ri m) m) → resolved c →
  (∃ order, BuildOrder rc ri c = Ok order) ∨
  BuildOrder rc ri c = Err "circular dependency detected" ∨
  ∃ a f d fd,
    c !! a = Some f ∧ d ∈ depnames f ∧ c !! d = Some fd ∧
    ((Final fd = true ∧
      BuildOrder rc ri c = Err (final_dependency_error d a)) ∨
     (Final fd = false ∧ Disable fd = true ∧
      BuildOrder rc ri c = Err (disable_dependency_error d a))).
Proof.
  intros Hrc Hri Hres.
  destruct (build_edges_stops rc c Hrc Hres)
    as [[e He]|(a & f & d & fd & Hf & Hd & Hfd & Herr)].
  - destruct (build_edges_ok c rc e Hrc He) as (_ & _ & Hef).
    destruct (kahn_order_run rc ri c e Hri He Hef) as (o & Hk & Hdr).
    unfold BuildOrder. rewrite Hk. simpl. case_decide; [by auto|].
    left. rewrite split_finals_ok by apply Hdr. eauto.
  - right. right. exists a, f, d, fd. split_and!; [done..|].
    unfold BuildOrder, kahn_order.
    destruct Herr as [[? ->]|(? & ? & ->)]; simpl; auto.
Qed.

(** X2.  BuildOrder returns an order exactly for the containers whose
    dependency names are all keys, whose dependency graph is acyclic and in
    which no dependency is flagged Final or Disable. *)
Theorem BuildOrder_succeeds_iff rc ri c :
  enumerates rc c → (∀ m, enumerates (ri m) m) →
  (∃ order, BuildOrder rc ri c = Ok order) ↔
  resolved c ∧ acyclic c ∧ usable c.
Proof.
  intros Hrc Hri. split.
  - intros [order Ho].
    destruct (BuildOrder_Ok_acyclic _ _ _ _ Hrc Hri Ho) as (? & ? & ?).
    done.
  - intros (Hres & Hac & Hus).
    destruct (BuildOrder_sound rc ri c Hrc Hri Hres Hac Hus) as (o & Ho & _).
    eauto.
Qed.

(** X3.  Once the first loop has built the edges, the queue-draining loop
    ends within [len(container)] iterations on every graph, cyclic or not,
    as no alias is dequeued twice. *)
Theorem drain_bounded rc ri c e :
  enumerates rc c → (∀ m, enumerates (ri m) m) →
  build_edges c rc = Ok e →
  ∃ order,
    drain (size c) (graph e) (seed (ri (indegree e))) (indegree e) []
      = Some order ∧
    NoDup order ∧ (length order ≤ size c)%nat.
Proof.
  intros Hrc Hri He.
  destruct (build_edges_ok c rc e Hrc He) as (_ & _ & Hef).
  destruct (drain_inv c (graph e) (ef_graph_dom _ _ Hef)
              (ef_graph_count _ _ Hef) (size c)
              (seed (ri (indegree e))) (indegree e) [])
    as (o & indeg' & Ho & Hinv).
  - apply inv_init; auto.
  - simpl. lia.
  - apply inv_drained in Hinv. exists o. split_and!; [done|apply Hinv|].
    apply keys_bound; apply Hinv.
Qed.

(** From every node of a finite set in which each node has a successor
    inside the set, a node that reaches itself can be reached. *)
Lemma reaches_cycle (n : nat) :
  ∀ (R : relation string) (U : gset string),
    size U = n →
    (∀ x, x ∈ U → ∃ y, y ∈ U ∧ R x y) →
    ∀ x, x ∈ U → ∃ b, rtc R x b ∧ tc R b b.
Proof.
  induction n as [|n IH]; intros R U Hsize Hsucc x Hx.
  - apply size_empty_inv in Hsize. apply leibniz_equiv in Hsize.
    rewrite Hsize in Hx. set_solver.
  - destruct (Hsucc x Hx) as (y & Hy & Hxy).
    destruct (decide (y = x)) as [->|Hyx].
    { exists x. split; [done|by apply tc_once]. }
    set (R' := λ a b, R a b ∨ (R a x ∧ R x b)).
    assert (HR' : ∀ a b, tc R' a b → tc R a b).
    { intros a b H. induction H as [a b [?|[??]]|a b z [?|[??]] _ IH'].
      - by apply tc_once.
      - eapply tc_l; [done|]. by apply tc_once.
      - by eapply tc_l.
      - eapply tc_l; [done|]. by eapply tc_l. }
    destruct (IH R' (U ∖ {[x]})) with (x := y) as (b & Hyb & Hbb).
    + assert (size U = size ({[x]} : gset string) + size (U ∖ {[x]}))%nat
        as Hs.
      { rewrite <-size_union by set_solver. f_equal. apply set_eq.
        intros z. rewrite elem_of_union, elem_of_difference,
          elem_of_singleton. destruct (decide (z = x)); naive_solver. }
      rewrite size_singleton in Hs. lia.
    + intros z [Hz Hzx]%elem_of_difference.
      destruct (Hsucc z Hz) as (w & Hw & Hzw).
      destruct (decide (w = x)) as [->|Hwx].
      * exists y. split; [set_solver|]. right. done.
      * exists w. split; [set_solver|]. left. done.
    + set_solver.
    + exists b. split; [|by apply HR'].
      apply rtc_l with y; [done|].
      apply rtc_tc in Hyb as [->|Hyb]; [done|].
      by apply tc_rtc, HR'.
Qed.

(** X4.  The order left by the queue-draining loop, on an acyclic graph or
    not, holds no alias twice, has every dependency before its dependent,
    and lacks exactly the aliases from which a cycle can be reached along
    dependencies: the omitted aliases are the cycle region. *)
Theorem kahn_order_omits_cycle_region rc ri c order :
  enumerates rc c → (∀ m, enumerates (ri m) m) →
  kahn_order rc ri c = Ok order →
  NoDup order ∧ topological c order ∧
  ∀ a, is_Some (c !! a) →
    a ∉ order ↔ ∃ b, rtc (dep_edge c) a b ∧ tc (dep_edge c) b b.
Proof.
  intros Hrc Hri Hk.
  assert (∃ e, build_edges c rc = Ok e) as [e He].
  { unfold kahn_order in Hk. destruct (build_edges c rc); try done. eauto. }
  destruct (build_edges_ok c rc e Hrc He) as (Hres & _ & Hef).
  destruct (kahn_order_run rc ri c e Hri He Hef) as (o & Hk' & Hdr).
  rewrite Hk in Hk'. injection Hk' as <-.
  assert (Hstep : ∀ a b, a ∈ order → dep_edge c a b →
                         b ∈ order ∧ before order b a).
  { intros a b Ha (f & Hf & Hb).
    assert (b ∈ order) as Hbo.
    { apply (dr_ready _ _ Hdr _ _ Hf) in Ha.
      rewrite Forall_forall in Ha. by apply Ha. }
    split; [done|]. eapply topological_before; eauto. apply Hdr. }
  assert (Htrans : ∀ x y z, before order x y → before order y z →
                            before order x z).
  { intros x y z (i & j & Hi & Hj & Hij) (j' & k & Hj' & Hk' & Hjk).
    rewrite (NoDup_lookup _ _ _ _ (dr_nodup _ _ Hdr) Hj' Hj) in Hjk.
    exists i, k. split_and!; [done..|lia]. }
  assert (Htc : ∀ a b, tc (dep_edge c) a b → a ∈ order →
                       b ∈ order ∧ before order b a).
  { intros a b H. induction H as [a b H|a b z H _ IH]; intros Ha.
    - by apply Hstep.
    - destruct (Hstep _ _ Ha H) as [Hb Hba].
      destruct (IH Hb) as [Hz Hzb]. split; [done|]. by eapply Htrans. }
  assert (Hrtc : ∀ a b, rtc (dep_edge c) a b → a ∈ order → b ∈ order).
  { intros a b H. induction H as [|a b z H _ IH]; [done|].
    intros Ha. apply IH. by apply (Hstep a b). }
  split_and!; [apply Hdr..|].
  intros a Ha. split.
  - intros Hnot.
    set (U := filter (λ x, x ∉ order) (dom c)).
    apply (reaches_cycle (size U) (dep_edge c) U eq_refl).
    + intros x [Hx [f Hf]%elem_of_dom]%elem_of_filter.
      assert (¬ Forall (λ d, d ∈ order) (depnames f)) as Hnf.
      { intros Hall. apply Hx. by apply (dr_ready _ _ Hdr _ _ Hf). }
      apply not_Forall_Exists in Hnf; [|apply _].
      apply Exists_exists in Hnf as (d & Hd & Hdo). simpl in Hdo.
      exists d. split.
      * apply elem_of_filter. split; [done|]. apply elem_of_dom.
        specialize (Hres x f Hf). simpl in Hres.
        rewrite Forall_forall in Hres. by apply Hres.
      * by exists f.
    + apply elem_of_filter. split; [done|]. by apply elem_of_dom.
  - intros (b & Hab & Hbb) Hin.
    destruct (Htc b b Hbb (Hrtc _ _ Hab Hin))
      as (_ & i & j & Hi & Hj & Hij).
    rewrite (NoDup_lookup _ _ _ _ (dr_nodup _ _ Hdr) Hi Hj) in Hij. lia.
Qed.

(** ** The emitter: outcome, keep-alive call and import bindings *)

(** The loop over [order] succeeds on an order returned by [BuildOrder]. *)
Lemma emit_run `{Library} rc ri root moduleName config order :
  enumerates rc (Container config) → (∀ m, enumerates (ri m) m) →
  BuildOrder rc ri (Container config) = Ok order →
  ∃ st',
    foldM (Emitter.emit_item (length order)
             (Emitter.normalize root moduleName config)) order
      {| Emitter.ctx := {| Emitter.ImportID := ∅; Emitter.Container := ∅;
                           Emitter.Counter := 0 |};
         Emitter.stmts := []; Emitter.depIdents := [] |}
    = Ok st'.
Proof.
  intros Hrc Hri Hbo.
  destruct (BuildOrder_Ok_acyclic _ _ _ _ Hrc Hri Hbo) as (Hres & Hus & Hac).
  destruct (BuildOrder_sound rc ri _ Hrc Hri Hres Hac Hus)
    as (o & Ho & Honce & Ht).
  rewrite Hbo in Ho. injection Ho as <-.
  destruct (emit_loop (Container config)
              (Container (Emitter.normalize root moduleName config)) order)
    with (l := order) (done := @nil string)
         (st := {| Emitter.ctx := {| Emitter.ImportID := ∅;
                                     Emitter.Container := ∅;
                                     Emitter.Counter := 0 |};
                   Emitter.stmts := []; Emitter.depIdents := [] |})
    as (st' & new & Hloop & _).
  - intros a f'. apply normalize_same.
  - intros a Ha. apply Honce in Ha as [f Hf].
    unfold Emitter.normalize. simpl. rewrite lookup_fmap, Hf. eauto.
  - intros i a f' d Hi Hf' Hd.
    apply normalize_same in Hf' as (f & Hf & _ & _ & HD). rewrite HD in Hd.
    by eapply ordered_earlier.
  - done.
  - apply Honce.
  - intros k a f Hk. simpl in Hk. lia.
  - exists st'. by destruct (Emitter.normalize root moduleName config).
Qed.

(** X5.  GenerateCode builds a file exactly when BuildOrder returns an
    order, and returns the error of BuildOrder otherwise: after a successful
    BuildOrder the emitter itself cannot fail before the pretty-printer. *)
Theorem GenerateFile_follows_BuildOrder `{Library} rc ri rim root moduleName
    config :
  enumerates rc (Container config) → (∀ m, enumerates (ri m) m) →
  ((∃ file, Emitter.GenerateFile rc ri rim root moduleName config = Ok file)
   ↔ ∃ order, BuildOrder rc ri (Container config) = Ok order) ∧
  (∀ msg, Emitter.GenerateFile rc ri rim root moduleName config = Err msg
          ↔ BuildOrder rc ri (Container config) = Err msg) ∧
  (∀ msg, BuildOrder rc ri (Container config) = Err msg →
          Emitter.GenerateCode rc ri rim root moduleName config = Err msg).
Proof.
  intros Hrc Hri. unfold Emitter.GenerateCode, Emitter.GenerateFile.
  destruct (BuildOrder rc ri (Container config)) as [order| | |] eqn:Hbo;
    simpl.
  - destruct (emit_run rc ri root moduleName config order Hrc Hri Hbo)
      as [st' ->].
    simpl. split_and!.
    + split; eauto.
    + intros msg. split; done.
    + done.
  - split_and!.
    + split; [by intros [??]|by intros [??]].
    + intros msg'. split; by intros [= ->].
    + by intros msg' [= ->].
  - split_and!; [split; by intros [??]|intros; split; done|done].
  - split_and!; [split; by intros [??]|intros; split; done|done].
Qed.

Lemma emit_items_shape `{Library} fuel config l :
  ∀ st st',
    foldM (Emitter.emit_item fuel config) l st = Ok st' →
    ∃ new,
      Emitter.stmts st' = Emitter.stmts st ++ new ∧
      Forall (λ s, is_decl s) new ∧
      decl_name <$> new
        = (λ item, from_option Alias "" (Container config !! item)) <$> l ∧
      Emitter.depIdents st'
        = Emitter.depIdents st ++ (ast.Ident <$> (decl_name <$> new)).
Proof.
  induction l as [|item l IH]; intros st st'; simpl.
  - intros [= <-]. exists []. by rewrite !app_nil_r.
  - destruct (Emitter.emit_item fuel config st item) as [st1| | |] eqn:Hit;
      try done.
    simpl. intros Hl. destruct (IH _ _ Hl) as (new & Hs & Hd & Hn & Hi).
    unfold Emitter.emit_item in Hit.
    destruct (Container config !! item) as [f|] eqn:Hf; [|done].
    destruct (foldM _ (Deps f) _) as [a| | |]; try done.
    simpl in Hit. injection Hit as <-. simpl in *.
    eexists (_ :: new). split_and!.
    + rewrite Hs, <-app_assoc. done.
    + constructor; done.
    + rewrite fmap_cons, Hn. done.
    + rewrite Hi, <-app_assoc. done.
Qed.

(** X6.  In a generated file the body of Root is the declarations, named
    by the Alias fields of the factories in the order of BuildOrder, followed
    by one call [dix.Mark] on exactly the declared identifiers, in order;
    for an empty container the body is empty and has no such call. *)
Theorem GenerateFile_keep_alive `{Library} rc ri rim root moduleName config
    file :
  Emitter.GenerateFile rc ri rim root moduleName config = Ok file →
  ∃ order,
    BuildOrder rc ri (Container config) = Ok order ∧
    decl_name <$> declarations file
      = (λ item, from_option Alias "" (Container config !! item)) <$> order ∧
    root_body file
      = declarations file ++
        (if decide (order = []) then []
         else [ast.ExprStmt
                 (ast.CallExpr "dix" "Mark"
                    (ast.Ident <$> (decl_name <$> declarations file)))]).
Proof.
  unfold Emitter.GenerateFile.
  destruct (BuildOrder rc ri (Container config)) as [order| | |]; try done.
  simpl.
  destruct (foldM _ order _) as [st'| | |] eqn:Hloop; try done.
  simpl. intros [= <-]. exists order. split; [done|].
  destruct (emit_items_shape _ _ _ _ _ Hloop) as (new & Hs & Hd & Hn & Hi).
  simpl in Hs, Hi.
  assert (filter is_decl new = new) as Hfn.
  { clear -Hd. induction Hd; [done|].
    rewrite filter_cons, decide_True by done. by f_equal. }
  assert (∀ a, Container (Emitter.normalize root moduleName config) !! a
               = None ↔ Container config !! a = None) as Hnone.
  { intros a. unfold Emitter.normalize. simpl. rewrite lookup_fmap.
    by destruct (Container config !! a). }
  assert ((λ item, from_option Alias ""
             (Container (Emitter.normalize root moduleName config) !! item))
            <$> order
          = (λ item, from_option Alias "" (Container config !! item))
              <$> order) as Hal.
  { apply list_fmap_ext. intros _ a _. unfold Emitter.normalize. simpl.
    rewrite lookup_fmap. by destruct (Container config !! a). }
  assert (declarations
            {| ast.PackageName := "dix";
               ast.Decls :=
                 if decide (0 < size (Emitter.ImportID (Emitter.ctx st')))%nat
                 then [ast.ImportDecl
                         ({| ast.ImportName := "dix";
                             ast.ImportPath :=
                               strconv_Quote "github.com/smtdfc/dix" |}
                          :: ((λ e : string * string,
                                 {| ast.ImportName := e.2;
                                    ast.ImportPath := strconv_Quote e.1 |})
                              <$> rim (Emitter.ImportID (Emitter.ctx st'))));
                       ast.FuncDecl "Root"
                         (if decide (0 < length (Emitter.depIdents st'))%nat
                          then Emitter.stmts st' ++
                               [ast.ExprStmt
                                  (ast.CallExpr "dix" "Mark"
                                     (Emitter.depIdents st'))]
                          else Emitter.stmts st')]
                 else [ast.FuncDecl "Root"
                         (if decide (0 < length (Emitter.depIdents st'))%nat
                          then Emitter.stmts st' ++
                               [ast.ExprStmt
                                  (ast.CallExpr "dix" "Mark"
                                     (Emitter.depIdents st'))]
                          else Emitter.stmts st')] |} = new) as Hdecl.
  { unfold declarations, root_body.
    repeat case_decide; simpl; rewrite ?app_nil_r, Hs;
      rewrite ?filter_app, Hfn; simpl; by rewrite ?app_nil_r. }
  rewrite Hdecl. split; [by rewrite Hn, Hal|].
  assert (length (ast.Ident <$> (decl_name <$> new)) = length order)
    as Hlen.
  { rewrite length_fmap, Hn. by rewrite length_fmap. }
  unfold root_body. simpl. rewrite Hs, Hi. simpl.
  destruct (decide (order = [])) as [->|Hne].
  - simpl in Hlen.
    repeat case_decide; simpl; rewrite ?app_nil_r; try done; lia.
  - assert (0 < length order)%nat by (destruct order; [done|simpl; lia]).
    repeat case_decide; simpl; rewrite ?app_nil_r; try done; lia.
Qed.

(** X7.  ResolveImport binds a module path once: after a call the path
    maps to the returned alias, a second call returns the same alias and
    leaves the context as it is, and the bindings of other paths are
    untouched. *)
Theorem ResolveImport_binds_once ctx m :
  Emitter.ImportID (Emitter.ResolveImport ctx m).2 !! m
    = Some (Emitter.ResolveImport ctx m).1 ∧
  Emitter.ResolveImport (Emitter.ResolveImport ctx m).2 m
    = Emitter.ResolveImport ctx m ∧
  ∀ m', m' ≠ m →
    Emitter.ImportID (Emitter.ResolveImport ctx m).2 !! m'
    = Emitter.ImportID ctx !! m'.
Proof.
  destruct (Emitter.ImportID ctx !! m) as [a|] eqn:Hm.
  - assert (Emitter.ResolveImport ctx m = (a, ctx)) as ->.
    { unfold Emitter.ResolveImport. by rewrite Hm. }
    simpl. split_and!; [done| |done].
    unfold Emitter.ResolveImport. by rewrite Hm.
  - assert (Emitter.ResolveImport ctx m
            = ("id_" +:+ pretty (Emitter.Counter ctx + 1),
               {| Emitter.ImportID :=
                    <[m := "id_" +:+ pretty (Emitter.Counter ctx + 1)]>
                      (Emitter.ImportID ctx);
                  Emitter.Container := Emitter.Container ctx;
                  Emitter.Counter := Emitter.Counter ctx + 1 |})) as ->.
    { unfold Emitter.ResolveImport. by rewrite Hm. }
    simpl. split_and!.
    + by rewrite lookup_insert_eq.
    + unfold Emitter.ResolveImport. simpl. by rewrite lookup_insert_eq.
    + intros m' Hne. by rewrite lookup_insert_ne.
Qed.

Lemma id_name_inj (k1 k2 : Z) :
  "id_" +:+ pretty k1 = "id_" +:+ pretty k2 → k1 = k2.
Proof. intros Heq. by apply (inj pretty), (inj (String.app "id_")). Qed.

Lemma ResolveImport_imports_ok ctx m :
  imports_ok ctx → imports_ok (Emitter.ResolveImport ctx m).2.
Proof.
  intros (H0 & Hwf & Hinj). unfold Emitter.ResolveImport.
  destruct (Emitter.ImportID ctx !! m) as [a|] eqn:Hm; simpl; [done|].
  split_and!; simpl.
  - lia.
  - intros m' a'. destruct (decide (m = m')) as [<-|Hne].
    + rewrite lookup_insert_eq. intros [= <-].
      exists (Emitter.Counter ctx + 1). split; [lia|done].
    + rewrite lookup_insert_ne by done. intros Ha.
      destruct (Hwf _ _ Ha) as (k & Hk & ->). exists k. split; [lia|done].
  - assert (∀ m' a', Emitter.ImportID ctx !! m' = Some a' →
              a' ≠ "id_" +:+ pretty (Emitter.Counter ctx + 1)) as Hfresh.
    { intros m' a' Ha Heq. destruct (Hwf _ _ Ha) as (k & Hk & ->).
      apply id_name_inj in Heq. lia. }
    intros m1 m2 a'.
    destruct (decide (m = m1)) as [<-|Hne1];
      destruct (decide (m = m2)) as [<-|Hne2]; [done|..].
    + rewrite lookup_insert_eq, lookup_insert_ne by done.
      intros [= <-] Ha. by destruct (Hfresh _ _ Ha).
    + rewrite lookup_insert_eq, lookup_insert_ne by done.
      intros Ha [= <-]. by destruct (Hfresh _ _ Ha).
    + rewrite !lookup_insert_ne by done. apply Hinj.
Qed.

Lemma generateDepExpr_imports_ok fuel config :
  ∀ ctx dep e ctx',
    Emitter.generateDepExpr fuel ctx dep config = Ok (e, ctx') →
    imports_ok ctx → imports_ok ctx'.
Proof.
  induction fuel as [|fuel IH]; intros ctx dep e ctx'; simpl.
  - destruct (Standalone dep); [done|]. by intros [= _ <-].
  - destruct (Standalone dep); [|by intros [= _ <-]].
    destruct (Container config !! Name dep) as [f|]; [|done].
    assert (∀ l st st',
      foldM (λ (st : list ast.Expr * Emitter.GenContext) sub,
               r' ← Emitter.generateDepExpr fuel st.2 sub config;
               Ok (st.1 ++ [r'.1], r'.2)) l st = Ok st' →
      imports_ok st.2 → imports_ok st'.2) as Hfold.
    { induction l as [|d l IHl]; intros st st'; simpl.
      - by intros [= <-].
      - destruct (Emitter.generateDepExpr fuel st.2 d config)
          as [[e1 c1]| | |] eqn:Hg; try done.
        simpl. intros Hl Hok. apply (IHl _ _ Hl). simpl. by eapply IH. }
    destruct (foldM _ (Deps f) _) as [st| | |] eqn:Hf; try done.
    simpl. intros [= _ <-] Hok. apply (Hfold _ _ _ Hf). simpl.
    by apply ResolveImport_imports_ok.
Qed.

Lemma emit_items_imports_ok `{Library} fuel config l :
  ∀ st st',
    foldM (Emitter.emit_item fuel config) l st = Ok st' →
    imports_ok (Emitter.ctx st) → imports_ok (Emitter.ctx st').
Proof.
  induction l as [|item l IH]; intros st st'; simpl.
  - by intros [= <-].
  - destruct (Emitter.emit_item fuel config st item) as [st1| | |] eqn:Hit;
      try done.
    simpl. intros Hl Hok. apply (IH _ _ Hl).
    unfold Emitter.emit_item in Hit.
    destruct (Container config !! item) as [f|]; [|done].
    destruct (foldM _ (Deps f) _) as [a| | |] eqn:Hf; try done.
    simpl in Hit. injection Hit as <-. simpl.
    apply ResolveImport_imports_ok.
    assert (∀ ds s s',
      foldM (λ (a : list ast.Expr * Emitter.GenContext) dep,
               r ← Emitter.generateDepExpr fuel a.2 dep config;
               Ok (a.1 ++ [r.1], r.2)) ds s = Ok s' →
      imports_ok s.2 → imports_ok s'.2) as Hfold.
    { induction ds as [|d ds IHds]; intros s s'; simpl.
      - by intros [= <-].
      - destruct (Emitter.generateDepExpr fuel s.2 d config)
          as [[e1 c1]| | |] eqn:Hg; try done.
        simpl. intros Hds Hs. apply (IHds _ _ Hds). simpl.
        by eapply generateDepExpr_imports_ok. }
    apply (Hfold _ _ _ Hf). simpl. done.
Qed.

(** X8.  The import bindings of a generated file have pairwise distinct
    names: the fixed name [dix] and one [id_n] alias per module path, no two
    paths sharing an alias. *)
Theorem GenerateFile_import_names_distinct `{Library} rc ri rim root
    moduleName config file :
  (∀ m, enumerates (rim m) m) →
  Emitter.GenerateFile rc ri rim root moduleName config = Ok file →
  NoDup (import_names file).
Proof.
  intros Hrim. unfold Emitter.GenerateFile.
  destruct (BuildOrder rc ri (Container config)) as [order| | |]; try done.
  simpl.
  destruct (foldM _ order _) as [st'| | |] eqn:Hloop; try done.
  simpl. intros [= <-].
  apply emit_items_imports_ok in Hloop as (H0 & Hwf & Hinj).
  2:{ simpl. split_and!; simpl; [done|..].
      - by intros ?? ?%lookup_empty_Some.
      - by intros ??? ?%lookup_empty_Some. }
  unfold import_names. simpl. case_decide; simpl; [|constructor].
  rewrite app_nil_r, <-list_fmap_compose.
  set (imports := Emitter.ImportID (Emitter.ctx st')) in *.
  assert (∀ e, e ∈ rim imports → imports !! e.1 = Some e.2) as Hin.
  { intros [m a] He. by apply (enumerates_elem _ _ _ _ (Hrim imports)). }
  constructor.
  - intros ([m a] & Heq & He)%list_elem_of_fmap. simpl in Heq.
    apply Hin in He. simpl in He.
    destruct (Hwf _ _ He) as (k & _ & Hk). by rewrite Hk in Heq.
  - apply NoDup_fmap_2_strong; [|].
    + intros [m1 a1] [m2 a2] Hm1%Hin Hm2%Hin Heq. simpl in *. subst a2.
      by rewrite (Hinj _ _ _ Hm1 Hm2).
    + eapply NoDup_fmap_1, enumerates_NoDup, Hrim.
Qed.




(** X10.  For a container without factories GenerateCode builds the file
    that holds the function Root with an empty body and nothing else: no
    import declaration and no call of [dix.Mark]. *)
Theorem GenerateFile_empty `{Library} rc ri rim root moduleName :
  enumerates rc (∅ : gmap string Factory) → (∀ m, enumerates (ri m) m) →
  Emitter.GenerateFile rc ri rim root moduleName {| Container := ∅ |}
  = Ok {| ast.PackageName := "dix";
          ast.Decls := [ast.FuncDecl "Root" []] |}.
Proof.
  intros Hrc Hri.
  assert (rc = []) as ->.
  { apply Permutation_nil_r. unfold enumerates in Hrc.
    by rewrite map_to_list_empty in Hrc. }
  assert (ri ∅ = []) as Hri0.
  { apply Permutation_nil_r. specialize (Hri ∅). unfold enumerates in Hri.
    by rewrite map_to_list_empty in Hri. }
  unfold Emitter.GenerateFile, BuildOrder, kahn_order. simpl.
  rewrite Hri0. simpl. reflexivity.
Qed.

(** ** The graph builder: dependencies, outcomes and order of annotations *)


Lemma split_caret_head s cur :
  ∃ tl, strings.split_from "^" s 0 cur
        = String.rev_app cur (Scan.span not_caret s).1 :: tl.
Proof.
  revert cur. induction s as [|ch s IH]; intros cur.
  - simpl. by eexists.
  - cbn [strings.split_from Scan.span].
    destruct (not_caret ch) eqn:Hch.
    + assert (String.prefix "^" (String ch s) = false) as ->.
      { cbn [String.prefix].
        destruct (ascii_dec "^" ch) as [<-|]; [by compute in Hch|done]. }
      destruct (IH (String ch cur)) as [tl ->]. simpl. by eexists.
    + assert (ch = "^"%char) as ->.
      { unfold not_caret in Hch. apply negb_false_iff, Nat.eqb_eq in Hch.
        rewrite <-(ascii_nat_embedding ch), Hch. done. }
      simpl. destruct s; by eexists.
Qed.

Lemma has_caret_prefix s :
  strings.HasPrefix s "^" = true → ∃ rest, s = String "^"%char rest.
Proof.
  unfold strings.HasPrefix. destruct s as [|ch s]; [done|].
  cbn [String.prefix]. destruct (ascii_dec "^" ch) as [<-|]; [eauto|done].
Qed.

(** The index [1] after the split on the caret is in range. *)
Lemma parse_dep_runs d : ∃ r, parse_dep d = Ok r.
Proof.
  unfold parse_dep.
  destruct (strings.HasPrefix (strings.TrimSpace d) "^") eqn:Hp; [|eauto].
  destruct (has_caret_prefix _ Hp) as [rest ->].
  unfold strings.Split. cbn.
  destruct (split_caret_head rest "") as [tl ->].
  destruct rest; simpl; eauto.
Qed.

(** X11.  Reading one dependency entry never fails, the index [1] after
    the split on the caret being in range: an entry that, trimmed, starts
    with a caret is standalone and named by the bytes between that caret and
    the next one, and any other entry is shared and named by the trimmed
    entry. *)
Theorem parse_dep_total d :
  (strings.HasPrefix (strings.TrimSpace d) "^" = false →
   parse_dep d = Ok (strings.TrimSpace d, false)) ∧
  (∀ rest, strings.TrimSpace d = String "^"%char rest →
   parse_dep d = Ok ((Scan.span not_caret rest).1, true)) ∧
  ∃ r, parse_dep d = Ok r.
Proof.
  unfold parse_dep. split_and!.
  - by intros ->.
  - intros rest Hd. rewrite Hd. unfold strings.HasPrefix, strings.Split.
    cbn. destruct (split_caret_head rest "") as [tl ->].
    by destruct rest.
  - apply parse_dep_runs.
Qed.

Lemma parse_dep_ref d :
  parse_dep d = Ok (Name (dep_ref d), Standalone (dep_ref d)).
Proof.
  unfold dep_ref.
  destruct (parse_dep_runs d) as [[n b] Hr]. by rewrite Hr.
Qed.

Lemma resolve_dep_spec container target module deps d :
  Scan.resolve_dep container target module deps d
  = if decide (is_Some (container !! Name (dep_ref d)))
    then Ok (deps ++ [dep_ref d])
    else Err (unresolved_error (Name (dep_ref d)) target module).
Proof.
  unfold Scan.resolve_dep. fold (parse_dep d). rewrite parse_dep_ref. simpl.
  destruct (container !! Name (dep_ref d)) eqn:Hc.
  - rewrite decide_True by eauto. by destruct (dep_ref d).
  - rewrite decide_False; [done|]. by intros [??].
Qed.

Lemma resolve_deps_all container target module ds :
  ∀ acc,
    Forall (λ d, is_Some (container !! Name (dep_ref d))) ds →
    foldM (Scan.resolve_dep container target module) ds acc
    = Ok (acc ++ (dep_ref <$> ds)).
Proof.
  induction ds as [|d ds IH]; intros acc Hall; simpl.
  - by rewrite app_nil_r.
  - apply Forall_cons in Hall as [Hd Hds].
    rewrite resolve_dep_spec, decide_True by done. simpl.
    rewrite IH by done. by rewrite <-app_assoc.
Qed.

(** X12.  For a Wire annotation whose target is a key, the second loop
    replaces the target's dependencies by the entries of the annotation, in
    their order, when every entry names a key; and it stops with the error
    "Can't resolve dependency", naming the first entry that names no key,
    the target and the target's module, otherwise. *)
Theorem add_wire_outcome container w f :
  container !! WireAnnotation.Target w = Some f →
  (Forall (λ d, is_Some (container !! Name (dep_ref d)))
     (WireAnnotation.Deps w) →
   Scan.add_wire container (Scan.IsWire w)
   = Ok (<[WireAnnotation.Target w :=
             set_deps f (dep_ref <$> WireAnnotation.Deps w)]> container)) ∧
  (∀ ds1 d ds2,
     WireAnnotation.Deps w = ds1 ++ d :: ds2 →
     Forall (λ d, is_Some (container !! Name (dep_ref d))) ds1 →
     container !! Name (dep_ref d) = None →
     Scan.add_wire container (Scan.IsWire w)
     = Err (unresolved_error (Name (dep_ref d)) (WireAnnotation.Target w)
              (Module f))).
Proof.
  intros Hf. unfold Scan.add_wire. rewrite Hf. split.
  - intros Hall. by rewrite resolve_deps_all.
  - intros ds1 d ds2 -> Hall Hnone. rewrite foldM_app.
    rewrite resolve_deps_all by done. simpl.
    rewrite resolve_dep_spec, decide_False; [done|].
    rewrite Hnone. by intros [??].
Qed.

Lemma add_factory_built `{Library} modPath container a c :
  Scan.add_factory modPath container a = Ok c → built container → built c.
Proof.
  destruct a as [fa| | |]; simpl; try by intros [= <-].
  destruct (container !! FactoryAnnotation.Alias fa) eqn:Hc;
    [by case_decide|].
  intros [= <-] Hb a f.
  destruct (decide (FactoryAnnotation.Alias fa = a)) as [<-|Hne].
  - rewrite lookup_insert_eq. intros [= <-]. simpl. split_and!; [done..|].
    constructor.
  - rewrite lookup_insert_ne by done. intros Hf.
    destruct (Hb _ _ Hf) as (? & ? & Hd). split_and!; [done..|].
    eapply Forall_impl; [exact Hd|]. simpl. intros d Hs.
    rewrite lookup_insert_is_Some.
    destruct (decide (FactoryAnnotation.Alias fa = Name d)); auto.
Qed.

Lemma resolve_deps_inv container target module ds :
  ∀ acc deps,
    foldM (Scan.resolve_dep container target module) ds acc = Ok deps →
    Forall (λ d, is_Some (container !! Name d)) acc →
    Forall (λ d, is_Some (container !! Name d)) deps.
Proof.
  induction ds as [|d ds IH]; intros acc deps; simpl.
  - by intros [= <-].
  - rewrite resolve_dep_spec. case_decide as Hd; [|done]. simpl.
    intros Hds Hacc. apply (IH _ _ Hds).
    apply Forall_app. split; [done|]. by constructor.
Qed.

Lemma add_wire_built container a c :
  Scan.add_wire container a = Ok c → built container → built c.
Proof.
  destruct a as [|w| |]; simpl; try by intros [= <-].
  destruct (container !! WireAnnotation.Target w) as [f|] eqn:Hf;
    [|by intros [= <-]].
  destruct (foldM _ _ _) as [deps| | |] eqn:Hd; try done. simpl.
  intros [= <-] Hb a fa.
  assert (∀ k, is_Some (container !! k) →
               is_Some (<[WireAnnotation.Target w :=
                            set_deps f deps]> container !! k)) as Hmono.
  { intros k Hk. rewrite lookup_insert_is_Some.
    destruct (decide (WireAnnotation.Target w = k)); auto. }
  destruct (decide (WireAnnotation.Target w = a)) as [<-|Hne].
  - rewrite lookup_insert_eq. intros [= <-]. simpl.
    destruct (Hb _ _ Hf) as (? & ? & _). split_and!; [done..|].
    apply resolve_deps_inv in Hd; [|constructor].
    eapply Forall_impl; [exact Hd|]. intros d. apply Hmono.
  - rewrite lookup_insert_ne by done. intros Hfa.
    destruct (Hb _ _ Hfa) as (? & ? & Hds). split_and!; [done..|].
    eapply Forall_impl; [exact Hds|]. intros d. apply Hmono.
Qed.

Lemma foldM_invariant {A S} (body : S → A → outcome S) (P : S → Prop) l :
  (∀ s x s', body s x = Ok s' → P s → P s') →
  ∀ s s', foldM body l s = Ok s' → P s → P s'.
Proof.
  intros Hstep. induction l as [|x l IH]; intros s s'; simpl.
  - by intros [= <-].
  - destruct (body s x) as [s1| | |] eqn:Hb; try done. simpl.
    intros Hl Hs. apply (IH _ _ Hl). by eapply Hstep.
Qed.

Lemma build_graph_built `{Library} modPath anns config :
  Scan.build_graph modPath anns = Ok config → built (Container config).
Proof.
  unfold Scan.build_graph.
  destruct (foldM (Scan.add_factory modPath) anns ∅) as [c1| | |] eqn:H1;
    try done.
  simpl. destruct (foldM Scan.add_wire anns c1) as [c2| | |] eqn:H2; try done.
  simpl. intros [= <-]. simpl.
  eapply (foldM_invariant _ built); [|exact H2|].
  { intros. by eapply add_wire_built. }
  eapply (foldM_invariant _ built); [|exact H1|].
  { intros. by eapply add_factory_built. }
  by intros ?? ?%lookup_empty_Some.
Qed.

Lemma built_schedulable c : built c → resolved c ∧ usable c.
Proof.
  intros Hb. unfold resolved, usable, depnames. split; intros a f Hf;
    destruct (Hb _ _ Hf) as (_ & _ & Hd); apply Forall_fmap;
    eapply Forall_impl; try exact Hd; simpl; intros d [fd Hfd]; [eauto|].
  rewrite Hfd. simpl. destruct (Hb _ _ Hfd) as (? & ? & _). done.
Qed.

(** X13.  A configuration returned by the graph builder has every
    dependency name as a key and no flagged factory, so BuildOrder neither
    panics on it nor reports a flagged dependency: it returns an order, or
    the error "circular dependency detected". *)
Theorem build_graph_schedulable `{Library} modPath anns config rc ri :
  Scan.build_graph modPath anns = Ok config →
  enumerates rc (Container config) → (∀ m, enumerates (ri m) m) →
  resolved (Container config) ∧ usable (Container config) ∧
  ((∃ order, BuildOrder rc ri (Container config) = Ok order) ∨
   BuildOrder rc ri (Container config) = Err "circular dependency detected").
Proof.
  intros Hg Hrc Hri.
  destruct (built_schedulable _ (build_graph_built _ _ _ Hg)) as [Hres Hus].
  split_and!; [done..|].
  destruct (BuildOrder_run rc ri _ Hrc Hri Hres Hus) as (o & Hk & Hdr).
  unfold BuildOrder. rewrite Hk. simpl. case_decide; [by right|].
  left. rewrite split_finals_ok by apply Hdr. eauto.
Qed.

Lemma foldM_invariant_elem {A S} (body : S → A → outcome S) (P : S → Prop)
    l :
  (∀ s x s', x ∈ l → body s x = Ok s' → P s → P s') →
  ∀ s s', foldM body l s = Ok s' → P s → P s'.
Proof.
  induction l as [|x l IH]; intros Hstep s s'; simpl.
  - by intros [= <-].
  - destruct (body s x) as [s1| | |] eqn:Hb; try done. simpl.
    intros Hl Hs. apply (IH (λ s x s' Hx, Hstep s x s' (list_elem_of_further _ _ _ Hx))
                           _ _ Hl).
    eapply Hstep; [by left|done..].
Qed.

Lemma add_factories_has `{Library} modPath l :
  ∀ c0 c,
    foldM (Scan.add_factory modPath) l c0 = Ok c →
    (∀ k, is_Some (c0 !! k) → is_Some (c !! k)) ∧
    ∀ fa, Scan.IsFactory fa ∈ l →
          is_Some (c !! FactoryAnnotation.Alias fa).
Proof.
  induction l as [|a l IH]; intros c0 c; simpl.
  - intros [= <-]. split; [done|]. by intros ? ?%elem_of_nil.
  - destruct (Scan.add_factory modPath c0 a) as [c1| | |] eqn:Ha; try done.
    simpl. intros Hl. destruct (IH _ _ Hl) as [Hmono Hin].
    assert (∀ k, is_Some (c0 !! k) → is_Some (c1 !! k)) as Hmono1.
    { intros k Hk. destruct a as [fa| | |]; simpl in Ha;
        try (by injection Ha as <-).
      destruct (c0 !! FactoryAnnotation.Alias fa); [by case_decide|].
      injection Ha as <-. rewrite lookup_insert_is_Some.
      destruct (decide (FactoryAnnotation.Alias fa = k)); auto. }
    split; [by auto|].
    intros fa [<-|Hfa]%elem_of_cons; [|by apply Hin].
    apply Hmono. simpl in Ha.
    destruct (c0 !! FactoryAnnotation.Alias fa); [by case_decide|].
    injection Ha as <-. rewrite lookup_insert_eq. eauto.
Qed.

(** X14.  In a configuration returned by the graph builder the keys are
    the aliases of the Factory annotations, no two Factory annotations share
    an alias, and the factory of a key has the function of its annotation and
    the module path joined with the annotation's directory; its Alias field
    is left empty and its flags are unset. *)
Theorem build_graph_factories `{Library} modPath anns config :
  Scan.build_graph modPath anns = Ok config →
  (∀ alias, is_Some (Container config !! alias) ↔
            ∃ fa, Scan.IsFactory fa ∈ anns ∧
                  FactoryAnnotation.Alias fa = alias) ∧
  (∀ alias f, Container config !! alias = Some f →
              entered_for modPath anns alias f) ∧
  (∀ (i j : nat) fa1 fa2,
     anns !! i = Some (Scan.IsFactory fa1) →
     anns !! j = Some (Scan.IsFactory fa2) →
     FactoryAnnotation.Alias fa1 = FactoryAnnotation.Alias fa2 → i = j).
Proof.
  unfold Scan.build_graph.
  destruct (foldM (Scan.add_factory modPath) anns ∅) as [c1| | |] eqn:H1;
    try done.
  simpl. destruct (foldM Scan.add_wire anns c1) as [c2| | |] eqn:H2; try done.
  simpl. intros [= <-]. simpl. split_and!.
  - intros alias. rewrite (add_wires_keys _ _ _ _ H2). split.
    + intros Hk. destruct (add_factories_keys _ _ _ _ _ H1 Hk) as [Hk'|?];
        [|done]. by apply is_Some_None in Hk'.
    + intros (fa & Hfa & <-). by apply (add_factories_has _ _ _ _ H1).
  - eapply (foldM_invariant _ (λ c, ∀ alias f, c !! alias = Some f →
                                     entered_for modPath anns alias f));
      [|exact H2|].
    { intros s x s' Hx Hs alias f. destruct x as [|w| |]; simpl in Hx;
        try (injection Hx as <-; by apply Hs).
      destruct (s !! WireAnnotation.Target w) as [ft|] eqn:Hft;
        [|injection Hx as <-; by apply Hs].
      destruct (foldM (Scan.resolve_dep _ _ _) _ _); try done.
      simpl in Hx. injection Hx as <-.
      destruct (decide (WireAnnotation.Target w = alias)) as [<-|Hne].
      - rewrite lookup_insert_eq. intros [= <-].
        destruct (Hs _ _ Hft) as (fa & ?). exists fa. simpl. done.
      - rewrite lookup_insert_ne by done. apply Hs. }
    eapply (foldM_invariant_elem _
              (λ c, ∀ alias f, c !! alias = Some f →
                               entered_for modPath anns alias f));
      [|exact H1|].
    { intros s x s' Hin Hx Hs alias f. destruct x as [fa| | |]; simpl in Hx;
        try (injection Hx as <-; by apply Hs).
      destruct (s !! FactoryAnnotation.Alias fa); [by case_decide|].
      injection Hx as <-.
      destruct (decide (FactoryAnnotation.Alias fa = alias)) as [<-|Hne].
      - rewrite lookup_insert_eq. intros [= <-]. by exists fa.
      - rewrite lookup_insert_ne by done. apply Hs. }
    by intros ?? ?%lookup_empty_Some.
  - intros i j fa1 fa2 Hi Hj Heq.
    destruct (decide (i = j)) as [|Hne]; [done|]. exfalso.
    assert (∃ (i j : nat) f1 f2,
              (i < j)%nat ∧ ([] ++ anns) !! i = Some (Scan.IsFactory f1) ∧
              ([] ++ anns) !! j = Some (Scan.IsFactory f2) ∧
              FactoryAnnotation.Alias f1 = FactoryAnnotation.Alias f2 ∧
              (length (@nil Scan.Annotation) ≤ j)%nat) as Hdup.
    { destruct (decide (i < j)%nat).
      - exists i, j, fa1, fa2. simpl. split_and!; [done..|lia].
      - exists j, i, fa2, fa1. simpl. split_and!; [lia|done..|lia]. }
    apply (add_factories_duplicate modPath anns [] ∅) in Hdup
      as (? & ? & ? & ? & _ & _ & _ & _ & Herr).
    + congruence.
    + split; [by intros ?? ?%lookup_empty_Some|].
      intros ?? Hnil. by rewrite lookup_nil in Hnil.
Qed.

Lemma foldM_ext {A S} (body1 body2 : S → A → outcome S) l s :
  (∀ s x, body1 s x = body2 s x) → foldM body1 l s = foldM body2 l s.
Proof.
  intros Hext. revert s. induction l as [|x l IH]; intros s; simpl; [done|].
  rewrite Hext. destruct (body2 s x); simpl; auto.
Qed.

(** X15.  Of two Wire annotations for one target passed in a row the
    second loop keeps the later one only: after the first has been attached,
    the second gives the container that it gives without the first. *)
Theorem add_wire_overrides container w1 w2 c1 :
  WireAnnotation.Target w1 = WireAnnotation.Target w2 →
  Scan.add_wire container (Scan.IsWire w1) = Ok c1 →
  Scan.add_wire c1 (Scan.IsWire w2)
  = Scan.add_wire container (Scan.IsWire w2).
Proof.
  intros Ht. simpl. rewrite <-Ht.
  destruct (container !! WireAnnotation.Target w1) as [f|] eqn:Hf.
  - destruct (foldM _ (WireAnnotation.Deps w1) _) as [deps1| | |]; try done.
    simpl. intros [= <-]. rewrite lookup_insert_eq. simpl.
    rewrite (foldM_ext
               (Scan.resolve_dep
                  (<[WireAnnotation.Target w1 := _]> container)
                  (WireAnnotation.Target w1) (Module f))
               (Scan.resolve_dep container (WireAnnotation.Target w1)
                  (Module f))).
    + destruct (foldM _ (WireAnnotation.Deps w2) _); simpl; try done.
      by rewrite insert_insert_eq.
    + intros s x. rewrite !resolve_dep_spec.
      assert (is_Some (<[WireAnnotation.Target w1 :=
                {| Alias := Alias f; Function := Function f; Deps := deps1;
                   Module := Module f; Final := Final f;
                   Disable := Disable f; di.File := di.File f;
                   Pos := Pos f |}]> container !! Name (dep_ref x))
              ↔ is_Some (container !! Name (dep_ref x))) as Hk.
      { rewrite lookup_insert_is_Some. split.
        - intros [<-|[_ ?]]; eauto.
        - intros ?.
          destruct (decide (WireAnnotation.Target w1 = Name (dep_ref x)));
            auto. }
      repeat case_decide; try done; tauto.
  - intros [= <-]. by rewrite Hf.
Qed.

Lemma foldM_skip {A S} (body : S → A → outcome S) l s :
  (∀ s x, x ∈ l → body s x = Ok s) → foldM body l s = Ok s.
Proof.
  revert s. induction l as [|x l IH]; intros s Hskip; simpl; [done|].
  rewrite Hskip by by left. simpl. apply IH.
  intros s' y Hy. apply Hskip. by right.
Qed.

Lemma foldM_filter {A S} (body : S → A → outcome S) (P : A → Prop)
    `{!∀ x, Decision (P x)} l s :
  (∀ s x, ¬ P x → body s x = Ok s) →
  foldM body (filter P l) s = foldM body l s.
Proof.
  intros Hskip. revert s. induction l as [|x l IH]; intros s; [done|].
  rewrite filter_cons. case_decide as Hx; simpl.
  - destruct (body s x); simpl; auto.
  - rewrite (Hskip _ _ Hx). simpl. apply IH.
Qed.

(** X16.  The graph builder reads the Factory annotations in a first pass
    and the Wire annotations in a second one, so only the order inside each
    kind counts: the result is that on the list of the Factory annotations
    followed by the Wire annotations, and Final and Disable annotations have
    no effect. *)
Theorem build_graph_two_pass `{Library} modPath anns :
  Scan.build_graph modPath anns
  = Scan.build_graph modPath (filter is_factory anns ++ filter is_wire anns).
Proof.
  unfold Scan.build_graph. rewrite !foldM_app.
  assert (Hf : ∀ s x, ¬ is_factory x → Scan.add_factory modPath s x = Ok s).
  { intros s [] Hx; simpl in *; done || by destruct Hx. }
  assert (Hw : ∀ s x, ¬ is_wire x → Scan.add_wire s x = Ok s).
  { intros s [] Hx; simpl in *; done || by destruct Hx. }
  rewrite (foldM_filter _ is_factory anns ∅ Hf).
  destruct (foldM (Scan.add_factory modPath) anns ∅) as [c1| | |]; simpl;
    try done.
  rewrite (foldM_skip (Scan.add_factory modPath)).
  2:{ intros s x [Hx _]%list_elem_of_filter. destruct x; done. }
  simpl. rewrite foldM_app.
  rewrite (foldM_skip Scan.add_wire (filter is_factory anns)).
  2:{ intros s x [Hx _]%list_elem_of_filter. destruct x; done. }
  simpl. by rewrite (foldM_filter _ is_wire anns c1 Hw).
Qed.

(** X17.  The graph builder never panics: it returns a configuration, or
    one of the two duplicate-alias errors, or the error "Can't resolve
    dependency". *)
Theorem build_graph_outcomes `{Library} modPath anns :
  (∃ config, Scan.build_graph modPath anns = Ok config) ∨
  (∃ alias module,
     Scan.build_graph modPath anns
       = Err ("Duplicate Alias " +:+ alias +:+ " in " +:+ module) ∨
     Scan.build_graph modPath anns
       = Err ("Alias " +:+ alias +:+ " used by " +:+ module)) ∨
  (∃ depName target module,
     Scan.build_graph modPath anns
       = Err (unresolved_error depName target module)).
Proof.
  unfold Scan.build_graph.
  destruct (foldM_inv _ _ _ _
              (eq_refl (foldM (Scan.add_factory modPath) anns ∅)))
    as [[c1 ->]|(l1 & x & l2 & s1 & _ & _ & Hx & Hne)].
  - simpl.
    destruct (foldM_inv _ _ _ _ (eq_refl (foldM Scan.add_wire anns c1)))
      as [[c2 ->]|(l1 & x & l2 & s1 & _ & _ & Hx & Hne)]; [left; eauto|].
    right. right. rewrite <-Hx.
    destruct x as [|w| |]; simpl in *; try (by edestruct Hne).
    rewrite <-Hx in Hne.
    destruct (s1 !! WireAnnotation.Target w) as [f|]; [|by edestruct Hne].
    destruct (foldM_inv _ _ _ _
                (eq_refl (foldM (Scan.resolve_dep s1
                                   (WireAnnotation.Target w) (Module f))
                            (WireAnnotation.Deps w) [])))
      as [[deps Hd]|(d1 & d & d2 & acc & _ & _ & Hd & Hned)].
    + rewrite Hd in Hne. simpl in Hne. by edestruct Hne.
    + rewrite <-Hd. rewrite resolve_dep_spec in *.
      case_decide; [by edestruct Hned|]. simpl. eauto.
  - right. left. rewrite <-Hx. rewrite <-Hx in Hne.
    destruct x as [fa| | |]; simpl in *; try (by edestruct Hne).
    destruct (s1 !! FactoryAnnotation.Alias fa) as [ex|];
      [|by edestruct Hne].
    exists (FactoryAnnotation.Alias fa), (Module ex).
    case_decide; simpl; auto.
Qed.

(** ** The directive parsers on the text of a value *)


Lemma append_assoc (a b c : string) : (a +:+ b) +:+ c = a +:+ (b +:+ c).
Proof.
  induction a as [|ch a IH]; [done|].
  change (String ch ((a +:+ b) +:+ c) = String ch (a +:+ b +:+ c)).
  by rewrite IH.
Qed.



Lemma span_stop p s ch r : (Scan.span p s).2 = String ch r → p ch = false.
Proof.
  induction s as [|c s IH]; [done|].
  cbn [Scan.span]. destruct (p c) eqn:Hp; simpl; [done|].
  by intros [= <- <-].
Qed.









(** ** Comments of a file and the directory walk *)









Section files.
Context `{Library} `{Files.FileSystem}.









End files.

(** ** The scheduler of the previous revision *)

(** The first loop of the previous revision is the current one without its
    checks. *)
Lemma previous_add_edges c a deps st :
  Forall (dep_ok c) deps →
  foldM (add_edge c a) deps st = Ok (foldl (Previous.add_edge a) st deps).
Proof.
  intros Hall. revert st.
  induction Hall as [|dep deps (fd & Hfd & Hf & Hd) _ IH]; intros st; [done|].
  simpl. unfold add_edge at 2. rewrite Hfd, Hf, Hd. simpl. apply IH.
Qed.

Lemma previous_visits c l st :
  Forall (λ en : string * Factory, Forall (dep_ok c) (Deps en.2)) l →
  foldM (visit c) l st = Ok (foldl Previous.visit st l).
Proof.
  intros Hall. revert st. induction Hall as [|en l Hen _ IH]; intros st; [done|].
  simpl. unfold visit at 2.
  rewrite (previous_add_edges c en.1 (Deps en.2) _ Hen). simpl. apply IH.
Qed.

(** The edges of the previous revision are those of the graph, whether the
    dependency names are keys or not. *)
Lemma previous_edges_for rc c :
  enumerates rc c → edges_for c (Previous.build_edges rc).
Proof.
  intros He.
  set (names := rc ≫= λ en : string * Factory, depnames en.2).
  set (blank := {| Alias := ""; Function := ""; Deps := []; Module := "";
                   Final := false; Disable := false; di.File := "";
                   Pos := "" |}).
  set (c' := gset_to_gmap blank (list_to_set names : gset string)).
  assert (Forall (λ en : string * Factory, Forall (dep_ok c') (Deps en.2)) rc)
    as Hok.
  { apply Forall_forall. intros en Hen. apply Forall_forall. intros d Hd.
    exists blank. split; [|done]. apply lookup_gset_to_gmap_Some.
    split; [|done].
    apply elem_of_list_to_set, list_elem_of_bind. exists en. split; [|done].
    unfold depnames. apply list_elem_of_fmap. eauto. }
  pose proof (previous_visits c' rc {| indegree := ∅; graph := ∅ |} Hok)
    as Hrun.
  fold (Previous.build_edges rc) in Hrun.
  apply visits_ok in Hrun as (_ & H2 & H3 & H4);
    [|by eapply enumerates_NoDup|done].
  simpl in *. split.
  - intros a f Hf. apply H3. by apply (enumerates_elem _ _ _ _ He).
  - intros a Ha. rewrite H2; [done|].
    rewrite (enumerates_keys _ _ _ He), Ha. by intros [??].
  - intros d F. rewrite H4. unfold graph_at at 1. rewrite lookup_empty.
    simpl. intros HF%successors_of_elem.
    by apply (enumerates_keys _ _ _ He).
  - intros F f d Hf. rewrite H4. unfold graph_at at 1. rewrite lookup_empty.
    simpl. apply successors_of_count; [by eapply enumerates_NoDup|].
    by apply (enumerates_elem _ _ _ _ He).
Qed.

Lemma previous_run rc ri c :
  enumerates rc c → (∀ m, enumerates (ri m) m) →
  ∃ order,
    drained c order ∧
    Previous.BuildOrder rc ri c
    = if decide (length order ≠ size c)
      then Err "circular dependency detected" else Ok order.
Proof.
  intros Hrc Hri. pose proof (previous_edges_for rc c Hrc) as Hef.
  unfold Previous.BuildOrder.
  set (e := Previous.build_edges rc) in *.
  assert (Hsize : size (indegree e) = size c).
  { rewrite <-!size_dom. f_equal. apply set_eq. intros a.
    rewrite !elem_of_dom. destruct (c !! a) as [f|] eqn:Hc.
    - rewrite (ef_indegree _ _ Hef _ _ Hc). split; eauto.
    - rewrite (ef_indegree_none _ _ Hef _ Hc). split; by intros [??]. }
  destruct (drain_inv c (graph e) (ef_graph_dom _ _ Hef)
              (ef_graph_count _ _ Hef)
              (length (seed (ri (indegree e))) + size (indegree e))
              (seed (ri (indegree e))) (indegree e) [])
    as (o & indeg' & Hd & Hinv).
  - apply inv_init; auto.
  - simpl. lia.
  - exists o. split; [by eapply inv_drained|]. simpl. by rewrite Hd.
Qed.

(** A full order left by the loop shows the graph resolved and acyclic. *)
Lemma drained_full c o :
  drained c o → length o = size c →
  resolved c ∧ acyclic c ∧ lists_each_alias_once c o ∧ topological c o.
Proof.
  intros Hdr Hlen.
  assert (∀ a, is_Some (c !! a) → a ∈ o) as Hall.
  { apply keys_all; [apply Hdr..|done]. }
  assert (resolved c) as Hres.
  { intros a f Hf. simpl. apply Forall_forall. intros d Hd.
    apply (dr_dom _ _ Hdr).
    assert (a ∈ o) as Ha by (apply Hall; eauto).
    apply (dr_ready _ _ Hdr _ _ Hf) in Ha. rewrite Forall_forall in Ha.
    by apply Ha. }
  split_and!; [done| | |apply Hdr].
  - apply (topological_acyclic c o); [done|apply Hdr|done|apply Hdr].
  - split; [apply Hdr|]. intros a. split; [apply Hdr|apply Hall].
Qed.

(** X24.  The BuildOrder of the previous revision never panics: it returns
    an order exactly for the containers whose dependency names are all keys
    and whose graph is acyclic, and that order holds every alias once, each
    after its dependencies; for every other container, one with a dependency
    on a name that is no key included, it returns the circular-dependency
    error. *)
Theorem previous_BuildOrder_outcome rc ri c :
  enumerates rc c → (∀ m, enumerates (ri m) m) →
  (resolved c ∧ acyclic c ∧
   ∃ order, Previous.BuildOrder rc ri c = Ok order ∧
            lists_each_alias_once c order ∧ topological c order) ∨
  (¬ (resolved c ∧ acyclic c) ∧
   Previous.BuildOrder rc ri c = Err "circular dependency detected").
Proof.
  intros Hrc Hri.
  destruct (previous_run rc ri c Hrc Hri) as (o & Hdr & ->).
  destruct (decide (length o ≠ size c)) as [Hne|Hlen%dec_stable].
  - right. split; [|done]. intros [Hres Hac]. apply Hne.
    apply keys_all; [apply Hdr..|]. by apply drained_complete.
  - left. destruct (drained_full c o Hdr Hlen) as (Hres & Hac & Honce & Ht).
    split_and!; [done..|]. by exists o.
Qed.

(** X25.  On a container without flagged factories whose dependency names
    are all keys, the BuildOrder of the current revision returns what the
    one of the previous revision returns, for the same enumerations. *)
Theorem BuildOrder_extends_previous rc ri c :
  enumerates rc c → (∀ m, enumerates (ri m) m) →
  resolved c → map_Forall (λ _ f, unflagged f) c →
  BuildOrder rc ri c = Previous.BuildOrder rc ri c.
Proof.
  intros Hrc Hri Hres Hun.
  assert (Forall (λ en : string * Factory, Forall (dep_ok c) (Deps en.2)) rc)
    as Hok.
  { apply Forall_forall. intros [a f] Hin.
    apply (enumerates_elem _ _ _ _ Hrc) in Hin. simpl.
    apply Forall_forall. intros d Hd.
    specialize (Hres a f Hin). simpl in Hres. rewrite Forall_forall in Hres.
    destruct (Hres (Name d)) as [fd Hfd].
    { unfold depnames. apply list_elem_of_fmap. eauto. }
    exists fd. split; [done|]. by apply (Hun (Name d)). }
  pose proof (previous_visits c rc {| indegree := ∅; graph := ∅ |} Hok)
    as Hrun.
  fold (Previous.build_edges rc) in Hrun. fold (build_edges c rc) in Hrun.
  destruct (kahn_order_run rc ri c _ Hri Hrun (previous_edges_for rc c Hrc))
    as (o & Hk & Hdr).
  unfold BuildOrder. rewrite Hk. simpl.
  unfold kahn_order in Hk. rewrite Hrun in Hk. simpl in Hk.
  unfold Previous.BuildOrder.
  destruct (drain _ _ _ _ _) as [o'|]; [|done]. injection Hk as ->.
  case_decide; [done|].
  rewrite split_finals_ok by apply Hdr.
  assert (∀ a, a ∈ o → is_final c a = false) as Hnf.
  { intros a Ha. unfold is_final.
    destruct (dr_dom _ _ Hdr a Ha) as [f Hf]. rewrite Hf. simpl.
    by destruct (Hun a f Hf). }
  f_equal. clear -Hnf. induction o as [|a o IH]; [done|].
  assert (is_final c a = false) as Ha by (apply Hnf; set_solver).
  rewrite filter_cons_True by (rewrite Ha; exact id).
  rewrite (filter_cons_False (is_final c)) by (rewrite Ha; exact id).
  simpl. f_equal. apply IH. intros b Hb. apply Hnf. set_solver.
Qed.

(** ** The emitter of the previous revision *)

Lemma names_ok_fresh ctx ctx' declared :
  Emitter.ImportID ctx' = Emitter.ImportID ctx →
  Emitter.Counter ctx' = Emitter.Counter ctx + 1 →
  Previous.names_ok ctx declared →
  Previous.names_ok ctx'
    (declared ++ ["id_" +:+ pretty (Emitter.Counter ctx + 1)]).
Proof.
  intros HI HC (H0 & Hnd & Hall). unfold Previous.names_ok.
  rewrite HI, HC.
  set (vals := (map_to_list (Emitter.ImportID ctx)).*2) in *.
  set (id := "id_" +:+ pretty (Emitter.Counter ctx + 1)).
  assert ((declared ++ [id]) ++ vals ≡ₚ id :: (declared ++ vals)) as ->.
  { rewrite <-app_assoc. simpl. by rewrite <-Permutation_middle. }
  rewrite Forall_forall in Hall. split_and!.
  - lia.
  - apply NoDup_cons. split; [|done]. intros Hin.
    destruct (Hall _ Hin) as (k & Hk & Heq). apply id_name_inj in Heq. lia.
  - apply Forall_cons. split.
    + exists (Emitter.Counter ctx + 1). split; [lia|done].
    + apply Forall_forall. intros a Ha.
      destruct (Hall _ Ha) as (k & Hk & ->). exists k. split; [lia|done].
Qed.

Lemma ResolveImport_names_ok ctx m declared :
  Previous.names_ok ctx declared →
  Previous.names_ok (Emitter.ResolveImport ctx m).2 declared.
Proof.
  intros Hok. unfold Emitter.ResolveImport.
  destruct (Emitter.ImportID ctx !! m) as [a|] eqn:Hm; simpl; [done|].
  destruct Hok as (H0 & Hnd & Hall). unfold Previous.names_ok. simpl.
  rewrite map_to_list_insert by done. rewrite fmap_cons. simpl.
  set (vals := (map_to_list (Emitter.ImportID ctx)).*2) in *.
  set (id := "id_" +:+ pretty (Emitter.Counter ctx + 1)).
  rewrite <-Permutation_middle.
  rewrite Forall_forall in Hall. split_and!.
  - lia.
  - apply NoDup_cons. split; [|done]. intros Hin.
    destruct (Hall _ Hin) as (k & Hk & Heq). apply id_name_inj in Heq. lia.
  - apply Forall_cons. split.
    + exists (Emitter.Counter ctx + 1). split; [lia|done].
    + apply Forall_forall. intros a Ha.
      destruct (Hall _ Ha) as (k & Hk & ->). exists k. split; [lia|done].
Qed.

Lemma generateDepExpr_names_ok fuel config declared :
  ∀ ctx dep e ctx',
    Emitter.generateDepExpr fuel ctx dep config = Ok (e, ctx') →
    Previous.names_ok ctx declared → Previous.names_ok ctx' declared.
Proof.
  induction fuel as [|fuel IH]; intros ctx dep e ctx'; simpl.
  - destruct (Standalone dep); [done|]. by intros [= _ <-].
  - destruct (Standalone dep); [|by intros [= _ <-]].
    destruct (Container config !! Name dep) as [f|]; [|done].
    assert (∀ l st st',
      foldM (λ (st : list ast.Expr * Emitter.GenContext) sub,
               r' ← Emitter.generateDepExpr fuel st.2 sub config;
               Ok (st.1 ++ [r'.1], r'.2)) l st = Ok st' →
      Previous.names_ok st.2 declared → Previous.names_ok st'.2 declared)
      as Hfold.
    { induction l as [|d l IHl]; intros st st'; simpl.
      - by intros [= <-].
      - destruct (Emitter.generateDepExpr fuel st.2 d config)
          as [[e1 c1]| | |] eqn:Hg; try done.
        simpl. intros Hl Hok. apply (IHl _ _ Hl). simpl. by eapply IH. }
    destruct (foldM _ (Deps f) _) as [st| | |] eqn:Hf; try done.
    simpl. intros [= _ <-] Hok. apply (Hfold _ _ _ Hf). simpl.
    by apply ResolveImport_names_ok.
Qed.

Section previous_emitter.
Variable c : gmap string Factory.
Variable order : list string.
Hypothesis Hkeys : ∀ a, a ∈ order → is_Some (c !! a).
Hypothesis Hearlier : ∀ (i : nat) a f d,
  order !! i = Some a → c !! a = Some f → d ∈ Deps f →
  ∃ j : nat, (j < i)%nat ∧ order !! j = Some (Name d).

(** The loop over [order] runs to its end, and names every variable
    afresh. *)
Lemma previous_emit_loop l :
  ∀ done st,
    order = done ++ l →
    Previous.names_ok (Previous.ctx st)
      (Previous.stmts st ≫= Previous.assigned) →
    ∃ st',
      foldM (Previous.emit_item (length order) {| Container := c |}) l st
        = Ok st' ∧
      Previous.names_ok (Previous.ctx st')
        (Previous.stmts st' ≫= Previous.assigned) ∧
      length (Previous.depIdents st')
        = (length (Previous.depIdents st) + length l)%nat.
Proof.
  induction l as [|item l IH]; intros done st Horder Hok; simpl.
  - exists st. split_and!; [done|done|lia].
  - assert (Hitem : order !! length done = Some item).
    { rewrite Horder. by apply list_lookup_middle. }
    destruct (Hkeys item) as [f Hf]; [by eapply list_elem_of_lookup_2|].
    set (id := "id_" +:+ pretty (Emitter.Counter (Previous.ctx st) + 1)).
    set (ctx1 := {| Emitter.ImportID := Emitter.ImportID (Previous.ctx st);
                    Emitter.Container :=
                      <[item := id]> (Emitter.Container (Previous.ctx st));
                    Emitter.Counter :=
                      Emitter.Counter (Previous.ctx st) + 1 |}).
    set (declared := (Previous.stmts st ≫= Previous.assigned) ++ [id]).
    assert (Previous.names_ok ctx1 declared) as Hok1.
    { by apply (names_ok_fresh (Previous.ctx st)). }
    assert (∀ ds acc ctx2,
      (∀ d, d ∈ ds → d ∈ Deps f) →
      Previous.names_ok ctx2 declared →
      ∃ es ctx3,
        foldM (λ (a : list ast.Expr * Emitter.GenContext) dep,
                 r ← Emitter.generateDepExpr (length order) a.2 dep
                       {| Container := c |};
                 Ok (a.1 ++ [r.1], r.2)) ds (acc, ctx2)
          = Ok (es, ctx3) ∧
        Previous.names_ok ctx3 declared) as Hfold.
    { induction ds as [|d ds IHds]; intros acc ctx2 Hds Hc2; simpl.
      - by exists acc, ctx2.
      - destruct (Hearlier _ _ f d Hitem Hf) as (j & Hlt & Hj);
          [apply Hds; by left|].
        destruct (generateDepExpr_ok c c order) with
          (fuel := length order) (ctx := ctx2) (dep := d) (j := j)
          as (e & ctx2' & Hg & _); [by eauto|done|done|done| |].
        { apply lookup_lt_Some in Hitem. lia. }
        rewrite Hg. simpl. apply IHds.
        + intros d' Hd'. apply Hds. by right.
        + by eapply generateDepExpr_names_ok. }
    destruct (Hfold (Deps f) [] ctx1) as (es & ctx3 & Hfd & Hok3); [done..|].
    set (r := Emitter.ResolveImport ctx3 (Module f)).
    set (st1 := {|
      Previous.ctx := r.2;
      Previous.stmts :=
        Previous.stmts st
        ++ [Previous.AssignStmt id (ast.CallExpr r.1 (Function f) es)];
      Previous.depIdents := Previous.depIdents st ++ [ast.Ident id] |}).
    assert (Previous.emit_item (length order) {| Container := c |} st item
            = Ok st1) as ->.
    { unfold Previous.emit_item. simpl. rewrite Hf.
      fold id. fold ctx1. by rewrite Hfd. }
    simpl.
    destruct (IH (done ++ [item]) st1) as (st' & Hrun & Hok' & Hlen).
    + by rewrite <-app_assoc.
    + unfold st1. simpl. rewrite bind_app. simpl.
      by apply ResolveImport_names_ok.
    + exists st'. split_and!; [done..|].
      rewrite Hlen. unfold st1. simpl. rewrite length_app. simpl. lia.
Qed.

End previous_emitter.

Lemma previous_emit_run c order :
  resolved c → lists_each_alias_once c order → topological c order →
  ∃ st,
    foldM (Previous.emit_item (length order) {| Container := c |}) order
      {| Previous.ctx := {| Emitter.ImportID := ∅; Emitter.Container := ∅;
                            Emitter.Counter := 0 |};
         Previous.stmts := []; Previous.depIdents := [] |}
    = Ok st ∧
    Previous.names_ok (Previous.ctx st)
      (Previous.stmts st ≫= Previous.assigned).
Proof.
  intros Hres Honce Ht.
  destruct (previous_emit_loop c order) with
    (l := order) (done := @nil string)
    (st := {| Previous.ctx := {| Emitter.ImportID := ∅;
                                 Emitter.Container := ∅;
                                 Emitter.Counter := 0 |};
              Previous.stmts := []; Previous.depIdents := [] |})
    as (st & Hrun & Hok & _).
  - intros a Ha. by apply Honce.
  - by apply ordered_earlier.
  - done.
  - split_and!; simpl; [done| |].
    + rewrite map_to_list_empty. constructor.
    + rewrite map_to_list_empty. constructor.
  - by exists st.
Qed.

(** X26.  The GenerateCode of the previous revision builds a syntax tree
    exactly for the configurations whose dependency names are all keys and
    whose graph is acyclic: its loop over the order neither panics nor runs
    out of depth on a standalone dependency; for every other configuration
    it returns the circular-dependency error of BuildOrder. *)
Theorem previous_GenerateFile_outcome rc ri rim config :
  enumerates rc (Container config) → (∀ m, enumerates (ri m) m) →
  (resolved (Container config) ∧ acyclic (Container config) ∧
   ∃ file, Previous.GenerateFile rc ri rim config = Ok file) ∨
  (¬ (resolved (Container config) ∧ acyclic (Container config)) ∧
   Previous.GenerateFile rc ri rim config
   = Err "circular dependency detected").
Proof.
  intros Hrc Hri. unfold Previous.GenerateFile.
  destruct (previous_run rc ri _ Hrc Hri) as (o & Hdr & ->).
  destruct (decide (length o ≠ size (Container config)))
    as [Hne|Hlen%dec_stable].
  - right. split; [|done]. intros [Hres Hac]. apply Hne.
    apply keys_all; [apply Hdr..|]. by apply drained_complete.
  - left. destruct (drained_full _ o Hdr Hlen) as (Hres & Hac & Honce & Ht).
    split_and!; [done..|]. simpl.
    destruct (previous_emit_run _ o Hres Honce Ht) as (st & Hrun & _).
    destruct config as [c]. simpl in *. rewrite Hrun. simpl. eauto.
Qed.

(** X27.  In a file generated by the previous revision the names bound are
    pairwise distinct: the import name dix, the import names of the module
    paths and the variables assigned in Root, the last two made by the one
    counter of GenUID. *)
Theorem previous_GenerateFile_names_distinct rc ri rim config file :
  enumerates rc (Container config) → (∀ m, enumerates (ri m) m) →
  (∀ m, enumerates (rim m) m) →
  Previous.GenerateFile rc ri rim config = Ok file →
  NoDup (Previous.Decls file ≫= Previous.bound_names).
Proof.
  intros Hrc Hri Hrim. unfold Previous.GenerateFile.
  destruct (previous_run rc ri _ Hrc Hri) as (o & Hdr & ->).
  destruct (decide (length o ≠ size (Container config)))
    as [Hne|Hlen%dec_stable]; [done|].
  destruct (drained_full _ o Hdr Hlen) as (Hres & Hac & Honce & Ht).
  destruct (previous_emit_run _ o Hres Honce Ht) as (st & Hrun & Hok).
  destruct config as [c]. simpl in *. rewrite Hrun. simpl.
  intros [= <-]. simpl.
  destruct Hok as (H0 & Hnd & Hall).
  assert (∀ body : list Previous.Stmt, ∀ e,
            (body ++ [Previous.ExprStmt e]) ≫= Previous.assigned
            = body ≫= Previous.assigned) as Hmark.
  { intros body e. rewrite bind_app. simpl. by rewrite app_nil_r. }
  assert ((if decide (0 < length (Previous.depIdents st))%nat
           then Previous.stmts st
                ++ [Previous.ExprStmt
                      (ast.CallExpr "dix" "Mark" (Previous.depIdents st))]
           else Previous.stmts st) ≫= Previous.assigned
          = Previous.stmts st ≫= Previous.assigned) as Hbody.
  { case_decide; [apply Hmark|done]. }
  set (specs := (λ e : string * string,
                   {| ast.ImportName := e.2;
                      ast.ImportPath :=
                        String (ascii_of_nat 34)
                          (e.1 +:+ String (ascii_of_nat 34) "") |})
                <$> rim (Emitter.ImportID (Previous.ctx st))).
  assert (ast.ImportName <$> specs
          ≡ₚ (map_to_list (Emitter.ImportID (Previous.ctx st))).*2) as Hspecs.
  { unfold specs. rewrite <-list_fmap_compose.
    rewrite <-(Hrim (Emitter.ImportID (Previous.ctx st))).
    by erewrite list_fmap_ext. }
  assert (∀ body,
            body ≫= Previous.assigned
            = Previous.stmts st ≫= Previous.assigned →
            NoDup ((if decide (0 < size (Emitter.ImportID (Previous.ctx st)))%nat
                    then [Previous.ImportDecl
                            ({| ast.ImportName := "dix";
                                ast.ImportPath := "github.com/smtdfc/dix" |}
                             :: specs);
                          Previous.FuncDecl "Root" body]
                    else [Previous.FuncDecl "Root" body])
                   ≫= Previous.bound_names)) as Hmain.
  { intros body Hb.
    destruct (decide (0 < size (Emitter.ImportID (Previous.ctx st)))%nat);
      rewrite !bind_cons;
      change (@nil Previous.Decl ≫= Previous.bound_names) with (@nil string);
      rewrite app_nil_r; cbn [Previous.bound_names]; rewrite Hb.
    - rewrite fmap_cons, Hspecs. simpl. apply NoDup_cons. split.
      + intros Hin. rewrite Forall_forall in Hall.
        destruct (Hall "dix") as (k & _ & Heq); [|done].
        apply elem_of_app. apply elem_of_app in Hin. tauto.
      + by rewrite (comm (++)).
    - by apply NoDup_app in Hnd as (? & _ & _). }
  apply Hmain, Hbody.
Qed.

(** X28.  The scanner of the previous revision, from annotations to text:
    an error of the graph builder is returned as it is; on a configuration
    that the builder returns, BuildOrder can only fail on a true cycle, since
    every dependency name was resolved to a key, and on an acyclic graph the
    result is what the printer gives for the generated syntax tree. *)
Theorem previous_scan_and_generate `{Library} format rc ri rim modPath anns :
  (∀ m, enumerates (rc m) m) → (∀ m, enumerates (ri m) m) →
  let generate := λ pkg config,
    Previous.GenerateCode format (rc (Container config)) ri rim pkg config in
  let result := Scan.ScanProjectAndGenerateDI generate modPath anns in
  (∀ msg, Scan.build_graph modPath anns = Err msg → result = Err msg) ∧
  (∀ config,
     Scan.build_graph modPath anns = Ok config →
     (acyclic (Container config) ∧
      ∃ file,
        Previous.GenerateFile (rc (Container config)) ri rim config = Ok file ∧
        result = format file) ∨
     (¬ acyclic (Container config) ∧
      result = Err "circular dependency detected")).
Proof.
  intros Hrc Hri generate result. unfold result, generate.
  unfold Scan.ScanProjectAndGenerateDI. split.
  - by intros msg ->.
  - intros config Hg. rewrite Hg. simpl.
    destruct (built_schedulable _ (build_graph_built _ _ _ Hg)) as [Hres _].
    unfold Previous.GenerateCode, Previous.GenerateFile.
    destruct (previous_run (rc (Container config)) ri _ (Hrc _) Hri)
      as (o & Hdr & ->).
    destruct (decide (length o ≠ size (Container config)))
      as [Hne|Hlen%dec_stable].
    + right. split; [|done]. intros Hac. apply Hne.
      apply keys_all; [apply Hdr..|]. by apply drained_complete.
    + left. destruct (drained_full _ o Hdr Hlen) as (_ & Hac & Honce & Ht).
      split; [done|]. simpl.
      destruct (previous_emit_run _ o Hres Honce Ht) as (st & Hrun & _).
      destruct config as [c]. simpl in *. rewrite Hrun. simpl. eauto.
Qed.

(** ** Instances of the further results *)

Import FileExamples.

Lemma BuildOrder_outcomes_witness :
  (∃ order,
     BuildOrder (forwards (Container final_dependency_config)) forwards
       (Container final_dependency_config) = Ok order) ∨
  BuildOrder (forwards (Container final_dependency_config)) forwards
    (Container final_dependency_config)
  = Err "circular dependency detected" ∨
  ∃ a f d fd,
    Container final_dependency_config !! a = Some f ∧ d ∈ depnames f ∧
    Container final_dependency_config !! d = Some fd ∧
    ((Final fd = true ∧
      BuildOrder (forwards (Container final_dependency_config)) forwards
        (Container final_dependency_config)
      = Err (final_dependency_error d a)) ∨
     (Final fd = false ∧ Disable fd = true ∧
      BuildOrder (forwards (Container final_dependency_config)) forwards
        (Container final_dependency_config)
      = Err (disable_dependency_error d a))).
Proof.
  apply BuildOrder_outcomes.
  - apply forwards_enumerates.
  - intros m. apply forwards_enumerates.
  - apply (bool_decide_unpack _). vm_compute. exact I.
Defined.

Lemma BuildOrder_succeeds_iff_witness :
  (∃ order,
     BuildOrder (backwards (Container server_config)) backwards
       (Container server_config) = Ok order) ↔
  resolved (Container server_config) ∧ acyclic (Container server_config) ∧
  usable (Container server_config).
Proof.
  apply BuildOrder_succeeds_iff.
  - apply backwards_enumerates.
  - intros m. apply backwards_enumerates.
Defined.

Lemma drain_bounded_witness :
  ∃ e order,
    build_edges (Container cyclic_config) (forwards (Container cyclic_config))
      = Ok e ∧
    drain (size (Container cyclic_config)) (graph e)
      (seed (forwards (indegree e))) (indegree e) [] = Some order ∧
    NoDup order ∧ (length order ≤ size (Container cyclic_config))%nat.
Proof.
  set (e := match build_edges (Container cyclic_config)
                    (forwards (Container cyclic_config)) with
            | Ok e => e
            | _ => {| indegree := ∅; graph := ∅ |}
            end).
  assert (build_edges (Container cyclic_config)
            (forwards (Container cyclic_config)) = Ok e) as He.
  { vm_compute. reflexivity. }
  destruct (drain_bounded (forwards (Container cyclic_config)) forwards
              (Container cyclic_config) e) as (order & Hd & Hnd & Hlen).
  - apply forwards_enumerates.
  - intros m. apply forwards_enumerates.
  - exact He.
  - exists e, order. split_and!; assumption.
Defined.

Lemma kahn_order_omits_cycle_region_witness :
  NoDup (@nil string) ∧ topological (Container cyclic_config) [] ∧
  ∀ a, is_Some (Container cyclic_config !! a) →
    a ∉ @nil string ↔
    ∃ b, rtc (dep_edge (Container cyclic_config)) a b ∧
         tc (dep_edge (Container cyclic_config)) b b.
Proof.
  apply (kahn_order_omits_cycle_region
           (forwards (Container cyclic_config)) forwards).
  - apply forwards_enumerates.
  - intros m. apply forwards_enumerates.
  - vm_compute. reflexivity.
Defined.

Lemma GenerateFile_follows_BuildOrder_witness :
  (∃ file,
     Emitter.GenerateFile (forwards (Container server_config)) forwards
       forwards "/proj" "example.com/proj" server_config = Ok file) ↔
  ∃ order,
    BuildOrder (forwards (Container server_config)) forwards
      (Container server_config) = Ok order.
Proof.
  apply (GenerateFile_follows_BuildOrder
           (forwards (Container server_config)) forwards forwards
           "/proj" "example.com/proj" server_config).
  - apply forwards_enumerates.
  - intros m. apply forwards_enumerates.
Defined.

Lemma GenerateFile_keep_alive_witness :
  ∃ file order,
    Emitter.GenerateFile (forwards (Container server_config)) forwards
      forwards "/proj" "example.com/proj" server_config = Ok file ∧
    BuildOrder (forwards (Container server_config)) forwards
      (Container server_config) = Ok order ∧
    decl_name <$> declarations file
      = (λ item, from_option Alias "" (Container server_config !! item))
          <$> order ∧
    root_body file
      = declarations file ++
        (if decide (order = []) then []
         else [ast.ExprStmt
                 (ast.CallExpr "dix" "Mark"
                    (ast.Ident <$> (decl_name <$> declarations file)))]).
Proof.
  set (file := match Emitter.GenerateFile
                       (forwards (Container server_config)) forwards
                       forwards "/proj" "example.com/proj" server_config with
               | Ok file => file
               | _ => {| ast.PackageName := ""; ast.Decls := [] |}
               end).
  assert (Emitter.GenerateFile (forwards (Container server_config)) forwards
            forwards "/proj" "example.com/proj" server_config = Ok file)
    as Hfile.
  { vm_compute. reflexivity. }
  destruct (GenerateFile_keep_alive _ _ _ _ _ _ _ Hfile)
    as (order & Hbo & Hnames & Hbody).
  exists file, order. split_and!; assumption.
Defined.

Lemma GenerateFile_import_names_distinct_witness :
  ∃ file,
    Emitter.GenerateFile (forwards (Container server_config)) forwards
      backwards "/proj" "example.com/proj" server_config = Ok file ∧
    NoDup (import_names file).
Proof.
  set (file := match Emitter.GenerateFile
                       (forwards (Container server_config)) forwards
                       backwards "/proj" "example.com/proj" server_config with
               | Ok file => file
               | _ => {| ast.PackageName := ""; ast.Decls := [] |}
               end).
  assert (Emitter.GenerateFile (forwards (Container server_config)) forwards
            backwards "/proj" "example.com/proj" server_config = Ok file)
    as Hfile.
  { vm_compute. reflexivity. }
  exists file. split; [exact Hfile|].
  apply (GenerateFile_import_names_distinct _ _ backwards _ _ _ _
           (λ m, backwards_enumerates m) Hfile).
Defined.


Lemma GenerateFile_empty_witness :
  Emitter.GenerateFile (forwards ∅) forwards forwards "/proj"
    "example.com/proj" {| Container := ∅ |}
  = Ok {| ast.PackageName := "dix";
          ast.Decls := [ast.FuncDecl "Root" []] |}.
Proof.
  apply GenerateFile_empty.
  - apply forwards_enumerates.
  - intros m. apply forwards_enumerates.
Defined.

Lemma parse_dep_total_witness :
  parse_dep " ^cache" = Ok ((Scan.span not_caret "cache").1, true).
Proof.
  apply (parse_dep_total " ^cache"). vm_compute. reflexivity.
Defined.

Lemma add_wire_outcome_witness :
  Scan.add_wire (Container server_config)
    (Scan.IsWire (wire_annotation "/proj/store" "cache" ["db"; " ^server "]))
  = Ok (<["cache" :=
            set_deps (factory "cache" "NewCache" "/proj/store"
                        [shared "db"] false false)
              (dep_ref <$> ["db"; " ^server "])]> (Container server_config)).
Proof.
  apply (add_wire_outcome (Container server_config)
           (wire_annotation "/proj/store" "cache" ["db"; " ^server "])
           (factory "cache" "NewCache" "/proj/store" [shared "db"]
              false false)).
  - reflexivity.
  - apply (bool_decide_unpack _). vm_compute. exact I.
Defined.

Lemma build_graph_schedulable_witness :
  ∃ config,
    Scan.build_graph "example.com/proj"
      [factory_annotation "store" "NewDB" "db";
       Scan.IsWire (wire_annotation "store" "cache" ["db"]);
       factory_annotation "store" "NewCache" "cache"] = Ok config ∧
    resolved (Container config) ∧ usable (Container config) ∧
    ((∃ order,
        BuildOrder (forwards (Container config)) forwards (Container config)
        = Ok order) ∨
     BuildOrder (forwards (Container config)) forwards (Container config)
     = Err "circular dependency detected").
Proof.
  set (anns := [factory_annotation "store" "NewDB" "db";
                Scan.IsWire (wire_annotation "store" "cache" ["db"]);
                factory_annotation "store" "NewCache" "cache"]).
  set (config := match Scan.build_graph "example.com/proj" anns with
                 | Ok config => config
                 | _ => {| Container := ∅ |}
                 end).
  assert (Scan.build_graph "example.com/proj" anns = Ok config) as Hg.
  { vm_compute. reflexivity. }
  exists config. split; [exact Hg|].
  apply (build_graph_schedulable "example.com/proj" anns config
           (forwards (Container config)) forwards Hg).
  - apply forwards_enumerates.
  - intros m. apply forwards_enumerates.
Defined.

Lemma build_graph_factories_witness :
  ∃ config,
    Scan.build_graph "example.com/proj"
      [factory_annotation "store" "NewDB" "db";
       Scan.IsWire (wire_annotation "store" "cache" ["db"]);
       factory_annotation "store" "NewCache" "cache"] = Ok config ∧
    ∀ alias f, Container config !! alias = Some f →
      entered_for "example.com/proj"
        [factory_annotation "store" "NewDB" "db";
         Scan.IsWire (wire_annotation "store" "cache" ["db"]);
         factory_annotation "store" "NewCache" "cache"] alias f.
Proof.
  set (anns := [factory_annotation "store" "NewDB" "db";
                Scan.IsWire (wire_annotation "store" "cache" ["db"]);
                factory_annotation "store" "NewCache" "cache"]).
  set (config := match Scan.build_graph "example.com/proj" anns with
                 | Ok config => config
                 | _ => {| Container := ∅ |}
                 end).
  assert (Scan.build_graph "example.com/proj" anns = Ok config) as Hg.
  { vm_compute. reflexivity. }
  exists config. split; [exact Hg|].
  apply (build_graph_factories "example.com/proj" anns config Hg).
Defined.

Lemma add_wire_overrides_witness :
  ∃ c1,
    Scan.add_wire (Container server_config)
      (Scan.IsWire (wire_annotation "/proj/web" "server" ["cache"])) = Ok c1 ∧
    Scan.add_wire c1
      (Scan.IsWire (wire_annotation "/proj/web" "server" ["db"]))
    = Scan.add_wire (Container server_config)
        (Scan.IsWire (wire_annotation "/proj/web" "server" ["db"])).
Proof.
  set (c1 := match Scan.add_wire (Container server_config)
                     (Scan.IsWire
                        (wire_annotation "/proj/web" "server" ["cache"])) with
             | Ok c1 => c1
             | _ => ∅
             end).
  assert (Scan.add_wire (Container server_config)
            (Scan.IsWire (wire_annotation "/proj/web" "server" ["cache"]))
          = Ok c1) as H1.
  { vm_compute. reflexivity. }
  exists c1. split; [exact H1|].
  apply (add_wire_overrides (Container server_config)
           (wire_annotation "/proj/web" "server" ["cache"])
           (wire_annotation "/proj/web" "server" ["db"]) c1).
  - reflexivity.
  - exact H1.
Defined.





Lemma previous_BuildOrder_outcome_witness :
  (resolved (Container dangling_cyclic_config) ∧
   acyclic (Container dangling_cyclic_config) ∧
   ∃ order,
     Previous.BuildOrder (forwards (Container dangling_cyclic_config))
       forwards (Container dangling_cyclic_config) = Ok order ∧
     lists_each_alias_once (Container dangling_cyclic_config) order ∧
     topological (Container dangling_cyclic_config) order) ∨
  (¬ (resolved (Container dangling_cyclic_config) ∧
      acyclic (Container dangling_cyclic_config)) ∧
   Previous.BuildOrder (forwards (Container dangling_cyclic_config))
     forwards (Container dangling_cyclic_config)
   = Err "circular dependency detected").
Proof.
  apply previous_BuildOrder_outcome.
  - apply forwards_enumerates.
  - intros m. apply forwards_enumerates.
Defined.

Lemma BuildOrder_extends_previous_witness :
  BuildOrder (backwards (Container server_config)) forwards
    (Container server_config)
  = Previous.BuildOrder (backwards (Container server_config)) forwards
      (Container server_config).
Proof.
  apply BuildOrder_extends_previous.
  - apply backwards_enumerates.
  - intros m. apply forwards_enumerates.
  - apply (bool_decide_unpack _). vm_compute. exact I.
  - apply (bool_decide_unpack _). vm_compute. exact I.
Defined.

Lemma previous_GenerateFile_outcome_witness :
  (resolved (Container server_config) ∧ acyclic (Container server_config) ∧
   ∃ file,
     Previous.GenerateFile (forwards (Container server_config)) forwards
       forwards server_config = Ok file) ∨
  (¬ (resolved (Container server_config) ∧
      acyclic (Container server_config)) ∧
   Previous.GenerateFile (forwards (Container server_config)) forwards
     forwards server_config
   = Err "circular dependency detected").
Proof.
  apply previous_GenerateFile_outcome.
  - apply forwards_enumerates.
  - intros m. apply forwards_enumerates.
Defined.

Lemma previous_GenerateFile_names_distinct_witness :
  ∃ file,
    Previous.GenerateFile (forwards (Container server_config)) forwards
      backwards server_config = Ok file ∧
    NoDup (Previous.Decls file ≫= Previous.bound_names).
Proof.
  set (file := match Previous.GenerateFile
                       (forwards (Container server_config)) forwards
                       backwards server_config with
               | Ok file => file
               | _ => {| Previous.PackageName := ""; Previous.Decls := [] |}
               end).
  assert (Previous.GenerateFile (forwards (Container server_config)) forwards
            backwards server_config = Ok file) as Hfile.
  { vm_compute. reflexivity. }
  exists file. split; [exact Hfile|].
  apply (previous_GenerateFile_names_distinct
           (forwards (Container server_config)) forwards backwards
           server_config file).
  - apply forwards_enumerates.
  - intros m. apply forwards_enumerates.
  - intros m. apply backwards_enumerates.
  - exact Hfile.
Defined.

Lemma previous_scan_and_generate_witness :
  ∃ config,
    Scan.build_graph "example.com/proj"
      [factory_annotation "store" "NewDB" "db";
       Scan.IsWire (wire_annotation "store" "db" ["db"])] = Ok config ∧
    ((acyclic (Container config) ∧
      ∃ file,
        Previous.GenerateFile (forwards (Container config)) forwards forwards
          config = Ok file ∧
        Scan.ScanProjectAndGenerateDI
          (λ pkg config,
             Previous.GenerateCode print_names (forwards (Container config))
               forwards forwards pkg config)
          "example.com/proj"
          [factory_annotation "store" "NewDB" "db";
           Scan.IsWire (wire_annotation "store" "db" ["db"])]
        = print_names file) ∨
     (¬ acyclic (Container config) ∧
      Scan.ScanProjectAndGenerateDI
        (λ pkg config,
           Previous.GenerateCode print_names (forwards (Container config))
             forwards forwards pkg config)
        "example.com/proj"
        [factory_annotation "store" "NewDB" "db";
         Scan.IsWire (wire_annotation "store" "db" ["db"])]
      = Err "circular dependency detected")).
Proof.
  set (anns := [factory_annotation "store" "NewDB" "db";
                Scan.IsWire (wire_annotation "store" "db" ["db"])]).
  set (config := match Scan.build_graph "example.com/proj" anns with
                 | Ok config => config
                 | _ => {| Container := ∅ |}
                 end).
  assert (Scan.build_graph "example.com/proj" anns = Ok config) as Hg.
  { vm_compute. reflexivity. }
  exists config. split; [exact Hg|].
  apply (previous_scan_and_generate print_names (λ m, forwards m) forwards
           forwards "example.com/proj" anns).
  - intros m. apply forwards_enumerates.
  - intros m. apply forwards_enumerates.
  - exact Hg.
Defined.
